(** * ICD10-pub: the argument parser and the ICD-10 order-file pipeline

    A shallow embedding of [ArgParser.cpp] (the token registry and the
    resolver) and of [parse_url], [parse_codes], [gen_go_file] and [gen_files]
    of the main program, with the properties of the written specification
    stated over it.

    Conventions of the embedding:
    - [std::string] is [string]; a character is an [ascii] (an unsigned byte).
    - [std::unordered_map] is [gmap], [std::unordered_set] is [gset],
      [std::vector] and [std::deque] are [list].
    - A C++ exception and an undefined operation (an index beyond the end of
      a string, [back()] of an empty string) are values of [failure]; code
      that can meet one returns a [result]; [parse_url] has the outcomes of
      [ParseUrl.outcome].
    - [size_t] counters are [nat]: every counter of [parse_codes] stays below
      the length of the blob plus 70, far from the wrap-around of [size_t].
    - Library code ([std::sort], [strftime], [tolower]) is a parameter with
      its contract. [Introsort] is [std::sort] as libstdc++ implements it,
      for the order in which equal elements come out. *)

From Stdlib Require Import Ascii String ZArith List Permutation Sorted DecimalString.
From stdpp Require Import gmap strings list fin_maps sorting.

Local Open Scope string_scope.
#[local] Set Warnings "-clear-no-such-hyp".

(** ** Failures and results *)

Inductive failure : Type :=
  | invalid_argument (what : string)   (* thrown by [ArgParser::init] *)
  | out_of_range                       (* thrown by [unordered_map::at] *)
  | ub_index (pos size : nat)          (* [data[pos]] with [size < pos] *)
  | ub_back_empty                      (* [back()] of an empty string *)
  | out_of_fuel.                       (* the model's loop bound, never met *)

Inductive result (A : Type) : Type :=
  | Ok (a : A)
  | Fail (f : failure).
Arguments Ok {A} a.
Arguments Fail {A} f.

Global Instance result_bind : MBind result := fun A B k r =>
  match r with
  | Ok a => k a
  | Fail f => Fail f
  end.

(** ** Characters and [std::string] operations *)

Definition NUL : ascii := "000"%char.
Definition LF : ascii := "010"%char.
Definition CR : ascii := "013"%char.
Definition DQUOTE : ascii := "034"%char.
Definition SPACE : ascii := " "%char.

Definition ascii_eqb (a b : ascii) : bool := Ascii.eqb a b.

(** [s.push_back(c)] *)
Definition push_back (s : string) (c : ascii) : string := s +:+ String c "".

(** [s.back()], defined on a non-empty string only *)
Fixpoint back (s : string) : option ascii :=
  match s with
  | "" => None
  | String c "" => Some c
  | String _ s' => back s'
  end.

(** [s.pop_back()] *)
Fixpoint pop_back (s : string) : string :=
  match s with
  | "" => ""
  | String c "" => ""
  | String c s' => String c (pop_back s')
  end.

(** [s.ends_with(c)] *)
Definition ends_with (s : string) (c : ascii) : bool :=
  match back s with
  | Some d => ascii_eqb d c
  | None => false
  end.

(** [p + n] for a C string [p] whose first [n] characters are not NUL *)
Fixpoint skip (n : nat) (s : string) : string :=
  match n, s with
  | 0, _ => s
  | S n', String _ s' => skip n' s'
  | S _, "" => ""
  end.

(** [p[n]] for a C string: the terminating NUL sits at the end *)
Definition char_at (s : string) (n : nat) : ascii :=
  match String.get n s with
  | Some c => c
  | None => NUL
  end.

(** ** ArgParser *)

Module ArgParser.

Record t : Type := mk {
  keys_trans : gmap string string;
  values : gmap string string;
  keys_found : gmap string bool;
  key_order : list string;
  short_keys : gset string;
  long_keys : gset string
}.

(** [m.insert({k, v})]: an existing entry is kept *)
Definition umap_insert {V : Type} (k : string) (v : V) (m : gmap string V)
  : gmap string V :=
  match m !! k with
  | Some _ => m
  | None => <[k := v]> m
  end.

(** [m.contains(k)] *)
Definition contains {V : Type} (m : gmap string V) (k : string) : bool :=
  match m !! k with
  | Some _ => true
  | None => false
  end.

(** [m.at(k)] *)
Definition at_ {V : Type} (m : gmap string V) (k : string) : result V :=
  match m !! k with
  | Some v => Ok v
  | None => Fail out_of_range
  end.

Definition empty_string (s : string) : bool :=
  match s with
  | "" => true
  | _ => false
  end.

(** One round of the loop of [init] (lines 46-62). *)
Definition init_step (p : t) (short_token long_token : string) : t :=
  let p1 :=
    if negb (empty_string long_token) && negb (empty_string short_token) then
      mk (umap_insert long_token short_token (keys_trans p)) (values p)
         (keys_found p) (key_order p) (short_keys p)
         ({[long_token]} ∪ long_keys p)
    else p in
  if negb (empty_string short_token) then
    mk (keys_trans p1) (umap_insert short_token "" (values p1))
       (umap_insert short_token false (keys_found p1))
       (key_order p1 ++ [short_token])
       ({[short_token]} ∪ short_keys p1) (long_keys p1)
  else if negb (empty_string long_token) then
    mk (keys_trans p1) (umap_insert long_token "" (values p1))
       (umap_insert long_token false (keys_found p1))
       (key_order p1 ++ [long_token])
       (short_keys p1) ({[long_token]} ∪ long_keys p1)
  else p1.

Fixpoint init_loop (p : t) (tokens_short tokens_long : list string) : t :=
  match tokens_short, tokens_long with
  | s :: ss, l :: ls => init_loop (init_step p s l) ss ls
  | _, _ => p
  end.

Definition empty : t := mk ∅ ∅ ∅ [] ∅ ∅.

Definition init (tokens_short tokens_long : list string) : result t :=
  if negb (length tokens_short =? length tokens_long)%nat then
    Fail (invalid_argument "Token list sizes do not match!")
  else Ok (init_loop empty tokens_short tokens_long).

(** The three constructors. *)
Definition of_pairs (tokens : list (string * string)) : result t :=
  init (map fst tokens) (map snd tokens).

Definition of_short (tokens_short : list string) : result t :=
  init tokens_short (map (fun _ => "") tokens_short).

Definition of_short_long (tokens_short tokens_long : list string) : result t :=
  init tokens_short tokens_long.

(** [string key = token; if (keys_trans.contains(key)) key = keys_trans.at(key);] *)
Definition alias (p : t) (token : string) : string :=
  match keys_trans p !! token with
  | Some k => k
  | None => token
  end.

Definition found (p : t) (token : string) : bool :=
  let key := alias p token in
  match keys_found p !! key with
  | Some b => b
  | None => false
  end.

Definition get_value (p : t) (token : string) : result string :=
  let key := alias p token in
  if contains (values p) key then
    b ← at_ (keys_found p) key;
    if b : bool then at_ (values p) key else Ok ""
  else Ok "".

Definition add_token (p : t) (short_token long_token : string)
    (has_value positional : bool) : bool * t :=
  if empty_string short_token && empty_string long_token then (false, p)
  else
    let p1 :=
      if negb (empty_string long_token) && negb (empty_string short_token) then
        mk (umap_insert long_token short_token (keys_trans p)) (values p)
           (keys_found p) (key_order p) (short_keys p)
           ({[long_token]} ∪ long_keys p)
      else p in
    if negb (empty_string short_token) then
      (true,
       mk (keys_trans p1)
          (if has_value then umap_insert short_token "" (values p1)
           else values p1)
          (umap_insert short_token false (keys_found p1))
          (if has_value && positional then key_order p1 ++ [short_token]
           else key_order p1)
          ({[short_token]} ∪ short_keys p1) (long_keys p1))
    else if negb (empty_string long_token) then
      (true,
       mk (keys_trans p1)
          (if has_value then umap_insert long_token "" (values p1)
           else values p1)
          (umap_insert long_token false (keys_found p1))
          (if has_value && positional then key_order p1 ++ [long_token]
           else key_order p1)
          (short_keys p1) ({[long_token]} ∪ long_keys p1))
    else (true, p1).

(** [argv[i][0] == '-' || argv[i][0] == '/'] *)
Definition is_option (a : string) : bool :=
  ascii_eqb (char_at a 0) "-" || ascii_eqb (char_at a 0) "/".

(** The key an option token stands for (lines 106-115). *)
Definition match_key (p : t) (a : string) : string :=
  let arg :=
    if ascii_eqb (char_at a 0) "-" && ascii_eqb (char_at a 1) "-" then
      let arg := skip 2 a in
      if bool_decide (arg ∈ long_keys p) then arg else a
    else
      let arg := skip 1 a in
      if bool_decide (arg ∈ short_keys p) then arg else a in
  alias p arg.

(** A bare argument as it is queued (lines 128-129). *)
Definition strip_quotes (a : string) : string :=
  let arg := skip (if ascii_eqb (char_at a 0) DQUOTE then 1 else 0) a in
  if ends_with arg DQUOTE then pop_back arg else arg.

Definition set_found (p : t) (k : string) : t :=
  mk (keys_trans p) (values p) (<[k := true]> (keys_found p)) (key_order p)
     (short_keys p) (long_keys p).

Definition set_value (p : t) (k v : string) : t :=
  mk (keys_trans p) (<[k := v]> (values p)) (keys_found p) (key_order p)
     (short_keys p) (long_keys p).

(** The scan of lines 103-132 over the arguments from index [i] on; an
    argument is followed by another one exactly when [i < last_kwd]. *)
Fixpoint scan (p : t) (extras : list string) (args : list string)
  : t * list string :=
  match args with
  | [] => (p, extras)
  | a :: rest =>
    if is_option a then
      let arg := match_key p a in
      if contains (keys_found p) arg then
        let p1 := set_found p arg in
        match rest with
        | v :: rest' =>
          if contains (values p1) arg then scan (set_value p1 arg v) extras rest'
          else scan p1 extras rest
        | [] => (p1, extras)
        end
      else scan p (extras ++ [a]) rest
    else scan p (extras ++ [strip_quotes a]) rest
  end.

(** The loop of lines 134-142 over [key_order]. *)
Fixpoint backfill (p : t) (extras : list string) (order : list string)
  : result t :=
  match order with
  | [] => Ok p
  | it :: order' =>
    match extras with
    | [] => Ok p
    | e :: extras' =>
      b ← at_ (keys_found p) it;
      if negb b && contains (values p) it then
        backfill (set_found (set_value p it e) it) extras' order'
      else backfill p extras order'
    end
  end.

(** [parse(argc, argv)] with [argc = length argv]; the C++ function returns
    [true] whenever it returns. *)
Definition parse (p : t) (argv : list string) : result t :=
  let '(p1, extras) := scan p [] (tail argv) in
  backfill p1 extras (key_order p1).

End ArgParser.

(** ** The ICD-10 order file: records, parser and generator *)

Module ICD10.

(** Container for code, decimal code, and description of an ICD-10 code. *)
Record ICDCode : Type := mkICDCode {
  code : string;
  dec_code : string;
  desc : string
}.

Definition ICDCode_empty : ICDCode := mkICDCode "" "" "".

(** [comp_icdcode]: [a.code < b.code], the lexicographic order of
    [std::string] on unsigned bytes. *)
Definition comp_icdcode (a b : ICDCode) : bool := String.ltb (code a) (code b).

(** [std::sort(first, last, comp_icdcode)] is library code. Its contract: the
    range afterwards holds the same elements, and no later element compares
    less than an earlier one. The order of equivalent elements is not part
    of the contract. *)
Record StdSort : Type := mkStdSort {
  sort : list ICDCode -> list ICDCode;
  sort_permutation : forall l, sort l ≡ₚ l;
  sort_sorted : forall l (i j : nat) a b,
    (i < j)%nat -> sort l !! i = Some a -> sort l !! j = Some b ->
    comp_icdcode b a = false
}.

(** [data[i]] on a [const std::string]: the character at [i], the NUL at
    [i = size()], undefined beyond. *)
Definition index (data : string) (i : nat) : result ascii :=
  match String.get i data with
  | Some c => Ok c
  | None =>
    if (i =? String.length data)%nat then Ok NUL
    else Fail (ub_index i (String.length data))
  end.

(** [while (code.desc.back() == ' ') { code.desc.pop_back(); }] *)
Fixpoint strip_loop (fuel : nat) (d : string) : result string :=
  match back d with
  | None => Fail ub_back_empty
  | Some c =>
    if ascii_eqb c SPACE then
      match fuel with
      | 0 => Fail out_of_fuel
      | S fuel' => strip_loop fuel' (pop_back d)
      end
    else Ok d
  end.

Definition strip_trailing (d : string) : result string :=
  strip_loop (String.length d) d.

(** The variables of the loop of [parse_codes]. *)
Record scan_state : Type := mkState {
  st_i : nat;
  st_col : nat;
  st_hipaa : ascii;
  st_code : ICDCode;
  st_codes : list ICDCode
}.

Definition is_eol (c : ascii) : bool := ascii_eqb c CR || ascii_eqb c LF.

(** The column branches of the loop body (lines 756-781). *)
Definition loop_columns (data : string) (s : scan_state) : result scan_state :=
  let '(mkState i col hipaa code codes) := s in
  c ← index data i;
  if (6 <=? col)%nat && (col <? 14)%nat then
    if ascii_eqb c SPACE then
      Ok (mkState (i + (13 - col)) (col + (13 - col)) hipaa code codes)
    else
      let dec := if (col =? 9)%nat then push_back (dec_code code) "."
                 else dec_code code in
      Ok (mkState i col hipaa
            (mkICDCode (push_back (ICD10.code code) c) (push_back dec c)
                       (desc code))
            codes)
  else if (col =? 14)%nat then
    Ok (mkState (i + 62) (col + 62) c code codes)
  else if ascii_eqb hipaa "1" && (77 <=? col)%nat then
    if is_eol c then
      d ← strip_trailing (desc code);
      Ok (mkState i col hipaa
            (mkICDCode (ICD10.code code) (dec_code code) d) codes)
    else
      Ok (mkState i col hipaa
            (mkICDCode (ICD10.code code) (dec_code code)
                       (push_back (desc code) c))
            codes)
  else Ok s.

(** The line-end branch of the loop body (lines 783-797). *)
Definition loop_eol (data : string) (s : scan_state) : result scan_state :=
  let '(mkState i col hipaa code codes) := s in
  c ← index data i;
  if is_eol c then
    i1 ← (if ascii_eqb c CR then
            c1 ← index data (i + 1);
            Ok (if ascii_eqb c1 LF then i + 1 else i)
          else Ok i);
    Ok (mkState (i1 + 6) 5 hipaa ICDCode_empty
          (if ascii_eqb hipaa "1" then codes ++ [code] else codes))
  else Ok s.

Definition loop_body (data : string) (s : scan_state) : result scan_state :=
  s1 ← loop_columns data s;
  loop_eol data s1.

(** [for (size_t i = 5; ++i < data_len; col++)]: the state is taken after
    [++i]; a round ends with [col++] and the next [++i]. Each round moves [i]
    forward, so [data_len] rounds are enough. *)
Fixpoint scan_loop (fuel : nat) (data : string) (s : scan_state)
  : result (list ICDCode) :=
  if (String.length data <=? st_i s)%nat then Ok (st_codes s)
  else
    match fuel with
    | 0 => Fail out_of_fuel
    | S fuel' =>
      s' ← loop_body data s;
      scan_loop fuel' data
        (mkState (S (st_i s')) (S (st_col s')) (st_hipaa s') (st_code s')
                 (st_codes s'))
    end.

(** The scan of [parse_codes], before the sort. *)
Definition scan_codes (data : string) (codes : list ICDCode)
  : result (list ICDCode) :=
  scan_loop (String.length data) data (mkState 6 6 NUL ICDCode_empty codes).

Definition parse_codes (sorter : StdSort) (data : string) (codes : list ICDCode)
  : result (list ICDCode) :=
  scanned ← scan_codes data codes;
  Ok (sort sorter scanned).

(** *** The generator *)

(** [struct tm] *)
Record tm : Type := mkTm {
  tm_sec : Z; tm_min : Z; tm_hour : Z; tm_mday : Z; tm_mon : Z;
  tm_year : Z; tm_wday : Z; tm_yday : Z; tm_isdst : Z
}.

(** The characters of a C string: those before the first NUL. *)
Fixpoint c_str (buf : string) : string :=
  match buf with
  | "" => ""
  | String c buf' => if ascii_eqb c NUL then "" else String c (c_str buf')
  end.

(** [std::to_string] of an integer. *)
Definition to_string (z : Z) : string := NilZero.string_of_int (Z.to_int z).

Definition has_bit (bitmask mask : Z) : bool := negb (Z.land bitmask mask =? 0)%Z.

Section Generator.

(** [strftime(buf, maxsize, format, timestamp)] is library code and depends
    on the locale: [strftime maxsize format timestamp] is the content of the
    array [buf] after the call. *)
Variable strftime : nat -> string -> tm -> string.

(** The header block (lines 813-831), written into a cleared buffer. *)
Definition header (year : string) (timestamp : tm) (dj : string) (bitmask : Z)
  : string :=
  let part1 := strftime 15 "%d %b %Y   " timestamp in
  let part2 := strftime 3 "%I" timestamp in
  let part3 := strftime 15 ":%M %p   Cache" timestamp in
  let outp := "" in
  let outp := (outp +:+ "~Format=5.S~" +:+ String LF "") +:+ substring 0 14 part1 in
  let outp := outp +:+ c_str (if ascii_eqb (char_at part2 0) "0"
                              then skip 1 part2 else part2) in
  let outp := (outp +:+ substring 0 14 part3) +:+ String LF "^" in
  let outp := if negb (has_bit bitmask 1) then outp +:+ "NON" else outp in
  let outp := outp +:+ "DECGBL" in
  push_back
    ((((outp +:+ "(" +:+ String DQUOTE "Subscript 1" +:+ String DQUOTE ")"
        +:+ String LF "") +:+ dj) +:+ "_PLACEHOLDER FOR YEAR ") +:+ year) LF.

(** The two lines of one record (lines 834-837). *)
Definition record_lines (bitmask : Z) (outp : string) (it : ICDCode) : string :=
  let outp := push_back outp "^" in
  let outp := if negb (has_bit bitmask 1) then outp +:+ "NON" else outp in
  let outp :=
    ((outp +:+ "DECGBL(" +:+ String DQUOTE "Subscript 1" +:+ String DQUOTE ","
       +:+ String DQUOTE "")
     +:+ (if has_bit bitmask 1 then dec_code it else code it))
    +:+ String DQUOTE ")" +:+ String LF "" in
  push_back (outp +:+ desc it) LF.

(** [gen_go_file]: the buffer [*outp] before the call is an argument, the
    buffer after the call the result. Bit 1 of [bitmask] selects the decimal
    form, bit 2 the ending newlines, bit 4 the header. *)
Definition gen_go_file (outp : string) (codes : list ICDCode) (year : string)
    (timestamp : tm) (dj : string) (bitmask : Z) : string :=
  let outp :=
    if has_bit bitmask 4 then header year timestamp dj bitmask else outp in
  let outp := fold_left (record_lines bitmask) codes outp in
  if has_bit bitmask 2 then outp +:+ String LF (String LF "") else outp.

(** [gen_files]: [ltim] and [days] are what the system clock gives (the local
    time and the whole days since the epoch). The four threads write one
    buffer each and share only data they read, so they are run in turn. The
    result is the content of [dec], [ndec] and [comb] after the call. *)
Definition gen_files (codes : list ICDCode) (year : string)
    (dec ndec comb : string) (ltim : tm) (days : Z)
  : string * string * string :=
  let comb2 := "" in
  let dj := to_string (days - 7182) in
  let ndec := gen_go_file ndec codes year ltim dj 6 in
  let dec := gen_go_file dec codes year ltim dj 7 in
  let comb := gen_go_file comb codes year ltim dj 4 in
  let comb2 := gen_go_file comb2 codes year ltim dj 3 in
  let comb := comb +:+ comb2 in
  (dec, ndec, comb).

End Generator.

End ICD10.

(** ** The address splitter [parse_url] *)

Module ParseUrl.

(** How a call ends: it returns, it throws [std::out_of_range], its
    behaviour is undefined, or the loop bound of the model is met (it never
    is). *)
Inductive outcome (A : Type) : Type :=
  | Returns (a : A)
  | Throws
  | Undefined
  | OutOfFuel.
Arguments Returns {A} a.
Arguments Throws {A}.
Arguments Undefined {A}.
Arguments OutOfFuel {A}.

#[global] Instance outcome_bind : MBind outcome := fun A B k o =>
  match o with
  | Returns a => k a
  | Throws => Throws
  | Undefined => Undefined
  | OutOfFuel => OutOfFuel
  end.

(** [s.find(c, pos)]: the first position from [pos] on that holds [c];
    [None] is [npos]. *)
Fixpoint find (c : ascii) (s : string) (pos : nat) : option nat :=
  match s with
  | "" => None
  | String d s' =>
    match pos with
    | 0 => if ascii_eqb d c then Some 0%nat else S <$> find c s' 0
    | S pos' => S <$> find c s' pos'
    end
  end.

(** [s.substr(pos, count)], and [s.substr(pos)] for the count [None]. *)
Definition substr (s : string) (pos : nat) (count : option nat)
  : outcome string :=
  if (String.length s <? pos)%nat then Throws
  else Returns (match count with
                | Some n => substring pos n s
                | None => skip pos s
                end).

(** [s[k]] on a [std::string] or on the array of a literal: the character
    at [k], the NUL at the end, undefined beyond. *)
Definition elem_at (s : string) (k : nat) : outcome ascii :=
  if (k <=? String.length s)%nat then Returns (char_at s k) else Undefined.

Definition http_base : string := "http".
Definition http_end : string := "://".

Section Library.

(** [tolower] of [<cctype>] is library code and depends on the locale.
    [tolower n] is [None] where the call is undefined: [n] is neither [EOF]
    nor the value of an [unsigned char]. *)
Variable tolower : Z -> option Z.

(** Whether plain [char] is signed is up to the implementation. *)
Variable char_signed : bool.

(** The conversion of a [char] to [int]. *)
Definition to_int (c : ascii) : Z :=
  let n := Z.of_nat (nat_of_ascii c) in
  if char_signed && (128 <=? n)%Z then (n - 256)%Z else n.

Definition call_tolower (n : Z) : outcome Z :=
  match tolower n with
  | Some r => Returns r
  | None => Undefined
  end.

(** The loop of [parse_url] (lines 711-735), from the test [i < strlen] on.
    The result is what the function returns, with [base] and [url] as they
    are left. *)
Fixpoint url_loop (fuel : nat) (base url : string) (strlen i offs : nat)
  : outcome (bool * string * string) :=
  if negb (i <? strlen)%nat then Returns (false, base, url)
  else
    match fuel with
    | 0 => OutOfFuel
    | S fuel' =>
      if (2 + offs <? i)%nat then
        match find "/" base i with
        | Some base_end =>
          url' ← substr base base_end None;
          base' ← substr base 0 (Some base_end);
          Returns (true, base', url')
        | None => Returns (true, base, url)
        end
      else if (3 <? i)%nat then
        c ← elem_at base i;
        l ← call_tolower (to_int c);
        e ← (if (i <? offs)%nat then Undefined
             else elem_at http_end (i - offs));
        if negb (l =? to_int e)%Z then Returns (false, base, url)
        else url_loop fuel' base url strlen (S i) offs
      else
        c ← elem_at base i;
        l ← call_tolower (to_int c);
        e ← elem_at http_base i;
        if negb (l =? to_int e)%Z then Returns (false, base, url)
        else if (i =? 3)%nat then
          c4 ← elem_at base 4;
          t ← call_tolower (if ascii_eqb c4 "s" then 1 else 0)%Z;
          if negb (t =? 0)%Z
          then url_loop fuel' base url strlen (S (S i)) (S offs)
          else url_loop fuel' base url strlen (S i) offs
        else url_loop fuel' base url strlen (S i) offs
    end.

(** [parse_url(base, url)]: every round moves [i] forward, so [strlen]
    rounds are enough. *)
Definition parse_url (base url : string) : outcome (bool * string * string) :=
  url_loop (String.length base) base url (String.length base) 0 4.

End Library.

(** [tolower] in the C locale, for a [char] of either signedness. *)
Definition tolower_C (n : Z) : option Z :=
  if (n =? -1)%Z then Some n
  else if ((n <? 0) || (255 <? n))%Z then None
  else if ((65 <=? n) && (n <=? 90))%Z then Some (n + 32)%Z
  else Some n.

End ParseUrl.

(** ** Instances of the library code

    Concrete functions that meet the contracts above: they show that the
    contracts can be met, and serve where a statement is evaluated. *)

Module Instances.
Import ICD10.

(** [a.code <= b.code], the order [std::sort] leaves the records in. *)
Definition code_le (a b : ICDCode) : Prop := String.le (code a) (code b).

Global Instance code_le_dec : RelDecision code_le.
Proof. intros a b. unfold code_le. apply _. Defined.

Global Instance code_le_trans : Transitive code_le.
Proof. intros a b c. unfold code_le. apply transitivity. Qed.

Global Instance code_le_total : Total code_le.
Proof. intros a b. unfold code_le. apply total, _. Qed.

Lemma comp_false_iff_le (a b : ICDCode) :
  comp_icdcode b a = false <-> code_le a b.
Proof.
  unfold comp_icdcode, code_le, String.le, String.ltb, String.leb.
  rewrite (String.compare_antisym (code a) (code b)).
  destruct (String.compare (code b) (code a)); simpl; intuition (auto; congruence).
Qed.

Lemma StronglySorted_lookup_lt {A : Type} (R : relation A) (l : list A) :
  StronglySorted R l ->
  forall (i j : nat) a b,
    (i < j)%nat -> l !! i = Some a -> l !! j = Some b -> R a b.
Proof.
  induction 1 as [|x l Hs IH Hall]; intros i j a b Hij Ha Hb.
  - rewrite lookup_nil in Ha. discriminate.
  - destruct j as [|j]; [lia|]. simpl in Hb.
    destruct i as [|i]; simpl in Ha.
    + injection Ha as <-. rewrite Forall_forall in Hall.
      apply Hall. eapply list_elem_of_lookup_2. exact Hb.
    + apply (IH i j); auto with lia.
Qed.

(** Merge sort as [std::sort]. *)
Definition merge_sort_codes (l : list ICDCode) : list ICDCode :=
  merge_sort code_le l.

Lemma merge_sort_codes_sorted l (i j : nat) a b :
  (i < j)%nat -> merge_sort_codes l !! i = Some a ->
  merge_sort_codes l !! j = Some b -> comp_icdcode b a = false.
Proof.
  intros Hij Ha Hb. apply comp_false_iff_le.
  eapply (StronglySorted_lookup_lt code_le); eauto.
  apply StronglySorted_merge_sort; apply _.
Qed.

Definition std_sort_merge : StdSort :=
  mkStdSort merge_sort_codes (merge_sort_Permutation code_le)
            merge_sort_codes_sorted.

(** Another function within the contract of [std::sort]: merge sort of the
    range read backwards. *)
Definition merge_sort_rev (l : list ICDCode) : list ICDCode :=
  merge_sort code_le (reverse l).

Lemma merge_sort_rev_permutation l : merge_sort_rev l ≡ₚ l.
Proof.
  unfold merge_sort_rev. rewrite merge_sort_Permutation.
  apply reverse_Permutation.
Qed.

Lemma merge_sort_rev_sorted l (i j : nat) a b :
  (i < j)%nat -> merge_sort_rev l !! i = Some a ->
  merge_sort_rev l !! j = Some b -> comp_icdcode b a = false.
Proof. apply merge_sort_codes_sorted. Qed.

Definition std_sort_rev : StdSort :=
  mkStdSort merge_sort_rev merge_sort_rev_permutation merge_sort_rev_sorted.

(** [strftime] in the C locale, for the conversions the program uses. *)
Definition digit (z : Z) : ascii := ascii_of_nat (48 + Z.to_nat (z mod 10)).

Definition two_digits (z : Z) : string :=
  String (digit (z / 10)) (String (digit z) "").

Definition month_abbr (m : Z) : string :=
  nth (Z.to_nat m)
    ["Jan"; "Feb"; "Mar"; "Apr"; "May"; "Jun"; "Jul"; "Aug"; "Sep"; "Oct";
     "Nov"; "Dec"] "?".

Definition conversion (c : ascii) (t : tm) : string :=
  if ascii_eqb c "d" then two_digits (tm_mday t)
  else if ascii_eqb c "b" then month_abbr (tm_mon t)
  else if ascii_eqb c "Y" then to_string (tm_year t + 1900)
  else if ascii_eqb c "I" then
    two_digits (if (tm_hour t mod 12 =? 0)%Z then 12 else tm_hour t mod 12)
  else if ascii_eqb c "M" then two_digits (tm_min t)
  else if ascii_eqb c "p" then (if (tm_hour t <? 12)%Z then "AM" else "PM")
  else String c "".

Fixpoint format_C (fmt : string) (t : tm) : string :=
  match fmt with
  | "" => ""
  | String c fmt' =>
    if ascii_eqb c "%" then
      match fmt' with
      | "" => ""
      | String d fmt'' => conversion d t +:+ format_C fmt'' t
      end
    else String c (format_C fmt' t)
  end.

Fixpoint nuls (n : nat) : string :=
  match n with
  | 0 => ""
  | S n' => String NUL (nuls n')
  end.

(** The array after the call: the formatted text and NULs up to [maxsize];
    when the text does not fit the array is left as it was, all NUL. *)
Definition strftime_C (maxsize : nat) (fmt : string) (t : tm) : string :=
  let text := format_C fmt t in
  if (String.length text <? maxsize)%nat
  then text +:+ nuls (maxsize - String.length text)
  else nuls maxsize.

End Instances.

(** ** [std::sort] as libstdc++ implements it

    The introsort of [bits/stl_algo.h] and the heap functions of
    [bits/stl_heap.h] (GCC 12), on a range held as a list and addressed by
    index. A loop that the library bounds by a sentinel is bounded here by
    the length of the range as well. *)

Module Introsort.

Local Open Scope nat_scope.

Section Sort.

Context {A : Type} (d : A) (comp : A -> A -> bool).

(** [*(first + i)] and [*(first + i) = x] on the whole range. *)
Definition elem (a : list A) (i : nat) : A := nth i a d.

Definition iter_swap (a : list A) (i j : nat) : list A :=
  <[j := elem a i]> (<[i := elem a j]> a).

Definition move_median_to_first (a : list A) (result x y z : nat) : list A :=
  if comp (elem a x) (elem a y) then
    if comp (elem a y) (elem a z) then iter_swap a result y
    else if comp (elem a x) (elem a z) then iter_swap a result z
    else iter_swap a result x
  else if comp (elem a x) (elem a z) then iter_swap a result x
  else if comp (elem a y) (elem a z) then iter_swap a result z
  else iter_swap a result y.

(** [while (comp(first, pivot)) ++first;] *)
Fixpoint partition_up (fuel : nat) (a : list A) (pivot first : nat) : nat :=
  match fuel with
  | 0 => first
  | S fuel' =>
    if comp (elem a first) (elem a pivot)
    then partition_up fuel' a pivot (S first) else first
  end.

(** [while (comp(pivot, last)) --last;] *)
Fixpoint partition_down (a : list A) (pivot last : nat) : nat :=
  match last with
  | 0 => 0
  | S last' =>
    if comp (elem a pivot) (elem a last)
    then partition_down a pivot last' else last
  end.

Fixpoint unguarded_partition (fuel : nat) (a : list A) (first last pivot : nat)
  : list A * nat :=
  match fuel with
  | 0 => (a, first)
  | S fuel' =>
    let first := partition_up (length a) a pivot first in
    let last := partition_down a pivot (last - 1) in
    if negb (first <? last) then (a, first)
    else unguarded_partition fuel' (iter_swap a first last) (S first) last pivot
  end.

Definition unguarded_partition_pivot (a : list A) (first last : nat)
  : list A * nat :=
  let mid := first + (last - first) / 2 in
  let a := move_median_to_first a first (first + 1) mid (last - 1) in
  unguarded_partition (length a) a (first + 1) last first.

(** [__push_heap]: the hole moves up while the parent is less than the
    value. *)
Fixpoint push_heap (fuel : nat) (a : list A) (first holeIndex topIndex : nat)
    (value : A) : list A :=
  let parent := (holeIndex - 1) / 2 in
  match fuel with
  | 0 => <[first + holeIndex := value]> a
  | S fuel' =>
    if (topIndex <? holeIndex) && comp (elem a (first + parent)) value then
      push_heap fuel' (<[first + holeIndex := elem a (first + parent)]> a)
        first parent topIndex value
    else <[first + holeIndex := value]> a
  end.

(** The first loop of [__adjust_heap]: the hole moves down to the larger
    child. The result is the range, the hole and the second child. *)
Fixpoint adjust_down (fuel : nat) (a : list A) (first holeIndex len secondChild : nat)
  : list A * nat * nat :=
  match fuel with
  | 0 => (a, holeIndex, secondChild)
  | S fuel' =>
    if secondChild <? (len - 1) / 2 then
      let secondChild := 2 * (secondChild + 1) in
      let secondChild :=
        if comp (elem a (first + secondChild)) (elem a (first + (secondChild - 1)))
        then secondChild - 1 else secondChild in
      adjust_down fuel' (<[first + holeIndex := elem a (first + secondChild)]> a)
        first secondChild len secondChild
    else (a, holeIndex, secondChild)
  end.

Definition adjust_heap (a : list A) (first holeIndex len : nat) (value : A)
  : list A :=
  let topIndex := holeIndex in
  let '(a, holeIndex, secondChild) :=
    adjust_down len a first holeIndex len holeIndex in
  let '(a, holeIndex) :=
    if Nat.even len && (secondChild =? (len - 2) / 2) then
      let secondChild := 2 * (secondChild + 1) in
      (<[first + holeIndex := elem a (first + (secondChild - 1))]> a,
       secondChild - 1)
    else (a, holeIndex) in
  push_heap len a first holeIndex topIndex value.

Definition pop_heap (a : list A) (first last result : nat) : list A :=
  let value := elem a result in
  let a := <[result := elem a first]> a in
  adjust_heap a first 0 (last - first) value.

(** The loop of [__make_heap], from [parent] down to 0. *)
Fixpoint make_heap_from (a : list A) (first len parent : nat) : list A :=
  let a := adjust_heap a first parent len (elem a (first + parent)) in
  match parent with
  | 0 => a
  | S parent' => make_heap_from a first len parent'
  end.

Definition make_heap (a : list A) (first last : nat) : list A :=
  if last - first <? 2 then a
  else make_heap_from a first (last - first) ((last - first - 2) / 2).

(** The loop of [__heap_select] over [middle, last). *)
Fixpoint heap_select_loop (n : nat) (a : list A) (first middle i : nat) : list A :=
  match n with
  | 0 => a
  | S n' =>
    let a := if comp (elem a i) (elem a first) then pop_heap a first middle i
             else a in
    heap_select_loop n' a first middle (S i)
  end.

Definition heap_select (a : list A) (first middle last : nat) : list A :=
  heap_select_loop (last - middle) (make_heap a first middle) first middle middle.

(** [while (last - first > 1) { --last; pop_heap(first, last, last); }] *)
Fixpoint sort_heap_loop (n : nat) (a : list A) (first last : nat) : list A :=
  match n with
  | 0 => a
  | S n' =>
    if 1 <? last - first
    then sort_heap_loop n' (pop_heap a first (last - 1) (last - 1)) first (last - 1)
    else a
  end.

Definition sort_heap (a : list A) (first last : nat) : list A :=
  sort_heap_loop (last - first) a first last.

Definition partial_sort (a : list A) (first middle last : nat) : list A :=
  sort_heap (heap_select a first middle last) first middle.

Definition S_threshold : nat := 16.

(** [__introsort_loop]: every round takes one off [depth_limit]. *)
Fixpoint introsort_loop (depth_limit : nat) (a : list A) (first last : nat)
  : list A :=
  if S_threshold <? last - first then
    match depth_limit with
    | 0 => partial_sort a first last last
    | S depth_limit' =>
      let '(a, cut) := unguarded_partition_pivot a first last in
      let a := introsort_loop depth_limit' a cut last in
      introsort_loop depth_limit' a first cut
    end
  else a.

(** [__unguarded_linear_insert], from the comparison with [next] on. *)
Fixpoint linear_insert_from (a : list A) (val : A) (last : nat) : list A :=
  match last with
  | 0 => <[last := val]> a
  | S next =>
    if comp val (elem a next)
    then linear_insert_from (<[last := elem a next]> a) val next
    else <[last := val]> a
  end.

Definition unguarded_linear_insert (a : list A) (last : nat) : list A :=
  linear_insert_from a (elem a last) last.

(** [std::move_backward(first, i, i + 1)], the last element first. *)
Fixpoint move_backward (n : nat) (a : list A) (i : nat) : list A :=
  match n with
  | 0 => a
  | S n' => move_backward n' (<[i := elem a (i - 1)]> a) (i - 1)
  end.

(** The loop of [__insertion_sort] over [i, last). *)
Fixpoint insertion_sort_loop (n : nat) (a : list A) (first i : nat) : list A :=
  match n with
  | 0 => a
  | S n' =>
    let a :=
      if comp (elem a i) (elem a first) then
        let val := elem a i in
        <[first := val]> (move_backward (i - first) a i)
      else unguarded_linear_insert a i in
    insertion_sort_loop n' a first (S i)
  end.

Definition insertion_sort (a : list A) (first last : nat) : list A :=
  if first =? last then a
  else insertion_sort_loop (last - (first + 1)) a first (first + 1).

Fixpoint unguarded_insertion_sort_loop (n : nat) (a : list A) (i : nat) : list A :=
  match n with
  | 0 => a
  | S n' => unguarded_insertion_sort_loop n' (unguarded_linear_insert a i) (S i)
  end.

Definition unguarded_insertion_sort (a : list A) (first last : nat) : list A :=
  unguarded_insertion_sort_loop (last - first) a first.

Definition final_insertion_sort (a : list A) (first last : nat) : list A :=
  if S_threshold <? last - first then
    unguarded_insertion_sort
      (insertion_sort a first (first + S_threshold)) (first + S_threshold) last
  else insertion_sort a first last.

(** [std::sort(a.begin(), a.end(), comp)] *)
Definition sort (a : list A) : list A :=
  let first := 0 in
  let last := length a in
  if first =? last then a
  else
    final_insertion_sort
      (introsort_loop (Nat.log2 (last - first) * 2) a first last) first last.

End Sort.

End Introsort.

(** ** The sort of libstdc++ as an instance of the contract *)

Module LibstdcxxSort.
Import ICD10 Instances.

#[global] Instance ICDCode_eq_dec : EqDecision ICDCode.
Proof. solve_decision. Defined.

(** [std::sort(codes.begin(), codes.end(), comp_icdcode)] in libstdc++. *)
Definition introsort_codes (l : list ICDCode) : list ICDCode :=
  Introsort.sort ICDCode_empty comp_icdcode l.

(** The same, with the result checked against the contract of [std::sort];
    the merge sort stands in should the check ever fail. *)
Definition checked_introsort (l : list ICDCode) : list ICDCode :=
  let r := introsort_codes l in
  if decide (r ≡ₚ l /\ StronglySorted code_le r) then r
  else merge_sort_codes l.

Lemma checked_introsort_permutation l : checked_introsort l ≡ₚ l.
Proof.
  unfold checked_introsort. case_decide as H; [apply H|].
  apply (merge_sort_Permutation code_le).
Qed.

Lemma checked_introsort_sorted l (i j : nat) a b :
  (i < j)%nat -> checked_introsort l !! i = Some a ->
  checked_introsort l !! j = Some b -> comp_icdcode b a = false.
Proof.
  unfold checked_introsort. case_decide as H; [|apply merge_sort_codes_sorted].
  intros Hij Ha Hb. apply comp_false_iff_le.
  eapply (StronglySorted_lookup_lt code_le); [apply H|..]; eauto.
Qed.

Definition std_sort_libstdcxx : StdSort :=
  mkStdSort checked_introsort checked_introsort_permutation
            checked_introsort_sorted.

End LibstdcxxSort.

(** ** Facts on results and strings *)

Lemma bind_Ok {A B : Type} (r : result A) (k : A -> result B) (b : B) :
  (r ≫= k) = Ok b -> exists a, r = Ok a /\ k a = Ok b.
Proof. destruct r as [a|f]; [eauto|discriminate]. Qed.

Lemma bind_Fail {A B : Type} (r : result A) (k : A -> result B) (f : failure) :
  (r ≫= k) = Fail f -> r = Fail f \/ exists a, r = Ok a /\ k a = Fail f.
Proof. destruct r as [a|g]; [eauto|]. intros [= ->]. by left. Qed.

Lemma app_String (c : ascii) (s t : string) :
  String c s +:+ t = String c (s +:+ t).
Proof. reflexivity. Qed.

Lemma app_empty_l (s : string) : "" +:+ s = s.
Proof. reflexivity. Qed.

Lemma app_empty_r (s : string) : s +:+ "" = s.
Proof. induction s as [|c s IH]; [reflexivity|]. rewrite app_String. by f_equal. Qed.

Lemma app_assoc_string (s t u : string) : (s +:+ t) +:+ u = s +:+ (t +:+ u).
Proof.
  induction s as [|c s IH]; [reflexivity|].
  rewrite !app_String. by f_equal.
Qed.

Lemma length_app_string (s t : string) :
  String.length (s +:+ t) = (String.length s + String.length t)%nat.
Proof.
  induction s as [|c s IH]; [reflexivity|].
  rewrite app_String. simpl. by f_equal.
Qed.

Lemma back_push_back (s : string) (c : ascii) : back (push_back s c) = Some c.
Proof.
  unfold push_back. induction s as [|d s IH]; [reflexivity|].
  rewrite app_String. simpl. rewrite IH.
  destruct s; reflexivity.
Qed.

Lemma pop_back_push_back (s : string) (c : ascii) : pop_back (push_back s c) = s.
Proof.
  unfold push_back. induction s as [|d s IH]; [reflexivity|].
  rewrite app_String. simpl. rewrite IH.
  destruct s; reflexivity.
Qed.

Lemma length_push_back (s : string) (c : ascii) :
  String.length (push_back s c) = S (String.length s).
Proof. unfold push_back. rewrite length_app_string. simpl. lia. Qed.

Lemma back_Some_length (s : string) (c : ascii) :
  back s = Some c -> String.length s = S (String.length (pop_back s)).
Proof.
  induction s as [|d s IH]; [discriminate|].
  destruct s as [|e s]; [reflexivity|].
  intros H. simpl in *. f_equal. by apply IH.
Qed.

(** ** Facts on the order-file parser and the generator *)

Module ICD10Facts.
Import ICD10.

(** A failure that stands for an undefined operation of the C++ program. *)
Definition undefined (f : failure) : Prop :=
  match f with
  | ub_index _ _ | ub_back_empty => True
  | _ => False
  end.

(** *** Sample blobs *)

Fixpoint spaces (n : nat) : string :=
  match n with
  | 0 => ""
  | S n' => String SPACE (spaces n')
  end.

Definition pad (n : nat) (s : string) : string :=
  s +:+ spaces (n - String.length s).

(** A line of the order file: five digits, a blank, the code in eight
    columns, the flag at column 14, a blank, the short description up to
    column 76, the long description from column 77 on, the line end. *)
Definition order_line (seq cd flag short long eol : string) : string :=
  seq +:+ " " +:+ pad 8 cd +:+ flag +:+ " " +:+ pad 61 short +:+ long +:+ eol.

Definition eol_lf : string := String LF "".
Definition eol_crlf : string := String CR (String LF "").

(** Two kept lines, out of order. *)
Definition blob_unsorted : string :=
  order_line "00001" "B000" "1" "Typhoid" "Typhoid fever" eol_crlf
  +:+ order_line "00002" "A00" "1" "Cholera" "Cholera" eol_crlf.

(** Two kept lines with the same code. *)
Definition blob_same_code : string :=
  order_line "00001" "A00" "1" "Cholera" "first" eol_lf
  +:+ order_line "00002" "A00" "1" "Cholera" "second" eol_lf.

(** Lines that are kept and hold the same code, one for each description. *)
Definition equal_code_lines (descs : list string) : string :=
  foldr (fun d acc => order_line "00001" "A00" "1" "Cholera" d eol_lf +:+ acc)
        "" descs.

Definition twenty_names : list string :=
  ["d01"; "d02"; "d03"; "d04"; "d05"; "d06"; "d07"; "d08"; "d09"; "d10";
   "d11"; "d12"; "d13"; "d14"; "d15"; "d16"; "d17"; "d18"; "d19"; "d20"].

(** Twenty kept lines with the same code. *)
Definition blob_twenty_equal : string := equal_code_lines twenty_names.

(** The order in which libstdc++ leaves twenty equal records. *)
Definition twenty_names_sorted : list string :=
  ["d11"; "d20"; "d19"; "d18"; "d17"; "d16"; "d15"; "d14"; "d13"; "d12";
   "d01"; "d10"; "d09"; "d08"; "d07"; "d06"; "d05"; "d04"; "d03"; "d02"].

(** A kept line followed by a line that ends before column 14. *)
Definition blob_short_line : string :=
  order_line "00001" "A000" "1" "Cholera" "Cholera due to Vibrio" eol_lf
  +:+ "00002 B99" +:+ eol_lf.

(** A blob cut off inside the code columns. *)
Definition blob_truncated : string := "00001 A ".

(** A kept line whose long description is missing. *)
Definition blob_no_description : string :=
  order_line "00001" "A000" "1" "Cholera" "" eol_lf.

(** Records with equal codes are in [out] in the order they have in
    [scanned]. *)
Definition keeps_file_order (scanned out : list ICDCode) : Prop :=
  forall c : string,
    filter (fun r => code r = c) out = filter (fun r => code r = c) scanned.

(** A local time for the header: 3 Nov 2026, 15:07. *)
Definition sample_time : tm := mkTm 5 7 15 3 10 126 2 306 0.

(** *** The loop bound of the model *)

Lemma index_Fail data i f : index data i = Fail f -> undefined f.
Proof.
  unfold index. destruct (String.get i data); [discriminate|].
  destruct (i =? String.length data)%nat; [discriminate|].
  intros [= <-]. exact I.
Qed.

Lemma strip_loop_Fail fuel d f :
  (String.length d <= fuel)%nat -> strip_loop fuel d = Fail f -> undefined f.
Proof.
  revert d. induction fuel as [|fuel IH]; intros d Hlen; simpl.
  - destruct (back d) as [c|] eqn:Hb.
    + apply back_Some_length in Hb. lia.
    + intros [= <-]. exact I.
  - destruct (back d) as [c|] eqn:Hb.
    + destruct (ascii_eqb c SPACE); [|discriminate].
      apply IH. apply back_Some_length in Hb. lia.
    + intros [= <-]. exact I.
Qed.

Lemma loop_columns_Fail data s f : loop_columns data s = Fail f -> undefined f.
Proof.
  destruct s as [i col hipaa cd codes]. unfold loop_columns.
  intros [H|(c & _ & H)]%bind_Fail; [by eapply index_Fail|].
  repeat case_match; try discriminate.
  apply bind_Fail in H as [H|(d & _ & H)]; [|discriminate].
  eapply strip_loop_Fail; [|exact H]. done.
Qed.

Lemma loop_columns_i data s s' :
  loop_columns data s = Ok s' -> (st_i s <= st_i s')%nat.
Proof.
  destruct s as [i col hipaa cd codes]. unfold loop_columns.
  intros (c & _ & H)%bind_Ok.
  repeat case_match; simplify_eq/=; try lia.
  apply bind_Ok in H as (d & _ & [= <-]). simpl. lia.
Qed.

Lemma loop_eol_Fail data s f : loop_eol data s = Fail f -> undefined f.
Proof.
  destruct s as [i col hipaa cd codes]. unfold loop_eol.
  intros [H|(c & _ & H)]%bind_Fail; [by eapply index_Fail|].
  destruct (is_eol c); [|discriminate].
  apply bind_Fail in H as [H|(d & _ & H)]; [|discriminate].
  destruct (ascii_eqb c CR); [|discriminate].
  apply bind_Fail in H as [H|(d & _ & H)]; [by eapply index_Fail|discriminate].
Qed.

Lemma loop_eol_i data s s' :
  loop_eol data s = Ok s' -> (st_i s <= st_i s')%nat.
Proof.
  destruct s as [i col hipaa cd codes]. unfold loop_eol.
  intros (c & _ & H)%bind_Ok.
  destruct (is_eol c); [|by simplify_eq/=].
  apply bind_Ok in H as (i1 & Hi1 & [= <-]). simpl.
  destruct (ascii_eqb c CR).
  - apply bind_Ok in Hi1 as (c1 & _ & [= <-]). case_match; lia.
  - simplify_eq/=. lia.
Qed.

(** The loop bound of the model is never met: a failure of the scan is an
    undefined operation of the program. *)
Lemma scan_loop_Fail fuel data s f :
  (String.length data <= st_i s + fuel)%nat ->
  scan_loop fuel data s = Fail f -> undefined f.
Proof.
  revert s. induction fuel as [|fuel IH]; intros s Hlen; simpl.
  - destruct (String.length data <=? st_i s)%nat eqn:Hle; [discriminate|].
    apply Nat.leb_gt in Hle. lia.
  - destruct (String.length data <=? st_i s)%nat eqn:Hle; [discriminate|].
    intros [H|(s' & Hs' & H)]%bind_Fail.
    + unfold loop_body in H.
      apply bind_Fail in H as [H|(s1 & _ & H)];
        eauto using loop_columns_Fail, loop_eol_Fail.
    + eapply IH; [|exact H]. simpl.
      unfold loop_body in Hs'. apply bind_Ok in Hs' as (s1 & H1 & H2).
      apply loop_columns_i in H1. apply loop_eol_i in H2. lia.
Qed.

Lemma scan_codes_Fail data codes f :
  scan_codes data codes = Fail f -> undefined f.
Proof. apply scan_loop_Fail. simpl. lia. Qed.

Lemma parse_codes_Fail sorter data codes f :
  parse_codes sorter data codes = Fail f -> undefined f.
Proof.
  unfold parse_codes.
  intros [H|(l & _ & H)]%bind_Fail; [by eapply scan_codes_Fail|discriminate].
Qed.

(** *** The parser *)

(** C2 (the code falls short of the claim). The scan of a blob that is cut
    off inside the code columns jumps to column 13 and reads [data[13]]
    beyond the end of the 8 bytes; the scan of a kept line without a long
    description calls [back()] on the empty description. Both are undefined
    operations: the parser is not total over every byte sequence. *)
Theorem parse_codes_undefined_on_truncated (sorter : StdSort) :
  parse_codes sorter blob_truncated [] = Fail (ub_index 13 8) /\
  parse_codes sorter blob_no_description [] = Fail ub_back_empty.
Proof. split; reflexivity. Qed.

(** C4 (the code falls short of the claim). The flag is not reset at a line
    end: after a kept line, a line that ends before column 14 is pushed as a
    record of its own, its line end copied into the code. *)
Theorem parse_codes_short_line_kept (sorter : StdSort) :
  scan_codes blob_short_line [] =
    Ok [mkICDCode "A000" "A00.0" "Cholera due to Vibrio";
        mkICDCode ("B99" +:+ eol_lf) ("B99." +:+ eol_lf) ""] /\
  exists codes,
    parse_codes sorter blob_short_line [] = Ok codes /\ length codes = 2%nat /\
    mkICDCode ("B99" +:+ eol_lf) ("B99." +:+ eol_lf) "" ∈ codes.
Proof.
  assert (Hscan : scan_codes blob_short_line [] =
    Ok [mkICDCode "A000" "A00.0" "Cholera due to Vibrio";
        mkICDCode ("B99" +:+ eol_lf) ("B99." +:+ eol_lf) ""])
    by (vm_compute; reflexivity).
  split; [exact Hscan|].
  unfold parse_codes. rewrite Hscan. simpl.
  eexists. split; [reflexivity|].
  pose proof (sort_permutation sorter
    [mkICDCode "A000" "A00.0" "Cholera due to Vibrio";
     mkICDCode ("B99" +:+ eol_lf) ("B99." +:+ eol_lf) ""]) as Hp.
  split.
  - by rewrite Hp.
  - rewrite Hp. apply list_elem_of_further, list_elem_of_here.
Qed.

(** C5, as amended. The collection the parser returns is sorted ascending by
    code: [records[i].code <= records[i+1].code] for every [i] with
    [i + 1 < len], whatever function within the contract of [std::sort] does
    the sorting. The relative order of records with equal codes is not
    fixed. *)
Theorem parse_codes_sorted (sorter : StdSort) (data : string)
    (codes records : list ICDCode) (i : nat) (a b : ICDCode) :
  parse_codes sorter data codes = Ok records ->
  records !! i = Some a -> records !! (i + 1)%nat = Some b ->
  String.leb (code a) (code b) = true.
Proof.
  unfold parse_codes. intros (scanned & _ & [= <-])%bind_Ok Ha Hb.
  assert (Hle : Instances.code_le a b).
  { apply Instances.comp_false_iff_le.
    apply (sort_sorted sorter scanned i (i + 1)); auto with lia. }
  unfold Instances.code_le, String.le in Hle. by apply Is_true_true.
Qed.

Lemma parse_codes_sorted_witness :
  parse_codes Instances.std_sort_merge blob_unsorted [] =
    Ok [mkICDCode "A00" "A00" "Cholera";
        mkICDCode "B000" "B00.0" "Typhoid fever"] /\
  String.leb "A00" "B000" = true.
Proof.
  split; [vm_compute; reflexivity|].
  apply (parse_codes_sorted Instances.std_sort_merge blob_unsorted []
           [mkICDCode "A00" "A00" "Cholera";
            mkICDCode "B000" "B00.0" "Typhoid fever"] 0
           (mkICDCode "A00" "A00" "Cholera")
           (mkICDCode "B000" "B00.0" "Typhoid fever"));
    vm_compute; reflexivity.
Defined.

(** C5, as stated, fails. [blob_twenty_equal] holds twenty kept lines with
    the code A00 and the descriptions d01 to d20, and the scan collects the
    twenty records in file order. No comparison of two of them is true, and
    [std::sort] of libstdc++ goes as follows. There are more than 16
    elements, so [__introsort_loop] partitions once:
    [__move_median_to_first] swaps the first element with the middle one
    (d11 comes first), and [__unguarded_partition] swaps the elements at 1
    and 19, at 2 and 18, and so on to 9 and 11, and cuts at 10. Both parts
    have 10 elements and are left to [__final_insertion_sort], which moves
    nothing. The records with the same code come out in another order than
    they have in the file. *)
Lemma parse_codes_not_stable :
  scan_codes blob_twenty_equal [] =
    Ok (map (mkICDCode "A00" "A00") twenty_names) /\
  Introsort.sort ICDCode_empty comp_icdcode
    (map (mkICDCode "A00" "A00") twenty_names) =
    map (mkICDCode "A00" "A00") twenty_names_sorted /\
  parse_codes LibstdcxxSort.std_sort_libstdcxx blob_twenty_equal [] =
    Ok (map (mkICDCode "A00" "A00") twenty_names_sorted) /\
  ~ keeps_file_order (map (mkICDCode "A00" "A00") twenty_names)
      (map (mkICDCode "A00" "A00") twenty_names_sorted) /\
  ~ (forall (sorter : StdSort) (data : string) (scanned records : list ICDCode),
       scan_codes data [] = Ok scanned ->
       parse_codes sorter data [] = Ok records ->
       keeps_file_order scanned records).
Proof.
  assert (Hscan : scan_codes blob_twenty_equal [] =
                  Ok (map (mkICDCode "A00" "A00") twenty_names))
    by (vm_compute; reflexivity).
  assert (Hparse :
    parse_codes LibstdcxxSort.std_sort_libstdcxx blob_twenty_equal [] =
    Ok (map (mkICDCode "A00" "A00") twenty_names_sorted))
    by (vm_compute; reflexivity).
  assert (Hno : ~ keeps_file_order (map (mkICDCode "A00" "A00") twenty_names)
                  (map (mkICDCode "A00" "A00") twenty_names_sorted)).
  { intros H. specialize (H "A00"). vm_compute in H. discriminate H. }
  split; [exact Hscan|]. split; [vm_compute; reflexivity|].
  split; [exact Hparse|]. split; [exact Hno|].
  intros H. exact (Hno (H _ _ _ _ Hscan Hparse)).
Qed.

(** *** The generator *)

Section GeneratorFacts.

Variable strftime : nat -> string -> tm -> string.

(** With the header bit set the buffer is cleared first: what it held
    before the call does not matter. *)
Lemma gen_go_file_header_clears (outp : string) codes year timestamp dj
    (bitmask : Z) :
  has_bit bitmask 4 = true ->
  gen_go_file strftime outp codes year timestamp dj bitmask =
  gen_go_file strftime "" codes year timestamp dj bitmask.
Proof. intros Hb. unfold gen_go_file. by rewrite Hb. Qed.

(** The records are appended to what the buffer holds. *)
Lemma fold_record_lines_app (bitmask : Z) codes (outp : string) :
  fold_left (record_lines bitmask) codes outp =
  outp +:+ fold_left (record_lines bitmask) codes "".
Proof.
  revert outp. induction codes as [|it codes IH]; intros outp; simpl.
  - by rewrite app_empty_r.
  - rewrite IH, (IH (record_lines bitmask "" it)).
    rewrite <- app_assoc_string. f_equal.
    unfold record_lines, push_back.
    destruct (negb (has_bit bitmask 1)); simpl;
      by rewrite ?app_assoc_string.
Qed.

(** C1, as amended. The combined buffer is the non-decimal rendering with
    the header and without the ending newlines (bitmask 4), immediately
    followed by the decimal rendering without the header and with the ending
    newlines (bitmask 3), each generated into an empty buffer; what [comb]
    held before the call is gone. Byte for byte: the non-decimal header, the
    non-decimal lines of every record, the decimal lines of every record,
    two newlines, and nothing else at the seam. *)
Theorem gen_files_combined (codes : list ICDCode) (year dec ndec comb : string)
    (ltim : tm) (days : Z) :
  (gen_files strftime codes year dec ndec comb ltim days).2 =
  gen_go_file strftime "" codes year ltim (to_string (days - 7182)) 4
  +:+ gen_go_file strftime "" codes year ltim (to_string (days - 7182)) 3 /\
  (gen_files strftime codes year dec ndec comb ltim days).2 =
  header strftime year ltim (to_string (days - 7182)) 4
  +:+ fold_left (record_lines 4) codes ""
  +:+ fold_left (record_lines 3) codes ""
  +:+ String LF (String LF "").
Proof.
  assert (H : (gen_files strftime codes year dec ndec comb ltim days).2 =
    gen_go_file strftime "" codes year ltim (to_string (days - 7182)) 4
    +:+ gen_go_file strftime "" codes year ltim (to_string (days - 7182)) 3).
  { unfold gen_files. cbn [snd].
    by rewrite (gen_go_file_header_clears comb). }
  split; [exact H|]. rewrite H. unfold gen_go_file.
  change (has_bit 4 4) with true. change (has_bit 4 2) with false.
  change (has_bit 3 4) with false. change (has_bit 3 2) with true.
  cbn iota. rewrite (fold_record_lines_app 4 codes (header _ _ _ _ _)).
  by rewrite !app_assoc_string.
Qed.

End GeneratorFacts.

(** C1, as stated, fails: on one record the combined buffer differs from the
    decimal rendering with the header only (bitmask 5) followed by the
    non-decimal rendering with the ending newlines only (bitmask 2); the
    combined buffer opens the non-decimal block and ends with the decimal
    record. *)
Lemma gen_files_combined_not_decimal_first :
  (gen_files Instances.strftime_C [mkICDCode "A000" "A00.0" "Cholera"] "2027"
     "" "" "" sample_time 20760).2 <>
  gen_go_file Instances.strftime_C "" [mkICDCode "A000" "A00.0" "Cholera"]
    "2027" sample_time (to_string (20760 - 7182)) 5
  +:+ gen_go_file Instances.strftime_C "" [mkICDCode "A000" "A00.0" "Cholera"]
        "2027" sample_time (to_string (20760 - 7182)) 2.
Proof. vm_compute. discriminate. Qed.

(** *** One fixed-width line *)

Lemma length_spaces (n : nat) : String.length (spaces n) = n.
Proof. induction n as [|n IH]; simpl; auto. Qed.

Lemma spaces_snoc (n : nat) : spaces (S n) = push_back (spaces n) SPACE.
Proof.
  unfold push_back. induction n as [|n IH]; [reflexivity|].
  change (spaces (S (S n))) with (String SPACE (spaces (S n))).
  change (spaces (S n) +:+ String SPACE "")
    with (String SPACE (spaces n +:+ String SPACE "")).
  by f_equal.
Qed.

Lemma get_spaces_app_lt (n k : nat) (s : string) :
  (k < n)%nat -> String.get k (spaces n +:+ s) = Some SPACE.
Proof.
  revert k. induction n as [|n IH]; intros k Hk; [lia|].
  change (spaces (S n) +:+ s) with (String SPACE (spaces n +:+ s)).
  destruct k as [|k]; [reflexivity|]. simpl. apply IH. lia.
Qed.

Lemma get_spaces_app_ge (n k : nat) (s : string) :
  String.get (n + k) (spaces n +:+ s) = String.get k s.
Proof. induction n as [|n IH]; [reflexivity|]. exact IH. Qed.

Lemma get_spaces_app_0 (n : nat) (s : string) :
  String.get n (spaces n +:+ s) = String.get 0 s.
Proof. rewrite <- (get_spaces_app_ge n 0 s). f_equal. lia. Qed.

Lemma get_Some_lt (data : string) (i : nat) (c : ascii) :
  String.get i data = Some c -> (i < String.length data)%nat.
Proof.
  revert i. induction data as [|d data IH]; intros i; [by destruct i|].
  destruct i as [|i]; simpl; [lia|].
  intros H%IH. lia.
Qed.

(** The strip loop drops the spaces at the end. *)
Lemma strip_loop_spaces (n fuel : nat) (d : string) :
  strip_loop (n + fuel) (d +:+ spaces n) = strip_loop fuel d.
Proof.
  induction n as [|n IH]; [by rewrite app_empty_r|].
  rewrite spaces_snoc. unfold push_back at 1.
  rewrite <- app_assoc_string.
  change ((d +:+ spaces n) +:+ String SPACE "")
    with (push_back (d +:+ spaces n) SPACE).
  simpl. by rewrite back_push_back, pop_back_push_back.
Qed.

Lemma scan_loop_step (fuel : nat) (data : string) (s s' : scan_state) :
  (st_i s < String.length data)%nat ->
  loop_body data s = Ok s' ->
  scan_loop (S fuel) data s =
  scan_loop fuel data
    (mkState (S (st_i s')) (S (st_col s')) (st_hipaa s') (st_code s')
             (st_codes s')).
Proof.
  intros Hi Hb. simpl.
  apply Nat.leb_gt in Hi. by rewrite Hi, Hb.
Qed.

Lemma scan_loop_end (fuel : nat) (data : string) (s : scan_state) :
  (String.length data <= st_i s)%nat -> scan_loop fuel data s = Ok (st_codes s).
Proof.
  intros Hi. apply Nat.leb_le in Hi. destruct fuel; simpl; by rewrite Hi.
Qed.

(** In the description of a kept line the spaces are copied one by one. *)
Lemma scan_loop_spaces (n : nat) :
  forall (fuel : nat) (data : string) (i col : nat) (cd dc ds : string)
         (codes : list ICDCode),
    (77 <= col)%nat ->
    (forall k : nat, (k < n)%nat -> String.get (i + k) data = Some SPACE) ->
    scan_loop (n + fuel) data (mkState i col "1" (mkICDCode cd dc ds) codes) =
    scan_loop fuel data
      (mkState (i + n) (col + n) "1" (mkICDCode cd dc (ds +:+ spaces n)) codes).
Proof.
  induction n as [|n IH]; intros fuel data i col cd dc ds codes Hcol Hget.
  - by rewrite !Nat.add_0_r, app_empty_r.
  - assert (Hi : String.get i data = Some SPACE).
    { rewrite <- (Nat.add_0_r i). apply Hget. lia. }
    change (S n + fuel)%nat with (S (n + fuel)).
    rewrite (scan_loop_step _ _ _
               (mkState i col "1" (mkICDCode cd dc (push_back ds SPACE)) codes)).
    + cbn [st_i st_col st_hipaa st_code st_codes].
      rewrite IH; [|lia|].
      * replace (S i + n)%nat with (i + S n)%nat by lia.
        replace (S col + n)%nat with (col + S n)%nat by lia.
        unfold push_back. rewrite app_assoc_string. reflexivity.
      * intros k Hk. rewrite Nat.add_succ_comm. apply Hget. lia.
    + cbn [st_i]. by eapply get_Some_lt.
    + unfold loop_body, loop_columns, loop_eol, index. rewrite Hi.
      cbn [mbind result_bind].
      destruct (Nat.leb_spec 6 col); [|lia].
      destruct (Nat.ltb_spec col 14); [lia|].
      destruct (Nat.eqb_spec col 14); [lia|].
      destruct (Nat.leb_spec 77 col); [|lia].
      cbn. rewrite Hi. reflexivity.
Qed.

Ltac explode_string s H :=
  repeat (destruct s as [|? s]; [discriminate H|];
          simpl in H; apply eq_add_S in H);
  destruct s; [clear H|discriminate H].

Ltac scan_step H :=
  erewrite scan_loop_step;
  [|cbn [st_i String.length]; lia
   |unfold loop_body, loop_columns, loop_eol, index; cbn -[is_eol];
    rewrite ?H; cbn; vm_compute; reflexivity];
  cbn [st_i st_col st_hipaa st_code st_codes].

(** The scan of one kept line whose description is Foo and [n] spaces, for
    the code columns written out in the goal. *)
Ltac scan_line n Hlead Hfill H76 Heol :=
  match type of Hlead with String.length ?lead = _ =>
    explode_string lead Hlead
  end;
  match type of Hfill with String.length ?filler = _ =>
    explode_string filler Hfill
  end;
  unfold char_at in H76; cbn [String.get] in H76;
  rewrite !app_String, !app_empty_l;
  unfold scan_codes; cbn [String.length];
  rewrite length_app_string, length_spaces;
  repeat scan_step H76;
  match goal with
  | |- scan_loop ?f _ _ = _ =>
    replace f with (n + S (f - n - 1))%nat by lia
  end;
  rewrite scan_loop_spaces;
  [|lia|intros k Hk; cbn [Nat.add String.get]; by apply get_spaces_app_lt];
  assert (Hstrip : strip_trailing ("Foo" +:+ spaces n) = Ok "Foo")
    by (unfold strip_trailing; rewrite length_app_string, length_spaces;
        rewrite (Nat.add_comm _ n); apply strip_loop_spaces);
  match goal with
  | |- scan_loop _ _ _ = Ok ?r =>
    destruct Heol as [->|[->| ->]];
    [rewrite (scan_loop_step _ _ _
                (mkState (80 + n + 6) 5 "1" ICDCode_empty r))
    |rewrite (scan_loop_step _ _ _
                (mkState (80 + n + 1 + 6) 5 "1" ICDCode_empty r))
    |rewrite (scan_loop_step _ _ _
                (mkState (80 + n + 6) 5 "1" ICDCode_empty r))]
  end;
  [apply scan_loop_end; cbn [st_i String.length];
   rewrite length_app_string, length_spaces; cbn [String.length]; lia
  |cbn [st_i String.length];
   rewrite length_app_string, length_spaces; cbn [String.length]; lia
  |
  |apply scan_loop_end; cbn [st_i String.length];
   rewrite length_app_string, length_spaces; cbn [String.length]; lia
  |cbn [st_i String.length];
   rewrite length_app_string, length_spaces; cbn [String.length]; lia
  |
  |apply scan_loop_end; cbn [st_i String.length];
   rewrite length_app_string, length_spaces; cbn [String.length]; lia
  |cbn [st_i String.length];
   rewrite length_app_string, length_spaces; cbn [String.length]; lia
  |];
  unfold loop_body, loop_columns, loop_eol, index;
  cbn [Nat.add String.get Nat.leb Nat.ltb Nat.eqb andb];
  rewrite ?(get_spaces_app_ge n 1), ?get_spaces_app_0;
  cbn [String.get mbind result_bind desc]; rewrite Hstrip;
  cbn; rewrite ?(get_spaces_app_ge n 1), ?get_spaces_app_0;
  cbn; rewrite ?(get_spaces_app_ge n 1), ?get_spaces_app_0;
  rewrite ?length_app_string, ?length_spaces; cbn [String.length];
  rewrite ?Nat.eqb_refl;
  cbn; do 2 f_equal; lia.

(** C6. One line with the eight characters A0010000 in the code columns, the
    flag 1 at column 14 and the description Foo followed by any number of
    spaces at column 77, closed by a line end, parses to exactly the record
    with code A0010000, decimal code A00.10000 (the point after the third
    character) and description Foo (the trailing spaces stripped). With the
    three characters A00 and five blanks in the code columns no character
    follows the third, and the decimal code is A00, without a point. The six
    leading columns and columns 15 to 76 may hold anything, as long as column
    76 is not a line end. *)
Theorem parse_codes_fixed_width_line (sorter : StdSort) (lead filler eol : string)
    (n : nat) :
  String.length lead = 6%nat ->
  String.length filler = 62%nat ->
  is_eol (char_at filler 61) = false ->
  eol = String LF "" \/ eol = String CR (String LF "") \/ eol = String CR "" ->
  parse_codes sorter
    (lead +:+ "A0010000" +:+ "1" +:+ filler +:+ "Foo" +:+ spaces n +:+ eol) []
  = Ok [mkICDCode "A0010000" "A00.10000" "Foo"] /\
  parse_codes sorter
    (lead +:+ "A00     " +:+ "1" +:+ filler +:+ "Foo" +:+ spaces n +:+ eol) []
  = Ok [mkICDCode "A00" "A00" "Foo"].
Proof.
  intros Hlead Hfill H76 Heol.
  assert (Hlong : scan_codes
    (lead +:+ "A0010000" +:+ "1" +:+ filler +:+ "Foo" +:+ spaces n +:+ eol) []
    = Ok [mkICDCode "A0010000" "A00.10000" "Foo"])
    by scan_line n Hlead Hfill H76 Heol.
  assert (Hshort : scan_codes
    (lead +:+ "A00     " +:+ "1" +:+ filler +:+ "Foo" +:+ spaces n +:+ eol) []
    = Ok [mkICDCode "A00" "A00" "Foo"])
    by scan_line n Hlead Hfill H76 Heol.
  unfold parse_codes. rewrite Hlong, Hshort. cbn [mbind result_bind].
  split; f_equal; apply Permutation_singleton_r, sort_permutation.
Qed.

Lemma parse_codes_fixed_width_line_witness :
  parse_codes Instances.std_sort_merge
    ("00001 " +:+ "A0010000" +:+ "1" +:+ (" " +:+ pad 61 "Cholera") +:+ "Foo"
     +:+ spaces 3 +:+ eol_crlf) []
  = Ok [mkICDCode "A0010000" "A00.10000" "Foo"] /\
  parse_codes Instances.std_sort_merge
    ("00001 " +:+ "A00     " +:+ "1" +:+ (" " +:+ pad 61 "Cholera") +:+ "Foo"
     +:+ spaces 3 +:+ eol_crlf) []
  = Ok [mkICDCode "A00" "A00" "Foo"].
Proof.
  apply (parse_codes_fixed_width_line Instances.std_sort_merge "00001 "
           (" " +:+ pad 61 "Cholera") eol_crlf 3).
  - reflexivity.
  - reflexivity.
  - reflexivity.
  - right. left. reflexivity.
Defined.

End ICD10Facts.

(** ** Facts on the argument parser *)

Module ArgParserFacts.
Import ArgParser.

(** *** Vocabulary of the statements *)

(** Every alias, value slot and found flag of [p] is in [p'] as it is. *)
Definition keeps_slots (p p' : t) : Prop :=
  (forall k v, keys_trans p !! k = Some v -> keys_trans p' !! k = Some v) /\
  (forall k v, values p !! k = Some v -> values p' !! k = Some v) /\
  (forall k b, keys_found p !! k = Some b -> keys_found p' !! k = Some b).

Definition quiet_twice : t :=
  (add_token (add_token empty "q" "quiet" true true).2 "q" "quiet" false false).2.

Definition quiet_last_only : t := (add_token empty "q" "quiet" false false).2.

(** [q] has the alias table, the key order and the key sets of [p], and
    found flags and value slots for the same keys. *)
Definition same_registry (p q : t) : Prop :=
  keys_trans q = keys_trans p /\ key_order q = key_order p /\
  short_keys q = short_keys p /\ long_keys q = long_keys p /\
  dom (keys_found q) = dom (keys_found p) /\ dom (values q) = dom (values p).

Definition year_registry : t := init_loop empty ["p"; "y"] ["path"; "year"].


Definition vocabulary (p : t) : gset string := short_keys p ∪ long_keys p.

(** Every key of the three maps was registered. *)
Definition registered_only (p : t) : Prop :=
  dom (keys_trans p) ⊆ vocabulary p /\ dom (keys_found p) ⊆ vocabulary p /\
  dom (values p) ⊆ vocabulary p.

(** What can follow the construction: registrations and resolutions. *)
Inductive call : Type :=
  | call_add_token (short_token long_token : string) (has_value positional : bool)
  | call_parse (argv : list string).

Definition run_call (p : t) (c : call) : result t :=
  match c with
  | call_add_token s l hv pos => Ok (add_token p s l hv pos).2
  | call_parse argv => parse p argv
  end.

Fixpoint run_calls (p : t) (cs : list call) : result t :=
  match cs with
  | [] => Ok p
  | c :: cs' => p' ← run_call p c; run_calls p' cs'
  end.

Definition registers (c : call) (token : string) : Prop :=
  match c with
  | call_add_token s l _ _ => token = s \/ token = l
  | call_parse _ => False
  end.

(** Every key of the positional list has a found flag. *)
Definition order_registered (p : t) : Prop :=
  Forall (fun k => contains (keys_found p) k = true) (key_order p).

(** A key the backfill takes: not found, with a value slot (line 137). *)
Definition unfilled (p : t) (k : string) : bool :=
  match keys_found p !! k with
  | Some b => negb b && contains (values p) k
  | None => false
  end.

(** Every value slot holds the empty string. *)
Definition values_empty (p : t) : Prop :=
  forall k v, values p !! k = Some v -> v = "".

(** *** [insert] keeps an existing entry *)

Lemma lookup_umap_insert_Some {V : Type} (k k' : string) (v x : V)
    (m : gmap string V) :
  m !! k' = Some x -> umap_insert k v m !! k' = Some x.
Proof.
  intros H. unfold umap_insert. destruct (m !! k) eqn:E; [done|].
  rewrite lookup_insert_ne; [done|]. congruence.
Qed.

Lemma lookup_umap_insert_ne {V : Type} (k k' : string) (v : V)
    (m : gmap string V) :
  k <> k' -> umap_insert k v m !! k' = m !! k'.
Proof.
  intros H. unfold umap_insert. destruct (m !! k); [done|].
  by rewrite lookup_insert_ne.
Qed.

Lemma lookup_umap_insert_None {V : Type} (k : string) (v : V)
    (m : gmap string V) :
  m !! k = None -> umap_insert k v m !! k = Some v.
Proof. intros H. unfold umap_insert. rewrite H. apply lookup_insert_eq. Qed.

Lemma union_singleton_absorb (k : string) (X : gset string) :
  k ∈ X -> {[k]} ∪ X = X.
Proof.
  intros Hk. apply set_eq. intros x.
  rewrite elem_of_union, elem_of_singleton.
  split; [intros [->|?]; assumption|by right].
Qed.

Lemma dom_umap_insert {V : Type} (k : string) (v : V) (m : gmap string V) :
  dom (umap_insert k v m) = {[k]} ∪ dom m.
Proof.
  unfold umap_insert. destruct (m !! k) eqn:E.
  - symmetry. apply union_singleton_absorb, elem_of_dom. eauto.
  - apply dom_insert_L.
Qed.

Lemma empty_string_false (s : string) : empty_string s = false <-> s <> "".
Proof. destruct s; simpl; split; congruence. Qed.

Lemma contains_true {V : Type} (m : gmap string V) (k : string) :
  contains m k = true <-> k ∈ dom m.
Proof.
  unfold contains. rewrite elem_of_dom.
  destruct (m !! k); split; intros H; eauto; try discriminate.
  by apply is_Some_None in H.
Qed.

Lemma contains_false {V : Type} (m : gmap string V) (k : string) :
  contains m k = false <-> k ∉ dom m.
Proof.
  rewrite <- contains_true. destruct (contains m k); split; congruence.
Qed.

(** *** Registration *)

(** C3, as stated, fails: after [q] is registered with a value and then
    again without one, the parser still takes the next argument as the value
    of [q], as the first registration says; a parser that holds only the last
    registration does not. And after the long key [year] is registered for
    [y] and then again for [z], [--year] still stands for [y]. *)
Lemma add_token_last_registration_does_not_win :
  (parse quiet_twice ["prog"; "-q"; "x"] ≫= fun p => get_value p "q") = Ok "x" /\
  (parse quiet_last_only ["prog"; "-q"; "x"] ≫= fun p => get_value p "q") = Ok "" /\
  (p' ← parse (add_token year_registry "z" "year" true true).2
          ["prog"; "--year"; "2024"];
   Ok (found p' "y", found p' "z")) = Ok (true, false).
Proof. repeat split; vm_compute; reflexivity. Qed.

(** *** Resolution keeps the registry *)

Lemma same_registry_refl p : same_registry p p.
Proof. by repeat split. Qed.

Lemma same_registry_trans p q r :
  same_registry p q -> same_registry q r -> same_registry p r.
Proof.
  intros (?&?&?&?&?&?) (?&?&?&?&?&?). repeat split; congruence.
Qed.

Lemma same_registry_set_found p k :
  contains (keys_found p) k = true -> same_registry p (set_found p k).
Proof.
  intros H%contains_true. repeat split; simpl.
  rewrite dom_insert_L. by apply union_singleton_absorb.
Qed.

Lemma same_registry_set_value p k v :
  contains (values p) k = true -> same_registry p (set_value p k v).
Proof.
  intros H%contains_true. repeat split; simpl.
  rewrite dom_insert_L. by apply union_singleton_absorb.
Qed.

Lemma scan_same_registry (args : list string) :
  forall p extras p' extras',
    scan p extras args = (p', extras') -> same_registry p p'.
Proof.
  induction args as [args IH] using (induction_ltof1 _ (@length string)).
  unfold ltof in IH.
  intros p extras p' extras'. destruct args as [|a rest]; simpl.
  - intros [= <- _]. apply same_registry_refl.
  - destruct (is_option a).
    + destruct (contains (keys_found p) (match_key p a)) eqn:Hf.
      * pose proof (same_registry_set_found _ _ Hf) as H1.
        destruct rest as [|v rest'].
        -- by intros [= <- _].
        -- change (values (set_found p (match_key p a))) with (values p).
           destruct (contains (values p) (match_key p a)) eqn:Hv.
           ++ intros H%IH; [|simpl; lia].
              eapply same_registry_trans; [exact H1|].
              eapply same_registry_trans; [|exact H].
              by apply same_registry_set_value.
           ++ intros H%IH; [|simpl; lia].
              by eapply same_registry_trans.
      * apply IH. simpl. lia.
    + apply IH. simpl. lia.
Qed.

Lemma backfill_same_registry (order : list string) :
  forall p extras p',
    backfill p extras order = Ok p' -> same_registry p p'.
Proof.
  induction order as [|it order IH]; intros p extras p'; simpl.
  - intros [= <-]. apply same_registry_refl.
  - destruct extras as [|e extras].
    + intros [= <-]. apply same_registry_refl.
    + intros (b & Hb & H)%bind_Ok.
      destruct (negb b && contains (values p) it) eqn:Hc.
      * apply andb_true_iff in Hc as [_ Hv].
        apply IH in H.
        eapply same_registry_trans; [|exact H].
        eapply same_registry_trans; [by apply same_registry_set_value|].
        apply same_registry_set_found. simpl.
        unfold at_ in Hb. unfold contains.
        destruct (keys_found p !! it); [done|discriminate].
      * by apply IH in H.
Qed.

Lemma parse_same_registry p argv p' :
  parse p argv = Ok p' -> same_registry p p'.
Proof.
  unfold parse. destruct (scan p [] (tail argv)) as [p1 extras] eqn:Hs.
  intros H. apply scan_same_registry in Hs.
  replace (key_order p1) with (key_order p) in H by (symmetry; apply Hs).
  apply backfill_same_registry in H.
  by eapply same_registry_trans.
Qed.

(** *** Alias symmetry *)

Lemma alias_same_registry p q token :
  same_registry p q -> alias q token = alias p token.
Proof. intros (Ht & _). unfold alias. by rewrite Ht. Qed.

(** C7, as amended. When the alias table takes the long key [l] to the short
    key [s], and does not take [s] elsewhere, then after any resolution over
    any argument vector [found] and [get_value] give the same for [s] and for
    [l]. Registering the pair sets the table up so, unless [l] was registered
    before as the long key of another short key, or [s] is itself registered
    as a long key with a short key of its own. *)
Theorem alias_symmetry (p p' : t) (s l : string) (argv : list string) :
  alias p l = s -> alias p s = s -> parse p argv = Ok p' ->
  found p' s = found p' l /\ get_value p' s = get_value p' l.
Proof.
  intros Hl Hs Hp. apply parse_same_registry in Hp.
  unfold found, get_value.
  rewrite !(alias_same_registry p p') by done.
  by rewrite Hl, Hs.
Qed.

Lemma alias_symmetry_witness :
  exists p', parse year_registry ["prog"; "--year"; "2024"] = Ok p' /\
    found p' "y" = found p' "year" /\ get_value p' "y" = get_value p' "year".
Proof.
  destruct (parse year_registry ["prog"; "--year"; "2024"]) as [p'|f] eqn:Hp.
  - exists p'. split; [reflexivity|].
    apply (alias_symmetry year_registry p' "y" "year" ["prog"; "--year"; "2024"]).
    + vm_compute. reflexivity.
    + vm_compute. reflexivity.
    + exact Hp.
  - vm_compute in Hp. discriminate Hp.
Defined.

(** C7, as stated, fails: with the pairs (a, b) and (b, c) registered, the
    long key c stands for the short key b, and the key b stands for a. After
    [-a x] the pair (b, c) is split: b is found with the value x, c is not
    found and has no value. *)
Lemma alias_symmetry_fails_on_chained_pairs :
  (p ← of_pairs [("a", "b"); ("b", "c")];
   p' ← parse p ["prog"; "-a"; "x"];
   vs ← get_value p' "b";
   vl ← get_value p' "c";
   Ok (found p' "b", found p' "c", vs, vl))
  = Ok (true, false, "x", "").
Proof. vm_compute. reflexivity. Qed.

(** *** The accessors on tokens that were never registered *)

Lemma registered_only_empty : registered_only empty.
Proof. repeat split; simpl; rewrite dom_empty_L; apply empty_subseteq. Qed.

Lemma init_step_registered p s l :
  registered_only p ->
  registered_only (init_step p s l) /\
  vocabulary (init_step p s l) ⊆ {[s]} ∪ {[l]} ∪ vocabulary p.
Proof.
  unfold registered_only, vocabulary, init_step. intros (H1 & H2 & H3).
  destruct (empty_string l), (empty_string s); simpl;
    rewrite ?dom_umap_insert; set_solver.
Qed.

Lemma add_token_registered p s l hv pos :
  registered_only p ->
  registered_only (add_token p s l hv pos).2 /\
  vocabulary (add_token p s l hv pos).2 ⊆ {[s]} ∪ {[l]} ∪ vocabulary p.
Proof.
  unfold registered_only, vocabulary, add_token. intros (H1 & H2 & H3).
  destruct (empty_string l), (empty_string s), hv; simpl;
    rewrite ?dom_umap_insert; set_solver.
Qed.

Lemma init_loop_registered tokens_short :
  forall tokens_long p token,
    registered_only p -> token ∉ vocabulary p ->
    token ∉ tokens_short -> token ∉ tokens_long ->
    registered_only (init_loop p tokens_short tokens_long) /\
    token ∉ vocabulary (init_loop p tokens_short tokens_long).
Proof.
  induction tokens_short as [|s ss IH]; intros [|l ls] p token Hp Hv Hs Hl;
    simpl; auto.
  destruct (init_step_registered p s l Hp) as [Hp' Hsub].
  apply IH; auto.
  - intros Hin. apply Hsub in Hin.
    rewrite !elem_of_union, !elem_of_singleton in Hin.
    destruct Hin as [[->| ->]|?]; auto.
    + apply Hs. constructor.
    + apply Hl. constructor.
  - intros Hin. apply Hs. by constructor.
  - intros Hin. apply Hl. by constructor.
Qed.

Lemma parse_registered p argv p' :
  parse p argv = Ok p' -> registered_only p ->
  registered_only p' /\ vocabulary p' = vocabulary p.
Proof.
  intros (Ht & _ & Hs & Hl & Hf & Hv)%parse_same_registry (H1 & H2 & H3).
  unfold registered_only, vocabulary. by rewrite Ht, Hs, Hl, Hf, Hv.
Qed.

Lemma run_calls_registered cs :
  forall p p' token,
    run_calls p cs = Ok p' -> registered_only p -> token ∉ vocabulary p ->
    Forall (fun c => ~ registers c token) cs ->
    registered_only p' /\ token ∉ vocabulary p'.
Proof.
  induction cs as [|c cs IH]; intros p p' token; simpl.
  - intros [= <-]. auto.
  - intros (p1 & H1 & Hrun)%bind_Ok Hp Hv Hcs.
    apply Forall_cons in Hcs as [Hc Hcs].
    apply (IH p1 p' token); auto; destruct c as [s l hv pos|argv]; simpl in *.
    + injection H1 as <-. by apply add_token_registered.
    + by apply (parse_registered p argv).
    + injection H1 as <-.
      destruct (add_token_registered p s l hv pos Hp) as [_ Hsub].
      intros Hin. apply Hsub in Hin.
      rewrite !elem_of_union, !elem_of_singleton in Hin.
      destruct Hin as [[->| ->]|?]; auto.
    + destruct (parse_registered p argv p1 H1 Hp) as [_ ->]. done.
Qed.

(** *** The scan and the backfill, key by key *)

Lemma scan_bare_prefix (pre : list string) :
  forall p extras args,
    Forall (fun a => is_option a = false) pre ->
    scan p extras (pre ++ args) = scan p (extras ++ (strip_quotes <$> pre)) args.
Proof.
  induction pre as [|a pre IH]; intros p extras args Hpre; simpl.
  - by rewrite app_nil_r.
  - apply Forall_cons in Hpre as [Ha Hpre].
    rewrite Ha, IH by done. by rewrite <- app_assoc.
Qed.


Lemma backfill_found_kept (key : string) (order : list string) :
  forall p extras p',
    backfill p extras order = Ok p' ->
    keys_found p !! key = Some true ->
    keys_found p' !! key = Some true /\ values p' !! key = values p !! key.
Proof.
  induction order as [|it order IH]; intros p extras p'; simpl.
  - intros [= <-]. auto.
  - destruct extras as [|e extras]; [intros [= <-]; auto|].
    intros (b & Hb & H)%bind_Ok Hkey.
    destruct (negb b && contains (values p) it) eqn:Hc; [|eauto].
    apply andb_true_iff in Hc as [Hnb _]. apply negb_true_iff in Hnb. subst b.
    assert (it <> key).
    { intros ->. unfold at_ in Hb. rewrite Hkey in Hb. discriminate Hb. }
    apply IH in H as [H1 H2].
    + split; [exact H1|]. rewrite H2. simpl. by rewrite lookup_insert_ne.
    + simpl. by rewrite lookup_insert_ne.
Qed.

Lemma backfill_total (order : list string) :
  forall p extras,
    Forall (fun k => contains (keys_found p) k = true) order ->
    exists p', backfill p extras order = Ok p'.
Proof.
  induction order as [|it order IH]; intros p extras Hall; simpl; [eauto|].
  destruct extras as [|e extras]; [eauto|].
  apply Forall_cons in Hall as [Hit Hall].
  unfold at_. unfold contains in Hit.
  destruct (keys_found p !! it) as [b|] eqn:Hb; [|discriminate Hit].
  cbn [mbind result_bind].
  destruct (negb b && contains (values p) it); [|by apply IH].
  apply IH. eapply Forall_impl; [exact Hall|].
  intros k Hk. simpl. unfold contains in *.
  destruct (decide (it = k)) as [->|Hne].
  - by rewrite lookup_insert_eq.
  - by rewrite lookup_insert_ne.
Qed.

Lemma scan_order_registered p extras args p' extras' :
  scan p extras args = (p', extras') -> order_registered p ->
  order_registered p'.
Proof.
  intros (_ & Ho & _ & _ & Hf & _)%scan_same_registry Hp.
  unfold order_registered in *. rewrite Ho.
  eapply Forall_impl; [exact Hp|].
  intros k Hk. apply contains_true. rewrite Hf. by apply contains_true.
Qed.

(** Resolution never throws on a parser whose positional keys have found
    flags. *)
Lemma parse_total p argv :
  order_registered p -> exists p', parse p argv = Ok p'.
Proof.
  intros Hp. unfold parse.
  destruct (scan p [] (tail argv)) as [p1 extras] eqn:Hs.
  apply backfill_total. by eapply scan_order_registered.
Qed.

Lemma found_lookup p token :
  keys_found p !! alias p token = Some true -> found p token = true.
Proof. intros H. unfold found. by rewrite H. Qed.

Lemma get_value_lookup p token v :
  keys_found p !! alias p token = Some true ->
  values p !! alias p token = Some v ->
  get_value p token = Ok v.
Proof.
  intros Hf Hv. unfold get_value, contains, at_. by rewrite Hv, Hf.
Qed.

(** *** The backfill in registration order *)

Lemma unfilled_true p k :
  unfilled p k = true -> keys_found p !! k = Some false.
Proof.
  unfold unfilled. destruct (keys_found p !! k) as [[|]|]; simpl; congruence.
Qed.

Lemma filter_unfilled_ext (p q : t) (l : list string) :
  (forall k, k ∈ l -> unfilled q k = unfilled p k) ->
  filter (fun k => unfilled q k) l = filter (fun k => unfilled p k) l.
Proof.
  induction l as [|x l IH]; intros H; [reflexivity|].
  rewrite !filter_cons, IH, (H x).
  - reflexivity.
  - constructor.
  - intros k Hk. apply H. by constructor.
Qed.

Lemma backfill_spec (order : list string) :
  forall p extras,
    NoDup order ->
    Forall (fun k => contains (keys_found p) k = true) order ->
    exists p',
      backfill p extras order = Ok p' /\
      (forall (i : nat) k,
         filter (fun k => unfilled p k) order !! i = Some k ->
         match extras !! i with
         | Some e => keys_found p' !! k = Some true /\ values p' !! k = Some e
         | None => keys_found p' !! k = Some false
         end) /\
      (forall k, k ∉ order ->
         keys_found p' !! k = keys_found p !! k /\
         values p' !! k = values p !! k).
Proof.
  induction order as [|it order IH]; intros p extras Hnd Hreg.
  - exists p. split; [reflexivity|]. split; [|auto].
    intros i k H. rewrite filter_nil, lookup_nil in H. discriminate H.
  - apply NoDup_cons in Hnd as [Hit Hnd].
    apply Forall_cons in Hreg as [Hitreg Hreg].
    destruct extras as [|e extras].
    + exists p. split; [reflexivity|]. split; [|auto].
      intros i k H. rewrite lookup_nil.
      apply unfilled_true.
      apply list_elem_of_lookup_2, list_elem_of_filter in H as [H _].
      by apply Is_true_true.
    + cbn [backfill]. unfold at_ at 1. unfold contains in Hitreg.
      destruct (keys_found p !! it) as [b|] eqn:Hb; [|discriminate Hitreg].
      cbn [mbind result_bind].
      assert (Hu : unfilled p it = negb b && contains (values p) it).
      { unfold unfilled. by rewrite Hb. }
      rewrite <- Hu. rewrite filter_cons.
      destruct (unfilled p it) eqn:Hun.
      * destruct (IH (set_found (set_value p it e) it) extras Hnd)
          as (p' & Hp' & Hcand & Hrest).
        { eapply Forall_impl; [exact Hreg|]. intros k Hk. simpl.
          unfold contains in *. destruct (decide (it = k)) as [->|Hne].
          - by rewrite lookup_insert_eq.
          - by rewrite lookup_insert_ne. }
        exists p'. split; [exact Hp'|].
        destruct (Hrest it Hit) as [Hf Hv]. simpl in Hf, Hv.
        rewrite lookup_insert_eq in Hf. rewrite lookup_insert_eq in Hv.
        split.
        -- rewrite decide_True by done. intros [|i] k Hk; simpl in Hk.
           ++ by injection Hk as <-.
           ++ apply Hcand.
              rewrite (filter_unfilled_ext p); [exact Hk|].
              intros k' Hk'. unfold unfilled, contains. simpl.
              assert (it <> k') by (intros ->; done).
              by rewrite !lookup_insert_ne.
        -- intros k Hk. apply not_elem_of_cons in Hk as [Hne Hk].
           destruct (Hrest k Hk) as [Hf' Hv']. simpl in Hf', Hv'.
           rewrite lookup_insert_ne in Hf' by done.
           by rewrite lookup_insert_ne in Hv'.
      * destruct (IH p (e :: extras) Hnd Hreg) as (p' & Hp' & Hcand & Hrest).
        exists p'. split; [exact Hp'|].
        split.
        -- rewrite decide_False by (intros []). exact Hcand.
        -- intros k Hk. apply not_elem_of_cons in Hk as [Hne Hk]. auto.
Qed.

Lemma scan_bare (tokens : list string) (p : t) :
  Forall (fun a => is_option a = false) tokens ->
  scan p [] tokens = (p, strip_quotes <$> tokens).
Proof.
  intros H. rewrite <- (app_nil_r tokens) at 1.
  by rewrite scan_bare_prefix.
Qed.

Lemma lookup_umap_insert {V : Type} (k k' : string) (v : V)
    (m : gmap string V) :
  umap_insert k v m !! k' =
  match m !! k' with
  | Some x => Some x
  | None => if decide (k = k') then Some v else None
  end.
Proof.
  destruct (m !! k') as [x|] eqn:E.
  - by apply lookup_umap_insert_Some.
  - destruct (decide (k = k')) as [->|Hne].
    + by apply lookup_umap_insert_None.
    + by rewrite lookup_umap_insert_ne.
Qed.

(** The usual spellings of an option token stand for the key the accessors
    look up under the bare name. *)
Lemma match_key_long (p : t) (name : string) :
  name ∈ long_keys p -> match_key p ("--" +:+ name) = alias p name.
Proof.
  intros H. unfold match_key. cbn. by rewrite bool_decide_eq_true_2.
Qed.

Lemma match_key_short (p : t) (c : ascii) (name : string) :
  name ∈ short_keys p -> ascii_eqb (char_at name 0) "-" = false ->
  match_key p (String c name) = alias p name.
Proof.
  intros H Hd. unfold match_key.
  change (char_at (String c name) 1) with (char_at name 0). rewrite Hd.
  rewrite andb_false_r. cbn [skip]. by rewrite bool_decide_eq_true_2.
Qed.

(** The registry the short-keys constructor builds. *)
Lemma init_loop_short (ks : list string) :
  forall p,
    Forall (fun k => k <> "") ks ->
    keys_trans (init_loop p ks (map (fun _ => "") ks)) = keys_trans p /\
    key_order (init_loop p ks (map (fun _ => "") ks)) = (key_order p ++ ks)%list /\
    (forall k,
       keys_found (init_loop p ks (map (fun _ => "") ks)) !! k =
       match keys_found p !! k with
       | Some b => Some b
       | None => if decide (k ∈ ks) then Some false else None
       end) /\
    (forall k,
       values (init_loop p ks (map (fun _ => "") ks)) !! k =
       match values p !! k with
       | Some v => Some v
       | None => if decide (k ∈ ks) then Some "" else None
       end).
Proof.
  induction ks as [|s ks IH]; intros p Hne; cbn [init_loop map].
  - rewrite app_nil_r. repeat split; intros k.
    + destruct (keys_found p !! k); [done|].
      by rewrite decide_False by apply not_elem_of_nil.
    + destruct (values p !! k); [done|].
      by rewrite decide_False by apply not_elem_of_nil.
  - apply Forall_cons in Hne as [Hs Hne].
    assert (Hstep : init_step p s "" =
      mk (keys_trans p) (umap_insert s "" (values p))
         (umap_insert s false (keys_found p)) (key_order p ++ [s])
         ({[s]} ∪ short_keys p) (long_keys p)).
    { unfold init_step. destruct s; [done|reflexivity]. }
    rewrite Hstep.
    destruct (IH (mk (keys_trans p) (umap_insert s "" (values p))
                     (umap_insert s false (keys_found p)) (key_order p ++ [s])
                     ({[s]} ∪ short_keys p) (long_keys p)) Hne)
      as (Ht & Ho & Hf & Hv).
    cbn [keys_trans key_order keys_found values] in Ht, Ho, Hf, Hv.
    repeat split.
    + exact Ht.
    + rewrite Ho. by rewrite <- app_assoc.
    + intros k. rewrite Hf, lookup_umap_insert.
      destruct (keys_found p !! k); [done|].
      destruct (decide (s = k)) as [->|Hsk].
      * by rewrite decide_True by constructor.
      * destruct (decide (k ∈ ks)) as [Hin|Hin].
        -- by rewrite decide_True by (by constructor).
        -- rewrite decide_False; [done|].
           intros [->|?]%elem_of_cons; done.
    + intros k. rewrite Hv, lookup_umap_insert.
      destruct (values p !! k); [done|].
      destruct (decide (s = k)) as [->|Hsk].
      * by rewrite decide_True by constructor.
      * destruct (decide (k ∈ ks)) as [Hin|Hin].
        -- by rewrite decide_True by (by constructor).
        -- rewrite decide_False; [done|].
           intros [->|?]%elem_of_cons; done.
Qed.

Lemma filter_all {A : Type} (P : A -> Prop) `{forall x, Decision (P x)}
    (l : list A) :
  Forall P l -> filter P l = l.
Proof.
  induction 1 as [|x l Hx Hl IH]; [reflexivity|].
  rewrite filter_cons, decide_True by done. by f_equal.
Qed.

(** *** What registration establishes *)

Lemma contains_umap_insert {V : Type} (k : string) (v : V) (m : gmap string V) :
  contains (umap_insert k v m) k = true.
Proof. apply contains_true. rewrite dom_umap_insert. set_solver. Qed.

Lemma contains_umap_insert_mono {V : Type} (k k' : string) (v : V)
    (m : gmap string V) :
  contains m k' = true -> contains (umap_insert k v m) k' = true.
Proof.
  rewrite !contains_true, dom_umap_insert. set_solver.
Qed.

Lemma init_step_order_registered p s l :
  order_registered p -> order_registered (init_step p s l).
Proof.
  unfold order_registered, init_step. intros Hp.
  destruct (empty_string l), (empty_string s); simpl; try done;
    apply Forall_app; split;
    try (eapply Forall_impl; [exact Hp|];
         intros k Hk; by apply contains_umap_insert_mono);
    repeat constructor; apply contains_umap_insert.
Qed.

Lemma add_token_order_registered p s l hv pos :
  order_registered p -> order_registered (add_token p s l hv pos).2.
Proof.
  unfold order_registered, add_token. intros Hp.
  destruct (empty_string l), (empty_string s), hv, pos; simpl; try done;
    try apply Forall_app; try split;
    try (eapply Forall_impl; [exact Hp|];
         intros k Hk; by apply contains_umap_insert_mono);
    repeat constructor; apply contains_umap_insert.
Qed.

Lemma init_order_registered tokens_short tokens_long p :
  init tokens_short tokens_long = Ok p -> order_registered p.
Proof.
  unfold init. destruct (negb _); [discriminate|]. intros [= <-].
  assert (H : order_registered empty) by constructor.
  revert H. generalize empty. revert tokens_long.
  induction tokens_short as [|s ss IH]; intros [|l ls] p H; simpl; auto.
  apply IH. by apply init_step_order_registered.
Qed.

Lemma parse_order_registered p argv p' :
  parse p argv = Ok p' -> order_registered p -> order_registered p'.
Proof.
  intros (_ & Ho & _ & _ & Hf & _)%parse_same_registry Hp.
  unfold order_registered in *. rewrite Ho.
  eapply Forall_impl; [exact Hp|].
  intros k Hk. apply contains_true. rewrite Hf. by apply contains_true.
Qed.

Lemma umap_insert_values_empty (k : string) (m : gmap string string) :
  (forall k' v, m !! k' = Some v -> v = "") ->
  forall k' v, umap_insert k "" m !! k' = Some v -> v = "".
Proof.
  intros Hm k' v. rewrite lookup_umap_insert.
  destruct (m !! k') eqn:E.
  - intros [= <-]. eauto.
  - destruct (decide (k = k')); congruence.
Qed.

Lemma init_step_values_empty p s l :
  values_empty p -> values_empty (init_step p s l).
Proof.
  unfold values_empty, init_step. intros Hp.
  destruct (empty_string l), (empty_string s); simpl; try done;
    by apply umap_insert_values_empty.
Qed.

Lemma add_token_values_empty p s l hv pos :
  values_empty p -> values_empty (add_token p s l hv pos).2.
Proof.
  unfold values_empty, add_token. intros Hp.
  destruct (empty_string l), (empty_string s), hv; simpl; try done;
    by apply umap_insert_values_empty.
Qed.

Lemma init_values_empty tokens_short tokens_long p :
  init tokens_short tokens_long = Ok p -> values_empty p.
Proof.
  unfold init. destruct (negb _); [discriminate|]. intros [= <-].
  assert (H : values_empty empty).
  { intros k v. simpl. by rewrite lookup_empty. }
  revert H. generalize empty. revert tokens_long.
  induction tokens_short as [|s ss IH]; intros [|l ls] p H; simpl; auto.
  apply IH. by apply init_step_values_empty.
Qed.

(** Registering the pair [(s, l)] links [l] to [s] in the alias table, when
    neither was a key of the table before. *)
Lemma add_token_links_pair p s l hv pos :
  s <> "" -> l <> "" ->
  keys_trans p !! l = None -> keys_trans p !! s = None ->
  alias (add_token p s l hv pos).2 l = s /\
  alias (add_token p s l hv pos).2 s = s.
Proof.
  intros Hs Hl Hkl Hks. unfold add_token, alias.
  destruct s as [|c s]; [done|]. destruct l as [|d l]; [done|]. simpl.
  rewrite !lookup_umap_insert, Hkl, Hks.
  rewrite decide_True by done. split; [done|].
  by destruct (decide (String d l = String c s)).
Qed.

(** A bare argument without a double quote at either end is queued as it
    is. *)
Lemma strip_quotes_plain (a : string) :
  ascii_eqb (char_at a 0) DQUOTE = false -> ends_with a DQUOTE = false ->
  strip_quotes a = a.
Proof. intros H0 He. unfold strip_quotes. rewrite H0. simpl. by rewrite He. Qed.

End ArgParserFacts.

(** ** More on the argument parser: histories, flags, constructors *)

Module ArgParserMore.
Import ArgParser ArgParserFacts.

(** Every value slot belongs to a key with a found flag. *)
Definition values_registered (p : t) : Prop :=
  forall k, contains (values p) k = true -> contains (keys_found p) k = true.

(** No key is found. *)
Definition nothing_found (p : t) : Prop :=
  forall k b, keys_found p !! k = Some b -> b = false.

(** A history of registrations only. *)
Definition is_registration (c : call) : Prop :=
  match c with
  | call_add_token _ _ _ _ => True
  | call_parse _ => False
  end.

Lemma init_step_values_registered p s l :
  values_registered p -> values_registered (init_step p s l).
Proof.
  unfold values_registered, init_step. intros Hp k.
  destruct (empty_string l), (empty_string s); simpl; auto;
    rewrite !contains_true, !dom_umap_insert, !elem_of_union,
      <- !contains_true;
    intros [?|?]; auto.
Qed.

Lemma add_token_values_registered p s l hv pos :
  values_registered p -> values_registered (add_token p s l hv pos).2.
Proof.
  unfold values_registered, add_token. intros Hp k.
  destruct (empty_string l), (empty_string s), hv; simpl; auto;
    rewrite ?contains_true, ?dom_umap_insert, ?elem_of_union,
      <- ?contains_true;
    try intros [?|?]; auto.
Qed.

Lemma init_loop_preserves (P : t -> Prop) :
  (forall p s l, P p -> P (init_step p s l)) ->
  forall tokens_short tokens_long p,
    P p -> P (init_loop p tokens_short tokens_long).
Proof.
  intros Hstep tokens_short.
  induction tokens_short as [|s ss IH]; intros [|l ls] p Hp; simpl; auto.
Qed.

Lemma init_Ok tokens_short tokens_long p :
  init tokens_short tokens_long = Ok p ->
  p = init_loop empty tokens_short tokens_long.
Proof. unfold init. destruct (negb _); [discriminate|]. by intros [= <-]. Qed.

Lemma parse_values_registered p argv p' :
  parse p argv = Ok p' -> values_registered p -> values_registered p'.
Proof.
  intros (_ & _ & _ & _ & Hf & Hv)%parse_same_registry Hp k.
  rewrite !contains_true, Hf, Hv, <- !contains_true. apply Hp.
Qed.

(** What every parser built through the API satisfies. *)
Definition built (p : t) : Prop := order_registered p /\ values_registered p.

Lemma init_built tokens_short tokens_long p :
  init tokens_short tokens_long = Ok p -> built p.
Proof.
  intros H. split; [by eapply init_order_registered|].
  apply init_Ok in H as ->.
  apply (init_loop_preserves values_registered).
  - apply init_step_values_registered.
  - intros k. unfold contains. simpl. by rewrite lookup_empty.
Qed.

Lemma run_call_built p c p' :
  run_call p c = Ok p' -> built p -> built p'.
Proof.
  destruct c as [s l hv pos|argv]; simpl; intros H [Ho Hv].
  - injection H as <-. split.
    + by apply add_token_order_registered.
    + by apply add_token_values_registered.
  - split.
    + by eapply parse_order_registered.
    + by eapply parse_values_registered.
Qed.

Lemma run_calls_built cs :
  forall p p', run_calls p cs = Ok p' -> built p -> built p'.
Proof.
  induction cs as [|c cs IH]; intros p p'; simpl.
  - by intros [= <-].
  - intros (p1 & H1 & H2)%bind_Ok Hp.
    eapply IH; [exact H2|]. by eapply run_call_built.
Qed.

(** X1. A parser built by a constructor never throws later: whatever
    registrations and resolutions follow, over whatever argument vectors,
    every call returns. *)
Theorem api_calls_never_throw (tokens_short tokens_long : list string)
    (p0 : t) (cs : list call) :
  init tokens_short tokens_long = Ok p0 ->
  exists p, run_calls p0 cs = Ok p.
Proof.
  intros H%init_built. revert p0 H.
  induction cs as [|c cs IH]; intros p0 Hp0; simpl; [eauto|].
  assert (exists p1, run_call p0 c = Ok p1) as [p1 H1].
  { destruct c as [s l hv pos|argv]; simpl; [eauto|].
    apply parse_total, Hp0. }
  rewrite H1. cbn [mbind result_bind]. apply IH.
  by eapply run_call_built.
Qed.

Lemma api_calls_never_throw_witness :
  exists p,
    run_calls year_registry
      [call_add_token "q" "quiet" false true;
       call_parse ["prog"; "a"; "b"; "c"; "-q"; "--path"]] = Ok p.
Proof.
  apply (api_calls_never_throw ["p"; "y"] ["path"; "year"]). reflexivity.
Defined.

Lemma get_value_built (p : t) (token : string) :
  built p -> exists v, get_value p token = Ok v.
Proof.
  intros [_ Hv].
  unfold get_value. destruct (contains (values p) (alias p token)) eqn:Hc;
    [|eauto].
  apply Hv in Hc as Hf. unfold contains in Hc, Hf. unfold at_.
  destruct (keys_found p !! alias p token) as [[|]|]; [|eauto|discriminate].
  destruct (values p !! alias p token); [eauto|discriminate].
Qed.

(** X2. [get_value] never throws on a parser built through the API: the
    [at] of line 76 always finds its key. *)
Theorem get_value_never_throws (tokens_short tokens_long : list string)
    (p0 p : t) (cs : list call) (token : string) :
  init tokens_short tokens_long = Ok p0 ->
  run_calls p0 cs = Ok p ->
  exists v, get_value p token = Ok v.
Proof.
  intros H0%init_built Hrun. apply get_value_built.
  by eapply run_calls_built.
Qed.

Lemma get_value_never_throws_witness :
  exists v, get_value quiet_twice "quiet" = Ok v.
Proof.
  apply (get_value_never_throws [] [] empty quiet_twice
           [call_add_token "q" "quiet" true true;
            call_add_token "q" "quiet" false false]); reflexivity.
Defined.

Lemma init_step_nothing_found p s l :
  nothing_found p -> nothing_found (init_step p s l).
Proof.
  unfold nothing_found, init_step. intros Hp k b.
  destruct (empty_string l), (empty_string s); simpl; eauto;
    rewrite lookup_umap_insert;
    destruct (keys_found p !! k) eqn:E; try (intros [= <-]; eauto);
    destruct (decide _); congruence.
Qed.

Lemma add_token_nothing_found p s l hv pos :
  nothing_found p -> nothing_found (add_token p s l hv pos).2.
Proof.
  unfold nothing_found, add_token. intros Hp k b.
  destruct (empty_string l), (empty_string s); simpl; eauto;
    rewrite lookup_umap_insert;
    destruct (keys_found p !! k) eqn:E; try (intros [= <-]; eauto);
    destruct (decide _); congruence.
Qed.

(** X3. Before the first resolution nothing is found: after a constructor
    and any number of [add_token] calls, [found] returns [false] and
    [get_value] the empty string, for every token. *)
Theorem nothing_found_before_parse (tokens_short tokens_long : list string)
    (p0 p : t) (cs : list call) (token : string) :
  init tokens_short tokens_long = Ok p0 ->
  Forall is_registration cs ->
  run_calls p0 cs = Ok p ->
  found p token = false /\ get_value p token = Ok "".
Proof.
  intros H0 Hcs Hrun.
  assert (Hn : nothing_found p).
  { assert (Hn0 : nothing_found p0).
    { apply init_Ok in H0 as ->.
      apply (init_loop_preserves nothing_found).
      - apply init_step_nothing_found.
      - intros k b. simpl. by rewrite lookup_empty. }
    clear H0. revert p0 Hn0 Hrun.
    induction Hcs as [|c cs Hc Hcs IH]; intros p0 Hn0; simpl.
    - by intros [= <-].
    - intros (p1 & H1 & H2)%bind_Ok. apply (IH p1); [|exact H2].
      destruct c as [s l hv pos|argv]; [|destruct Hc].
      simpl in H1. injection H1 as <-. by apply add_token_nothing_found. }
  unfold found, get_value, at_.
  destruct (keys_found p !! alias p token) as [b|] eqn:E.
  - apply Hn in E as ->. split; [done|].
    by destruct (contains (values p) (alias p token)).
  - split; [done|].
    destruct (get_value_built p token) as [v Hv].
    { eapply run_calls_built; [exact Hrun|]. by eapply init_built. }
    unfold get_value, at_ in Hv. rewrite E in Hv.
    destruct (contains (values p) (alias p token)); [discriminate Hv|done].
Qed.


Lemma nothing_found_before_parse_witness :
  found quiet_twice "quiet" = false /\ get_value quiet_twice "quiet" = Ok "".
Proof.
  apply (nothing_found_before_parse [] [] empty quiet_twice
           [call_add_token "q" "quiet" true true;
            call_add_token "q" "quiet" false false]).
  - reflexivity.
  - repeat constructor.
  - reflexivity.
Defined.

Lemma scan_found_mono (key : string) (args : list string) :
  forall p extras q extras2,
    scan p extras args = (q, extras2) ->
    keys_found p !! key = Some true -> keys_found q !! key = Some true.
Proof.
  induction args as [args IH] using (induction_ltof1 _ (@length string)).
  unfold ltof in IH.
  intros p extras q extras2. destruct args as [|a rest]; simpl.
  - by intros [= <- _].
  - intros Hscan Hkey.
    assert (Hset : forall k, keys_found (set_found p k) !! key = Some true).
    { intros k. simpl. destruct (decide (k = key)) as [->|Hne].
      - apply lookup_insert_eq.
      - by rewrite lookup_insert_ne. }
    destruct (is_option a).
    + destruct (contains (keys_found p) (match_key p a)).
      * destruct rest as [|v rest2].
        -- injection Hscan as <- _. apply Hset.
        -- change (values (set_found p (match_key p a))) with (values p) in Hscan.
           destruct (contains (values p) (match_key p a)).
           ++ apply (IH rest2 ltac:(simpl; lia) _ _ _ _ Hscan). apply Hset.
           ++ apply (IH (v :: rest2) ltac:(simpl; lia) _ _ _ _ Hscan).
              apply Hset.
      * exact (IH rest ltac:(simpl; lia) _ _ _ _ Hscan Hkey).
    + exact (IH rest ltac:(simpl; lia) _ _ _ _ Hscan Hkey).
Qed.

(** X4. Resolution never takes a found flag back: a token that is found
    before [parse] is found after it, whatever the argument vector. *)
Theorem parse_keeps_found (p q : t) (argv : list string) (token : string) :
  parse p argv = Ok q -> found p token = true -> found q token = true.
Proof.
  intros Hp Hf.
  pose proof (parse_same_registry _ _ _ Hp) as Hsame.
  unfold found in *. rewrite (alias_same_registry p q token Hsame).
  destruct (keys_found p !! alias p token) as [[|]|] eqn:E; try discriminate.
  unfold parse in Hp.
  destruct (scan p [] (tail argv)) as [p1 extras] eqn:Hs.
  apply (scan_found_mono (alias p token)) in Hs; [|exact E].
  apply (backfill_found_kept (alias p token)) in Hp as [-> _]; done.
Qed.

Lemma parse_keeps_found_witness :
  exists p1 p2,
    parse year_registry ["prog"; "--year"; "2024"] = Ok p1 /\
    parse p1 ["prog"; "x"] = Ok p2 /\ found p2 "year" = true.
Proof.
  destruct (parse year_registry ["prog"; "--year"; "2024"]) as [p1|] eqn:H1;
    [|vm_compute in H1; discriminate H1].
  destruct (parse p1 ["prog"; "x"]) as [p2|] eqn:H2.
  - exists p1, p2. split; [reflexivity|]. split; [exact H2|].
    apply (parse_keeps_found p1 p2 ["prog"; "x"] "year" H2).
    vm_compute in H1. injection H1 as <-. vm_compute. reflexivity.
  - vm_compute in H1. injection H1 as <-. vm_compute in H2. discriminate H2.
Defined.

(** X6. On a parser built through the API, a token that is not found has the
    empty string as its value, also when its slot holds something. *)
Theorem not_found_has_empty_value (tokens_short tokens_long : list string)
    (p0 p : t) (cs : list call) (token : string) :
  init tokens_short tokens_long = Ok p0 ->
  run_calls p0 cs = Ok p ->
  found p token = false -> get_value p token = Ok "".
Proof.
  intros H0%init_built Hrun Hf.
  destruct (get_value_built p token) as [v Hv]; [by eapply run_calls_built|].
  unfold found in Hf. unfold get_value, at_ in *.
  destruct (contains (values p) (alias p token)); [|done].
  destruct (keys_found p !! alias p token) as [[|]|]; try discriminate; done.
Qed.

Lemma not_found_has_empty_value_witness :
  exists p,
    run_calls year_registry [call_parse ["prog"; "--year"; "2024"]] = Ok p /\
    get_value p "path" = Ok "".
Proof.
  destruct (run_calls year_registry [call_parse ["prog"; "--year"; "2024"]])
    as [p|] eqn:Hrun.
  - exists p. split; [reflexivity|].
    apply (not_found_has_empty_value ["p"; "y"] ["path"; "year"] year_registry
             p [call_parse ["prog"; "--year"; "2024"]]).
    + reflexivity.
    + exact Hrun.
    + vm_compute in Hrun. injection Hrun as <-. vm_compute. reflexivity.
  - vm_compute in Hrun. discriminate Hrun.
Defined.

(** X7. The quote strip takes exactly one double quote off each end: an
    argument written as a double quote, any text, a double quote is queued as
    that text, whatever quotes the text holds itself. *)
Theorem strip_quotes_quoted (s : string) :
  strip_quotes (String DQUOTE (push_back s DQUOTE)) = s.
Proof.
  unfold strip_quotes. cbn [char_at String.get].
  change (ascii_eqb DQUOTE DQUOTE) with true. cbn [skip].
  unfold ends_with. rewrite back_push_back.
  change (ascii_eqb DQUOTE DQUOTE) with true.
  apply pop_back_push_back.
Qed.

(** X8. The constructors: the one from two lists throws [invalid_argument]
    exactly when the lists differ in length; the ones from pairs and from
    short keys alone never throw. *)
Theorem constructors_throw_iff_lengths_differ :
  (forall tokens_short tokens_long,
     (exists p, of_short_long tokens_short tokens_long = Ok p) <->
     length tokens_short = length tokens_long) /\
  (forall tokens_short tokens_long f,
     of_short_long tokens_short tokens_long = Fail f ->
     f = invalid_argument "Token list sizes do not match!") /\
  (forall tokens, exists p, of_pairs tokens = Ok p) /\
  (forall tokens_short, exists p, of_short tokens_short = Ok p).
Proof.
  repeat split.
  - intros [p Hp]. unfold of_short_long, init in Hp.
    destruct (Nat.eqb_spec (length tokens_short) (length tokens_long));
      [done|discriminate Hp].
  - intros H. unfold of_short_long, init. rewrite H, Nat.eqb_refl. eauto.
  - intros tokens_short tokens_long f. unfold of_short_long, init.
    case_match; congruence.
  - intros tokens. unfold of_pairs, init.
    rewrite !length_map, Nat.eqb_refl. eauto.
  - intros tokens_short. unfold of_short, init.
    rewrite !length_map, Nat.eqb_refl. eauto.
Qed.


Lemma scan_other_kept (key : string) (args : list string) :
  forall p extras q extras2,
    scan p extras args = (q, extras2) ->
    Forall (fun a => is_option a = true -> match_key p a <> key) args ->
    keys_found q !! key = keys_found p !! key /\
    values q !! key = values p !! key.
Proof.
  induction args as [args IH] using (induction_ltof1 _ (@length string)).
  unfold ltof in IH.
  intros p extras q extras2. destruct args as [|a rest]; simpl.
  - intros [= <- _]. auto.
  - intros Hscan Hall. apply Forall_cons in Hall as [Ha Hrest].
    destruct (is_option a).
    + specialize (Ha eq_refl).
      destruct (contains (keys_found p) (match_key p a)).
      * destruct rest as [|v rest2].
        -- injection Hscan as <- _. simpl. by rewrite lookup_insert_ne.
        -- change (values (set_found p (match_key p a))) with (values p) in Hscan.
           destruct (contains (values p) (match_key p a)).
           ++ apply Forall_cons in Hrest as [_ Hrest].
              destruct (IH rest2 ltac:(simpl; lia) _ _ _ _ Hscan Hrest)
                as [H1 H2].
              rewrite H1, H2. simpl. by rewrite !lookup_insert_ne.
           ++ destruct (IH (v :: rest2) ltac:(simpl; lia) _ _ _ _ Hscan Hrest)
                as [H1 H2].
              rewrite H1, H2. simpl. by rewrite lookup_insert_ne.
      * exact (IH rest ltac:(simpl; lia) _ _ _ _ Hscan Hrest).
    + exact (IH rest ltac:(simpl; lia) _ _ _ _ Hscan Hrest).
Qed.

Lemma backfill_not_in_order (key : string) (order : list string) :
  forall p extras q,
    backfill p extras order = Ok q -> key ∉ order ->
    keys_found q !! key = keys_found p !! key /\
    values q !! key = values p !! key.
Proof.
  induction order as [|it order IH]; intros p extras q; simpl.
  - intros [= <-]. auto.
  - destruct extras as [|e extras]; [intros [= <-]; auto|].
    intros (b & Hb & H)%bind_Ok Hin.
    apply not_elem_of_cons in Hin as [Hne Hin].
    destruct (negb b && contains (values p) it); [|eauto].
    destruct (IH _ _ _ H Hin) as [H1 H2].
    rewrite H1, H2. simpl. by rewrite !lookup_insert_ne.
Qed.

(** X9. A key outside the positional list (registered with
    [positional = false], or without a value) is touched by its own option
    tokens only: an argument vector in which no option token stands for the
    key leaves its found flag and its value slot as they are; the backfill
    never reaches it. *)
Theorem non_positional_key_untouched (p q : t) (argv : list string)
    (key : string) :
  key ∉ key_order p ->
  Forall (fun a => is_option a = true -> match_key p a <> key) (tail argv) ->
  parse p argv = Ok q ->
  keys_found q !! key = keys_found p !! key /\
  values q !! key = values p !! key.
Proof.
  intros Hin Hall Hp. unfold parse in Hp.
  destruct (scan p [] (tail argv)) as [p1 extras] eqn:Hs.
  pose proof (scan_same_registry _ _ _ _ _ Hs) as (_ & Ho & _).
  apply (scan_other_kept key) in Hs as [H1 H2]; [|exact Hall].
  apply (backfill_not_in_order key) in Hp as [H3 H4]; [|by rewrite Ho].
  by rewrite H3, H4.
Qed.

Definition output_registry : t :=
  (add_token year_registry "o" "output" true false).2.

Lemma non_positional_key_untouched_witness :
  exists q,
    parse output_registry ["prog"; "a"; "b"; "c"; "--year"; "2024"] = Ok q /\
    keys_found q !! "o" = Some false /\ values q !! "o" = Some "".
Proof.
  destruct (parse output_registry ["prog"; "a"; "b"; "c"; "--year"; "2024"])
    as [q|] eqn:Hp.
  - exists q. split; [reflexivity|].
    apply (non_positional_key_untouched output_registry q
             ["prog"; "a"; "b"; "c"; "--year"; "2024"] "o").
    + intros Hin. vm_compute in Hin.
      repeat (apply elem_of_cons in Hin as [Hin|Hin]; [discriminate Hin|]).
      by apply elem_of_nil in Hin.
    + repeat constructor; vm_compute; discriminate.
    + exact Hp.
  - vm_compute in Hp. discriminate Hp.
Defined.

End ArgParserMore.

(** ** The laws of registration and resolution *)

Module ArgParserLaws.
Import ArgParser ArgParserFacts ArgParserMore.

(** The key a registration is filed under: the short key, or the long key
    when the short key is empty (lines 85 and 90). *)
Definition reg_key (short_token long_token : string) : string :=
  if empty_string short_token then long_token else short_token.

(** The keys the constructor files the pairs under, in order. *)
Definition keys_of (tokens_short tokens_long : list string) : list string :=
  zip_with reg_key tokens_short tokens_long.

(** A flag registered first, and then again with a value and a place in the
    positional list. *)
Definition quiet_flag_then_value : t :=
  (add_token (add_token empty "q" "quiet" false false).2 "q" "quiet" true true).2.

(** *** Registering a key again *)

(** C3, as amended. Registering a key again is never an error ([add_token]
    returns [true] whenever one of the two keys is not empty) and never
    overwrites: every alias, value slot and found flag that exists before
    the call is the same after it. The call adds what is missing and nothing
    else: a value slot holding the empty string when [has_value] is set and
    the key had none, a found flag [false] when the key had none, the alias
    from the long key to the short key when the long key had none; and it
    appends the key to the positional list whenever [has_value] and
    [positional] are set, also when the key is in the list already; the
    keys that are not empty join the short and the long keys that option
    tokens are matched against. A round of the loop of [init] is
    [add_token] with both set. *)
Theorem re_registration_only_adds (p : t) (short_token long_token : string)
    (has_value positional : bool) :
  short_token <> "" \/ long_token <> "" ->
  (add_token p short_token long_token has_value positional).1 = true /\
  keeps_slots p (add_token p short_token long_token has_value positional).2 /\
  (forall k,
     values (add_token p short_token long_token has_value positional).2 !! k =
     match values p !! k with
     | Some v => Some v
     | None =>
       if has_value && bool_decide (k = reg_key short_token long_token)
       then Some "" else None
     end) /\
  (forall k,
     keys_found (add_token p short_token long_token has_value positional).2 !! k =
     match keys_found p !! k with
     | Some b => Some b
     | None =>
       if bool_decide (k = reg_key short_token long_token)
       then Some false else None
     end) /\
  (forall k,
     keys_trans (add_token p short_token long_token has_value positional).2 !! k =
     match keys_trans p !! k with
     | Some s => Some s
     | None =>
       if negb (empty_string short_token) && negb (empty_string long_token)
          && bool_decide (k = long_token)
       then Some short_token else None
     end) /\
  key_order (add_token p short_token long_token has_value positional).2 =
    (key_order p ++
     if has_value && positional then [reg_key short_token long_token] else [])%list /\
  short_keys (add_token p short_token long_token has_value positional).2 =
    (if empty_string short_token then short_keys p
     else {[short_token]} ∪ short_keys p) /\
  long_keys (add_token p short_token long_token has_value positional).2 =
    (if empty_string long_token then long_keys p
     else {[long_token]} ∪ long_keys p) /\
  init_step p short_token long_token =
    (add_token p short_token long_token true true).2.
Proof.
  intros Hne.
  assert (Hdec : forall (k k' : string) (x : string),
            (if decide (k' = k) then Some x else None) =
            (if bool_decide (k = k') then Some x else None)).
  { intros k k' x. destruct (decide (k' = k)) as [->|Hn].
    - by rewrite bool_decide_eq_true_2.
    - rewrite bool_decide_eq_false_2; [done|]. congruence. }
  assert (Hdecb : forall (k k' : string) (x : bool),
            (if decide (k' = k) then Some x else None) =
            (if bool_decide (k = k') then Some x else None)).
  { intros k k' x. destruct (decide (k' = k)) as [->|Hn].
    - by rewrite bool_decide_eq_true_2.
    - rewrite bool_decide_eq_false_2; [done|]. congruence. }
  unfold add_token, init_step, reg_key, keeps_slots.
  destruct short_token as [|c s], long_token as [|c' l];
    [by destruct Hne|..];
    destruct has_value, positional; cbn [empty_string negb andb fst snd
      keys_trans values keys_found key_order short_keys long_keys];
    repeat split; intros;
    rewrite ?lookup_umap_insert, ?Hdec, ?Hdecb, ?app_nil_r;
    try done; auto using lookup_umap_insert_Some;
    by repeat case_match.
Qed.

Lemma re_registration_only_adds_witness :
  values quiet_flag_then_value !! "q" = Some "" /\
  key_order quiet_flag_then_value = ["q"].
Proof.
  destruct (re_registration_only_adds (add_token empty "q" "quiet" false false).2
              "q" "quiet" true true) as (_ & _ & Hv & _ & _ & Ho & _).
  - left. discriminate.
  - split; [apply (Hv "q")|exact Ho].
Defined.

(** Nor does the first registration win: a flag that is registered again
    with a value takes the next argument, and bare arguments, from then
    on. *)
Lemma add_token_first_registration_does_not_win :
  (parse quiet_flag_then_value ["prog"; "-q"; "x"] ≫= fun p => get_value p "q")
    = Ok "x" /\
  (parse quiet_flag_then_value ["prog"; "x"] ≫= fun p => get_value p "q")
    = Ok "x".
Proof. split; vm_compute; reflexivity. Qed.

(** *** Tokens that were never registered *)

(** What a registration adds to the vocabulary: its non-empty keys. *)
Lemma init_step_vocabulary p s l k :
  k ∈ vocabulary (init_step p s l) ->
  k ∈ vocabulary p \/ (k <> "" /\ (k = s \/ k = l)).
Proof.
  unfold vocabulary, init_step.
  destruct (empty_string l) eqn:El, (empty_string s) eqn:Es; simpl;
    try apply empty_string_false in El; try apply empty_string_false in Es;
    rewrite ?elem_of_union, ?elem_of_singleton; intros H;
    repeat destruct H as [H|H]; subst; auto.
Qed.

Lemma add_token_vocabulary p s l hv pos k :
  k ∈ vocabulary (add_token p s l hv pos).2 ->
  k ∈ vocabulary p \/ (k <> "" /\ (k = s \/ k = l)).
Proof.
  unfold vocabulary, add_token.
  destruct (empty_string l) eqn:El, (empty_string s) eqn:Es; simpl;
    try apply empty_string_false in El; try apply empty_string_false in Es;
    rewrite ?elem_of_union, ?elem_of_singleton; intros H;
    repeat destruct H as [H|H]; subst; auto.
Qed.

(** A token that no registration filed: the empty string, which is never
    registered (lines 48-62 and 80-95 skip an empty key), or a string that
    was never passed as a key. *)
Definition never_registered (tokens_short tokens_long : list string)
    (cs : list call) (token : string) : Prop :=
  token = "" \/
  ((token ∉ tokens_short) /\ (token ∉ tokens_long) /\
   Forall (fun c => ~ registers c token) cs).

Lemma init_loop_vocabulary tokens_short :
  forall tokens_long p k,
    k ∈ vocabulary (init_loop p tokens_short tokens_long) ->
    k ∈ vocabulary p \/ (k <> "" /\ (k ∈ tokens_short \/ k ∈ tokens_long)).
Proof.
  induction tokens_short as [|s ss IH]; intros [|l ls] p k; simpl; auto.
  intros [H|(Hne & [H|H])]%IH.
  - apply init_step_vocabulary in H as [H|(Hne & [->| ->])]; auto;
      right; (split; [done|]); [left|right]; constructor.
  - right. split; [done|]. left. by constructor.
  - right. split; [done|]. right. by constructor.
Qed.

Lemma run_calls_vocabulary cs :
  forall p q k,
    run_calls p cs = Ok q -> k ∈ vocabulary q ->
    k ∈ vocabulary p \/ (k <> "" /\ Exists (fun c => registers c k) cs).
Proof.
  induction cs as [|c cs IH]; intros p q k; simpl.
  - intros [= <-]. auto.
  - intros (p1 & H1 & Hrun)%bind_Ok Hk.
    destruct (IH _ _ _ Hrun Hk) as [H|[Hne H]].
    + destruct c as [s l hv pos|argv]; simpl in H1.
      * injection H1 as <-.
        apply add_token_vocabulary in H as [H|(Hne & H)]; [by left|].
        right. split; [done|]. by constructor.
      * left. apply parse_same_registry in H1 as (_ & _ & Hs & Hl & _).
        unfold vocabulary in *. by rewrite <- Hs, <- Hl.
    + right. split; [done|]. by constructor.
Qed.

Lemma init_registered_only tokens_short tokens_long p :
  init tokens_short tokens_long = Ok p -> registered_only p.
Proof.
  intros ->%init_Ok. apply (init_loop_preserves registered_only).
  - intros p s l Hp. by apply init_step_registered.
  - apply registered_only_empty.
Qed.

Lemma run_calls_registered_only cs :
  forall p q, run_calls p cs = Ok q -> registered_only p -> registered_only q.
Proof.
  induction cs as [|c cs IH]; intros p q; simpl.
  - by intros [= <-].
  - intros (p1 & H1 & Hrun)%bind_Ok Hp. apply (IH _ _ Hrun).
    destruct c as [s l hv pos|argv]; simpl in H1.
    + injection H1 as <-. by apply add_token_registered.
    + by apply (parse_registered p argv).
Qed.

(** C10. On a parser built by a constructor and any sequence of [add_token]
    and [parse] calls, [get_value] returns for every token whatever: it does
    not throw. For a token that was never registered (the empty string
    included, which no call registers), [found] returns [false] and
    [get_value] returns the empty string. The accessors are functions of the
    parser alone: they return a value and leave the parser as it is. *)
Theorem accessors_on_unregistered_token (tokens_short tokens_long : list string)
    (cs : list call) (p0 p : t) :
  init tokens_short tokens_long = Ok p0 ->
  run_calls p0 cs = Ok p ->
  (forall token, exists v, get_value p token = Ok v) /\
  (forall token,
     never_registered tokens_short tokens_long cs token ->
     found p token = false /\ get_value p token = Ok "").
Proof.
  intros Hinit Hrun. split.
  - intros token. apply get_value_built.
    eapply run_calls_built; [exact Hrun|]. by eapply init_built.
  - intros token Hnever.
    assert (Hvoc : token ∉ vocabulary p).
    { intros Hin.
      apply (run_calls_vocabulary _ _ _ _ Hrun) in Hin as [Hin|[Hne Hin]].
      - apply init_Ok in Hinit as ->.
        apply init_loop_vocabulary in Hin as [Hin|(Hne & Hin)].
        + unfold vocabulary in Hin. simpl in Hin.
          rewrite elem_of_union in Hin. destruct Hin as [Hin|Hin];
            by apply elem_of_empty in Hin.
        + destruct Hnever as [->|(Hs & Hl & _)]; [done|]. tauto.
      - destruct Hnever as [->|(_ & _ & Hcs)]; [done|].
        apply Exists_exists in Hin as (c & Hc & Hreg).
        rewrite Forall_forall in Hcs. by apply (Hcs c). }
    destruct (run_calls_registered_only cs _ _ Hrun
                (init_registered_only _ _ _ Hinit)) as (Ht & Hf & Hv).
    assert (Ha : alias p token = token).
    { unfold alias. destruct (keys_trans p !! token) eqn:E; [|done].
      exfalso. apply Hvoc, Ht, elem_of_dom. eauto. }
    unfold found, get_value. rewrite Ha.
    assert (Hnf : keys_found p !! token = None).
    { apply not_elem_of_dom. intros Hin. by apply Hvoc, Hf. }
    assert (Hnv : contains (values p) token = false).
    { apply contains_false. intros Hin. by apply Hvoc, Hv. }
    by rewrite Hnf, Hnv.
Qed.

Lemma accessors_on_unregistered_token_witness :
  exists p,
    run_calls (init_loop empty ["p"; "y"] [""; ""])
      [call_add_token "q" "" false true;
       call_parse ["prog"; "-y"; "2024"; "-v"]] = Ok p /\
    (found p "" = false /\ get_value p "" = Ok "") /\
    (found p "v" = false /\ get_value p "v" = Ok "") /\
    exists v, get_value p "y" = Ok v.
Proof.
  destruct (run_calls (init_loop empty ["p"; "y"] [""; ""])
              [call_add_token "q" "" false true;
               call_parse ["prog"; "-y"; "2024"; "-v"]]) as [p|f] eqn:Hrun.
  - exists p. split; [reflexivity|].
    destruct (accessors_on_unregistered_token ["p"; "y"] [""; ""]
             [call_add_token "q" "" false true;
              call_parse ["prog"; "-y"; "2024"; "-v"]]
             (init_loop empty ["p"; "y"] [""; ""]) p eq_refl Hrun)
      as [Htotal Hnever].
    split; [apply Hnever; by left|].
    split; [|apply Htotal].
    apply Hnever. right. split; [|split].
    + intros H.
      repeat (apply elem_of_cons in H as [H|H]; [discriminate H|]).
      by apply elem_of_nil in H.
    + intros H.
      repeat (apply elem_of_cons in H as [H|H]; [discriminate H|]).
      by apply elem_of_nil in H.
    + constructor; [simpl; intros [H|H]; discriminate H|].
      constructor; [simpl; tauto|]. constructor.
  - vm_compute in Hrun. discriminate Hrun.
Defined.

(** *** Flags *)

(** The call gives the key [name] a value slot: it registers under [name]
    with [has_value] set. *)
Definition gives_value (name : string) (c : call) : Prop :=
  match c with
  | call_add_token s l hv _ => hv = true /\ reg_key s l = name
  | call_parse _ => False
  end.

Lemma run_calls_no_slot (name : string) cs :
  forall p q,
    run_calls p cs = Ok q ->
    contains (values p) name = false ->
    Forall (fun c => ~ gives_value name c) cs ->
    contains (values q) name = false.
Proof.
  induction cs as [|c cs IH]; intros p q; simpl.
  - by intros [= <-].
  - intros (p1 & H1 & Hrun)%bind_Ok Hp Hcs.
    apply Forall_cons in Hcs as [Hc Hcs].
    apply (IH _ _ Hrun); [|exact Hcs].
    destruct c as [s l hv pos|argv]; simpl in H1, Hc.
    + injection H1 as <-. unfold add_token, reg_key in *.
      destruct (empty_string s) eqn:Es, (empty_string l) eqn:El, hv;
        simpl; try done;
        apply contains_false; rewrite dom_umap_insert, elem_of_union,
          elem_of_singleton; apply contains_false in Hp;
        intros [->|?]; tauto.
    + apply parse_same_registry in H1 as (_ & _ & _ & _ & _ & Hv).
      apply contains_false. rewrite Hv. by apply contains_false.
Qed.

Lemma init_step_slot p s l k :
  contains (values (init_step p s l)) k = true ->
  contains (values p) k = true \/ k = reg_key s l.
Proof.
  unfold init_step, reg_key.
  destruct (empty_string l), (empty_string s); simpl; auto;
    rewrite !contains_true, dom_umap_insert, elem_of_union,
      elem_of_singleton; tauto.
Qed.

Lemma init_loop_slot tokens_short :
  forall tokens_long p k,
    contains (values (init_loop p tokens_short tokens_long)) k = true ->
    contains (values p) k = true \/ k ∈ keys_of tokens_short tokens_long.
Proof.
  unfold keys_of.
  induction tokens_short as [|s ss IH]; intros [|l ls] p k; simpl; auto.
  intros [H|H]%IH.
  - apply init_step_slot in H as [H| ->]; [by left|]. right. constructor.
  - right. by constructor.
Qed.

(** X5. A key without a value slot never has a value. The constructors give
    every key they file a value slot, and [add_token] gives one when
    [has_value] is set; so let [name] be none of the keys the constructor
    filed, and let no [add_token] call have registered it with [has_value]
    set (it may have been registered as a flag, any number of times). Then
    the key has no value slot; after any resolution [get_value] returns the
    empty string for every token that stands for it; and an option token
    for it, once it is registered, does not take the argument after it:
    resolving [prog tok rest] is resolving [prog rest] with the key already
    found. *)
Theorem flag_has_no_value (tokens_short tokens_long : list string)
    (p0 p : t) (cs : list call) (name : string) :
  init tokens_short tokens_long = Ok p0 ->
  name ∉ keys_of tokens_short tokens_long ->
  run_calls p0 cs = Ok p ->
  Forall (fun c => ~ gives_value name c) cs ->
  contains (values p) name = false /\
  (forall tok argv q,
     alias p tok = name -> parse p argv = Ok q -> get_value q tok = Ok "") /\
  (forall prog tok rest,
     is_option tok = true -> match_key p tok = name ->
     contains (keys_found p) name = true ->
     parse p (prog :: tok :: rest) = parse (set_found p name) (prog :: rest)).
Proof.
  intros Hinit Hname Hrun Hcs.
  assert (H0 : contains (values p0) name = false).
  { apply init_Ok in Hinit as ->.
    destruct (contains (values (init_loop empty tokens_short tokens_long))
                name) eqn:E; [|done].
    apply init_loop_slot in E as [E|E]; [|done].
    unfold contains in E. simpl in E. by rewrite lookup_empty in E. }
  pose proof (run_calls_no_slot name cs _ _ Hrun H0 Hcs) as Hv.
  split; [exact Hv|]. split.
  - intros tok argv q Ha Hp.
    pose proof (parse_same_registry _ _ _ Hp) as Hsame.
    unfold get_value. rewrite (alias_same_registry p q tok Hsame), Ha.
    assert (Hv2 : contains (values q) name = false).
    { apply contains_false. destruct Hsame as (_&_&_&_&_&->).
      by apply contains_false. }
    by rewrite Hv2.
  - intros prog tok rest Htok Hkey Hf.
    unfold parse. cbn [tail scan]. rewrite Htok, Hkey, Hf.
    change (values (set_found p name)) with (values p).
    rewrite Hv. by destruct rest.
Qed.

(** The registry of [-p]/[--path] and [-y]/[--year] with the flag
    [-q]/[--quiet] added, registered twice. *)
Definition year_registry_quiet : t :=
  (add_token (add_token year_registry "q" "quiet" false false).2
             "q" "quiet" false true).2.

Lemma flag_has_no_value_witness :
  (forall argv q, parse year_registry_quiet argv = Ok q ->
                  get_value q "quiet" = Ok "") /\
  parse year_registry_quiet ["prog"; "--quiet"; "x"] =
    parse (set_found year_registry_quiet "q") ["prog"; "x"].
Proof.
  destruct (flag_has_no_value ["p"; "y"] ["path"; "year"]
              year_registry year_registry_quiet
              [call_add_token "q" "quiet" false false;
               call_add_token "q" "quiet" false true] "q")
    as (_ & Hget & Hskip).
  - reflexivity.
  - intros H.
    repeat (apply elem_of_cons in H as [H|H]; [discriminate H|]).
    by apply elem_of_nil in H.
  - reflexivity.
  - repeat constructor; simpl; intros [H _]; discriminate H.
  - split.
    + intros argv q. apply Hget. reflexivity.
    + apply Hskip; reflexivity.
Defined.
(** *** Option tokens and their values *)








(** *** The backfill in registration order *)

(** The key [k] is the long key of a pair that has another short key: the
    accessors take [k] for that short key. *)
Definition aliased_away (tokens_short tokens_long : list string) (k : string)
  : Prop :=
  exists s, (s, k) ∈ zip tokens_short tokens_long /\ s <> "" /\ s <> k.

(** Every key of the positional list is still to be filled, and is spelled
    for the accessors as it is filed. *)
Definition all_unfilled (p : t) : Prop :=
  forall k, k ∈ key_order p ->
    keys_found p !! k = Some false /\ contains (values p) k = true /\
    alias p k = k.

Lemma init_step_key (p : t) (s l : string) :
  reg_key s l <> "" ->
  init_step p s l =
  mk (if negb (empty_string l) && negb (empty_string s)
      then umap_insert l s (keys_trans p) else keys_trans p)
     (umap_insert (reg_key s l) "" (values p))
     (umap_insert (reg_key s l) false (keys_found p))
     (key_order p ++ [reg_key s l])
     (if empty_string s then short_keys p else {[s]} ∪ short_keys p)
     (if negb (empty_string l) && negb (empty_string s)
      then {[l]} ∪ long_keys p
      else if empty_string s then {[l]} ∪ long_keys p else long_keys p).
Proof.
  unfold init_step, reg_key. destruct s as [|c s], l as [|c' l];
    simpl; try done.
Qed.

(** What the loop of [init] builds. *)
Lemma init_loop_keys (tokens_short : list string) :
  forall tokens_long p,
    Forall (fun k => k <> "") (keys_of tokens_short tokens_long) ->
    key_order (init_loop p tokens_short tokens_long) =
      (key_order p ++ keys_of tokens_short tokens_long)%list /\
    (forall k,
       keys_found (init_loop p tokens_short tokens_long) !! k =
       match keys_found p !! k with
       | Some b => Some b
       | None => if decide (k ∈ keys_of tokens_short tokens_long)
                 then Some false else None
       end) /\
    (forall k,
       values (init_loop p tokens_short tokens_long) !! k =
       match values p !! k with
       | Some v => Some v
       | None => if decide (k ∈ keys_of tokens_short tokens_long)
                 then Some "" else None
       end) /\
    (forall k x,
       keys_trans (init_loop p tokens_short tokens_long) !! k = Some x ->
       keys_trans p !! k = Some x \/
       ((x, k) ∈ zip tokens_short tokens_long /\ x <> "")).
Proof.
  unfold keys_of.
  induction tokens_short as [|s ss IH]; intros [|l ls] p Hne;
    cbn [init_loop zip_with zip].
  1-3: rewrite app_nil_r; repeat split; auto; intros k;
    [destruct (keys_found p !! k)|destruct (values p !! k)]; try done;
    by rewrite decide_False by apply not_elem_of_nil.
  apply Forall_cons in Hne as [Hk Hne].
  destruct (IH ls (init_step p s l) Hne) as (Ho & Hf & Hv & Ht).
  revert Ho Hf Hv Ht. rewrite (init_step_key p s l Hk).
  cbn [keys_trans key_order keys_found values]. intros Ho Hf Hv Ht.
  assert (Hin : forall (A : Type) (k : string) (x : A),
    match (if decide (reg_key s l = k) then Some x else None) with
    | Some y => Some y
    | None => if decide (k ∈ zip_with reg_key ss ls) then Some x else None
    end =
    if decide (k ∈ reg_key s l :: zip_with reg_key ss ls) then Some x else None).
  { intros A k x. destruct (decide (reg_key s l = k)) as [<-|Hn].
    - by rewrite decide_True by constructor.
    - destruct (decide (k ∈ zip_with reg_key ss ls)) as [Hi|Hi].
      + by rewrite decide_True by (by constructor).
      + rewrite decide_False; [done|].
        intros [->|?]%elem_of_cons; done. }
  repeat split.
  - rewrite Ho. by rewrite <- app_assoc.
  - intros k. rewrite Hf, lookup_umap_insert.
    destruct (keys_found p !! k); [done|]. apply Hin.
  - intros k. rewrite Hv, lookup_umap_insert.
    destruct (values p !! k); [done|]. apply Hin.
  - intros k x Hkx. apply Ht in Hkx as [Hkx|[Hkx Hx]].
    + destruct (negb (empty_string l) && negb (empty_string s)) eqn:Hb;
        [|by left].
      rewrite lookup_umap_insert in Hkx.
      destruct (keys_trans p !! k); [by left|].
      destruct (decide (l = k)) as [->|]; [|discriminate].
      injection Hkx as <-. right. split; [constructor|].
      apply andb_true_iff in Hb as [_ Hb]. apply negb_true_iff in Hb.
      by apply empty_string_false.
    + right. split; [by constructor|done].
Qed.

(** The constructors leave every key unfilled, when the keys are distinct
    and none of them is the long key of another pair. *)
Lemma init_all_unfilled (tokens_short tokens_long : list string) (p : t) :
  init tokens_short tokens_long = Ok p ->
  Forall (fun k => k <> "") (keys_of tokens_short tokens_long) ->
  (forall k, k ∈ keys_of tokens_short tokens_long ->
             ~ aliased_away tokens_short tokens_long k) ->
  key_order p = keys_of tokens_short tokens_long /\ all_unfilled p.
Proof.
  intros ->%init_Ok Hne Hal.
  destruct (init_loop_keys tokens_short tokens_long empty Hne)
    as (Ho & Hf & Hv & Ht).
  cbn [keys_trans key_order keys_found values empty app] in Ho, Hf, Hv, Ht.
  split; [exact Ho|]. intros k Hk. rewrite Ho in Hk. repeat split.
  - rewrite Hf, lookup_empty. by rewrite decide_True.
  - unfold contains. rewrite Hv, lookup_empty. by rewrite decide_True.
  - unfold alias.
    destruct (keys_trans (init_loop empty tokens_short tokens_long) !! k)
      as [x|] eqn:E; [|done].
    apply Ht in E as [E|[E Hx]]; [by rewrite lookup_empty in E|].
    destruct (decide (x = k)) as [->|Hxk]; [done|].
    exfalso. apply (Hal k Hk). by exists x.
Qed.

(** Every key of the positional list has a value slot. *)
Definition order_valued (p : t) : Prop :=
  Forall (fun k => contains (values p) k = true) (key_order p).

Lemma init_step_order_valued p s l :
  order_valued p -> order_valued (init_step p s l).
Proof.
  unfold order_valued, init_step. intros Hp.
  destruct (empty_string l), (empty_string s); simpl; try done;
    apply Forall_app; split;
    try (eapply Forall_impl; [exact Hp|];
         intros k Hk; by apply contains_umap_insert_mono);
    repeat constructor; apply contains_umap_insert.
Qed.

Lemma add_token_order_valued p s l hv pos :
  order_valued p -> order_valued (add_token p s l hv pos).2.
Proof.
  unfold order_valued, add_token. intros Hp.
  destruct (empty_string l), (empty_string s), hv, pos; simpl; try done;
    try apply Forall_app; try split;
    try (eapply Forall_impl; [exact Hp|];
         intros k Hk; by apply contains_umap_insert_mono);
    repeat constructor; apply contains_umap_insert.
Qed.

(** Before the first resolution every key of the positional list is still
    to be filled. *)
Lemma registrations_unfilled (tokens_short tokens_long : list string)
    (p0 p : t) (cs : list call) :
  init tokens_short tokens_long = Ok p0 ->
  Forall is_registration cs ->
  run_calls p0 cs = Ok p ->
  forall k, k ∈ key_order p ->
    keys_found p !! k = Some false /\ contains (values p) k = true.
Proof.
  intros H0 Hcs Hrun.
  assert (Hp : order_registered p /\ order_valued p /\ nothing_found p).
  { assert (Hp0 : order_registered p0 /\ order_valued p0 /\ nothing_found p0).
    { apply init_Ok in H0 as ->.
      apply (init_loop_preserves
               (fun p => order_registered p /\ order_valued p /\
                         nothing_found p)).
      - intros q s l (? & ? & ?).
        split; [by apply init_step_order_registered|].
        split; [by apply init_step_order_valued|].
        by apply init_step_nothing_found.
      - split; [constructor|]. split; [constructor|].
        intros k b. simpl. by rewrite lookup_empty. }
    clear H0. revert p0 Hp0 Hrun.
    induction Hcs as [|c cs Hc Hcs IH]; intros p0 Hp0; simpl.
    - by intros [= <-].
    - intros (p1 & H1 & H2)%bind_Ok. apply (IH p1); [|exact H2].
      destruct c as [s l hv pos|argv]; [|destruct Hc].
      simpl in H1. injection H1 as <-. destruct Hp0 as (? & ? & ?).
      split; [by apply add_token_order_registered|].
      split; [by apply add_token_order_valued|].
      by apply add_token_nothing_found. }
  destruct Hp as (Ho & Hv & Hn). intros k Hk.
  pose proof (proj1 (Forall_forall _ _) Ho k Hk) as Hf.
  pose proof (proj1 (Forall_forall _ _) Hv k Hk) as Hvk.
  split; [|exact Hvk]. unfold contains in Hf.
  destruct (keys_found p !! k) as [b|] eqn:E; [|discriminate].
  by rewrite (Hn k b E).
Qed.

(** The keys of a list, each at its first place only. *)
Fixpoint first_occurrences (l : list string) : list string :=
  match l with
  | [] => []
  | k :: l' => k :: filter (fun k' => k' <> k) (first_occurrences l')
  end.

Lemma first_occurrences_subset (l : list string) (k : string) :
  k ∈ first_occurrences l -> k ∈ l.
Proof.
  induction l as [|x l IH]; simpl; [done|].
  intros [->|H]%elem_of_cons; [constructor|].
  apply list_elem_of_filter in H as [_ H]. constructor. by apply IH.
Qed.

Lemma first_occurrences_NoDup (l : list string) :
  NoDup l -> first_occurrences l = l.
Proof.
  induction 1 as [|x l Hx Hl IH]; simpl; [done|].
  rewrite IH. f_equal. apply filter_all.
  apply Forall_forall. intros k Hk ->. done.
Qed.

Lemma filter_unfilled_but (p q : t) (it : string) (l : list string) :
  unfilled q it = false ->
  (forall k, k <> it -> unfilled q k = unfilled p k) ->
  filter (fun k => unfilled q k) l =
  filter (fun k => unfilled p k) (filter (fun k' => k' <> it) l).
Proof.
  intros Hit Hother. induction l as [|x l IH]; [reflexivity|].
  rewrite !filter_cons. destruct (decide (x = it)) as [->|Hne].
  - rewrite Hit. rewrite decide_False by (intros []).
    rewrite (decide_False (P := it <> it)) by (intros H; by apply H).
    exact IH.
  - rewrite (decide_True (P := x <> it)) by done.
    rewrite filter_cons, (Hother x Hne), IH. reflexivity.
Qed.

(** The backfill, key by key: the keys that are not found and take a value
    get the extras in the order of the list, a key that is in the list more
    than once at its first place; the keys beyond the supply stay as they
    are. *)
Lemma backfill_first_occurrences (order : list string) :
  forall p extras,
    Forall (fun k => contains (keys_found p) k = true) order ->
    exists p',
      backfill p extras order = Ok p' /\
      (forall (i : nat) k,
         filter (fun k => unfilled p k) (first_occurrences order) !! i = Some k ->
         match extras !! i with
         | Some e => keys_found p' !! k = Some true /\ values p' !! k = Some e
         | None => keys_found p' !! k = Some false
         end).
Proof.
  induction order as [|it order IH]; intros p extras Hreg.
  - exists p. split; [reflexivity|].
    intros i k H. simpl in H. rewrite filter_nil, lookup_nil in H.
    discriminate H.
  - apply Forall_cons in Hreg as [Hitreg Hreg].
    destruct extras as [|e extras].
    + exists p. split; [reflexivity|].
      intros i k H. rewrite lookup_nil.
      apply unfilled_true.
      apply list_elem_of_lookup_2, list_elem_of_filter in H as [H _].
      by apply Is_true_true.
    + cbn [backfill first_occurrences]. unfold at_ at 1.
      unfold contains in Hitreg.
      destruct (keys_found p !! it) as [b|] eqn:Hb; [|discriminate Hitreg].
      cbn [mbind result_bind].
      assert (Hu : unfilled p it = negb b && contains (values p) it).
      { unfold unfilled. by rewrite Hb. }
      rewrite <- Hu. rewrite filter_cons.
      destruct (unfilled p it) eqn:Hun.
      * destruct (IH (set_found (set_value p it e) it) extras)
          as (p' & Hp' & Hcand).
        { eapply Forall_impl; [exact Hreg|]. intros k Hk. simpl.
          unfold contains in *. destruct (decide (it = k)) as [->|Hne].
          - by rewrite lookup_insert_eq.
          - by rewrite lookup_insert_ne. }
        exists p'. split; [exact Hp'|].
        destruct (backfill_found_kept it _ _ _ _ Hp') as [Hf Hv].
        { simpl. apply lookup_insert_eq. }
        simpl in Hv. rewrite lookup_insert_eq in Hv.
        rewrite decide_True by done. intros [|i] k Hk; simpl in Hk.
        -- by injection Hk as <-.
        -- apply Hcand.
           rewrite (filter_unfilled_but p _ it); [exact Hk| |].
           ++ unfold unfilled. simpl. by rewrite lookup_insert_eq.
           ++ intros k' Hk'. unfold unfilled, contains. simpl.
              by rewrite !lookup_insert_ne.
      * destruct (IH p (e :: extras) Hreg) as (p' & Hp' & Hcand).
        exists p'. split; [exact Hp'|].
        rewrite decide_False by (intros []).
        intros i k Hk. apply Hcand.
        rewrite (filter_unfilled_but p p it); [exact Hk|exact Hun|done].
Qed.

(** C9, as amended. In general: when the scan leaves the extras [extras],
    the i-th key of the positional list that is still not found and takes a
    value gets the i-th extra as its value and is found, a key that is in
    the list more than once taking its turn at its first place; the keys
    beyond the supply of extras stay not found; [found] and [get_value] say
    the same of every such key that they do not resolve to another one;
    resolution does not throw. For a parser whose positional keys are
    distinct, all still to be filled and not resolved to other keys, and an
    argument vector of bare tokens only: the i-th key is found with the
    i-th token as its value, the token as it is queued, after the quote
    strip of the scan; the keys beyond the tokens are not found. The
    constructors build such a parser from pairs filed under distinct keys,
    none of them the long key of a pair with another short key; and so does
    every history of registrations that leaves the positional keys distinct
    and not resolved to other keys. *)
Theorem positional_backfill_order :
  (forall (p p1 : t) (argv extras : list string),
     order_registered p ->
     scan p [] (tail argv) = (p1, extras) ->
     exists p', parse p argv = Ok p' /\
       forall (i : nat) k,
         filter (fun k => unfilled p1 k) (first_occurrences (key_order p)) !! i
           = Some k ->
         match extras !! i with
         | Some e =>
           keys_found p' !! k = Some true /\ values p' !! k = Some e /\
           (alias p k = k -> found p' k = true /\ get_value p' k = Ok e)
         | None =>
           keys_found p' !! k = Some false /\
           (alias p k = k -> found p' k = false)
         end) /\
  (forall (p : t) (prog : string) (tokens : list string),
     NoDup (key_order p) -> all_unfilled p ->
     Forall (fun a => is_option a = false) tokens ->
     exists p', parse p (prog :: tokens) = Ok p' /\
       forall (i : nat) k, key_order p !! i = Some k ->
         match tokens !! i with
         | Some token =>
           found p' k = true /\ get_value p' k = Ok (strip_quotes token)
         | None => found p' k = false
         end) /\
  (forall (tokens_short tokens_long tokens : list string) (prog : string)
          (p : t),
     init tokens_short tokens_long = Ok p ->
     Forall (fun k => k <> "") (keys_of tokens_short tokens_long) ->
     NoDup (keys_of tokens_short tokens_long) ->
     (forall k, k ∈ keys_of tokens_short tokens_long ->
                ~ aliased_away tokens_short tokens_long k) ->
     Forall (fun a => is_option a = false) tokens ->
     exists p', parse p (prog :: tokens) = Ok p' /\
       forall (i : nat) k, keys_of tokens_short tokens_long !! i = Some k ->
         match tokens !! i with
         | Some token =>
           found p' k = true /\ get_value p' k = Ok (strip_quotes token)
         | None => found p' k = false
         end) /\
  (forall (tokens_short tokens_long tokens : list string) (prog : string)
          (cs : list call) (p0 p : t),
     init tokens_short tokens_long = Ok p0 ->
     Forall is_registration cs ->
     run_calls p0 cs = Ok p ->
     NoDup (key_order p) ->
     (forall k, k ∈ key_order p -> alias p k = k) ->
     Forall (fun a => is_option a = false) tokens ->
     exists p', parse p (prog :: tokens) = Ok p' /\
       forall (i : nat) k, key_order p !! i = Some k ->
         match tokens !! i with
         | Some token =>
           found p' k = true /\ get_value p' k = Ok (strip_quotes token)
         | None => found p' k = false
         end).
Proof.
  assert (Hgen : forall (p p1 : t) (argv extras : list string),
     order_registered p ->
     scan p [] (tail argv) = (p1, extras) ->
     exists p', parse p argv = Ok p' /\
       forall (i : nat) k,
         filter (fun k => unfilled p1 k) (first_occurrences (key_order p)) !! i
           = Some k ->
         match extras !! i with
         | Some e =>
           keys_found p' !! k = Some true /\ values p' !! k = Some e /\
           (alias p k = k -> found p' k = true /\ get_value p' k = Ok e)
         | None =>
           keys_found p' !! k = Some false /\
           (alias p k = k -> found p' k = false)
         end).
  { intros p p1 argv extras Hord Hscan.
    pose proof (scan_order_registered _ _ _ _ _ Hscan Hord) as Hord1.
    pose proof (scan_same_registry _ _ _ _ _ Hscan) as (_ & Ho & _).
    unfold order_registered in Hord1. rewrite Ho in Hord1.
    destruct (backfill_first_occurrences (key_order p) p1 extras Hord1)
      as (p' & Hp' & Hcand).
    assert (Hparse : parse p argv = Ok p').
    { unfold parse. by rewrite Hscan, Ho. }
    exists p'. split; [exact Hparse|].
    pose proof (parse_same_registry _ _ _ Hparse) as Hsame.
    intros i k Hk. specialize (Hcand i k Hk).
    destruct (extras !! i) as [e|].
    - destruct Hcand as [H1 H2]. split; [done|]. split; [done|].
      intros Ha.
      assert (Ha' : alias p' k = k)
        by (by rewrite (alias_same_registry p p' k Hsame)).
      rewrite <- Ha' in H1, H2.
      split; [by apply found_lookup | by apply get_value_lookup].
    - split; [done|]. intros Ha. unfold found.
      by rewrite (alias_same_registry p p' k Hsame), Ha, Hcand. }
  assert (Hbare : forall (p : t) (prog : string) (tokens : list string),
     NoDup (key_order p) -> all_unfilled p ->
     Forall (fun a => is_option a = false) tokens ->
     exists p', parse p (prog :: tokens) = Ok p' /\
       forall (i : nat) k, key_order p !! i = Some k ->
         match tokens !! i with
         | Some token =>
           found p' k = true /\ get_value p' k = Ok (strip_quotes token)
         | None => found p' k = false
         end).
  { intros p prog tokens Hnd Hall Hbare.
    destruct (Hgen p p (prog :: tokens) (strip_quotes <$> tokens))
      as (p' & Hp' & Hcand); [|by apply scan_bare|].
    { apply Forall_forall. intros k Hk. unfold contains.
      by destruct (Hall k Hk) as (-> & _). }
    exists p'. split; [exact Hp'|]. intros i k Hk.
    rewrite (first_occurrences_NoDup _ Hnd), filter_all in Hcand.
    2: { apply Forall_forall. intros k' Hk'. apply Is_true_true.
         destruct (Hall k' Hk') as (Hf & Hv & _).
         unfold unfilled. by rewrite Hf, Hv. }
    specialize (Hcand i k Hk). rewrite list_lookup_fmap in Hcand.
    destruct (Hall k (list_elem_of_lookup_2 _ _ _ Hk)) as (_ & _ & Ha).
    destruct (tokens !! i) as [token|]; simpl in Hcand.
    - by apply Hcand.
    - by apply Hcand. }
  split; [exact Hgen|]. split; [exact Hbare|]. split.
  - intros tokens_short tokens_long tokens prog p Hinit Hne Hnd Hal Hb.
    destruct (init_all_unfilled _ _ _ Hinit Hne Hal) as [Ho Hall].
    rewrite <- Ho. apply Hbare; [by rewrite Ho|done..].
  - intros tokens_short tokens_long tokens prog cs p0 p Hinit Hcs Hrun Hnd
      Hal Hb.
    apply Hbare; [done| |done]. intros k Hk.
    destruct (registrations_unfilled _ _ _ _ _ Hinit Hcs Hrun k Hk)
      as [Hf Hv].
    by split; [|split; [|apply Hal]].
Qed.

Lemma positional_backfill_order_witness :
  exists p', parse (init_loop empty ["k1"; ""; "k3"] ["key1"; "key2"; ""])
               ["prog"; "a"; "b"; "c"] = Ok p' /\
    (found p' "k1" = true /\ get_value p' "k1" = Ok "a") /\
    (found p' "key2" = true /\ get_value p' "key2" = Ok "b") /\
    (found p' "k3" = true /\ get_value p' "k3" = Ok "c").
Proof.
  destruct positional_backfill_order as (_ & _ & H & _).
  destruct (H ["k1"; ""; "k3"] ["key1"; "key2"; ""] ["a"; "b"; "c"] "prog"
              (init_loop empty ["k1"; ""; "k3"] ["key1"; "key2"; ""]))
    as (p' & Hp' & Hk).
  - reflexivity.
  - repeat constructor; discriminate.
  - repeat constructor; intros Hin;
      repeat (apply elem_of_cons in Hin as [Hin|Hin]; [discriminate Hin|]);
      by apply elem_of_nil in Hin.
  - intros k Hk (s & Hin & Hs & Hsk).
    repeat (apply elem_of_cons in Hin as [Hin|Hin];
            [injection Hin as -> ->;
             repeat (apply elem_of_cons in Hk as [Hk|Hk];
                     [discriminate Hk || done|]);
             by apply elem_of_nil in Hk|]).
    by apply elem_of_nil in Hin.
  - repeat constructor.
  - exists p'. split; [exact Hp'|].
    split; [exact (Hk 0%nat "k1" eq_refl)|].
    split; [exact (Hk 1%nat "key2" eq_refl)|exact (Hk 2%nat "k3" eq_refl)].
Defined.

(** C9, as stated, fails. With the pairs (a, b), (b, c) and (d, e) the keys
    a, b and d are registered in this order, but the accessors take b for a:
    after three bare tokens the value of b is the first token, not the
    second, and after one bare token b is found although the supply ended
    before it. And when a key is registered twice, [a, a, b], the second
    token goes to b and the third to no key. *)
Lemma positional_backfill_fails_on_aliased_or_repeated_keys :
  (p ← of_pairs [("a", "b"); ("b", "c"); ("d", "e")];
   p' ← parse p ["prog"; "x"; "y"; "z"];
   get_value p' "b") = Ok "x" /\
  (p ← of_pairs [("a", "b"); ("b", "c"); ("d", "e")];
   p' ← parse p ["prog"; "x"];
   Ok (found p' "b")) = Ok true /\
  (p ← of_short ["a"; "a"; "b"];
   p' ← parse p ["prog"; "x"; "y"; "z"];
   va ← get_value p' "a";
   vb ← get_value p' "b";
   Ok (va, vb)) = Ok ("x", "y").
Proof. repeat split; vm_compute; reflexivity. Qed.

End ArgParserLaws.

(** ** More on the order-file parser and the generator *)

Module ICD10More.
Import ICD10 Instances ICD10Facts.

(** *** Shapes of records, invariants of the scan, well-formed order files *)

(** The code with a point after its third character, when a fourth
    follows. *)
Definition decimal_form (c : string) : string :=
  match c with
  | String c1 (String c2 (String c3 (String c4 rest))) =>
    String c1 (String c2 (String c3 (String "." (String c4 rest))))
  | _ => c
  end.

(** Every character of [s] satisfies [P]. *)
Fixpoint all_chars (P : ascii -> Prop) (s : string) : Prop :=
  match s with
  | "" => True
  | String c s' => P c /\ all_chars P s'
  end.

(** The empty string, or a string whose last character is not a blank. *)
Definition no_trailing_blank (d : string) : Prop :=
  d = "" \/ exists c, back d = Some c /\ ascii_eqb c SPACE = false.

(** The shape of a record the scan pushes. *)
Definition code_shape (r : ICDCode) : Prop :=
  (String.length (code r) <= 8)%nat /\
  all_chars (fun c => ascii_eqb c SPACE = false) (code r) /\
  dec_code r = decimal_form (code r).

(** The shape of the description of a record the scan pushes. *)
Definition desc_shape (r : ICDCode) : Prop :=
  all_chars (fun c => is_eol c = false) (desc r) /\
  no_trailing_blank (desc r).

(** The number of line-end characters of [s]. *)
Fixpoint count_eol (s : string) : nat :=
  match s with
  | "" => 0
  | String c s' => (if is_eol c then 1 else 0) + count_eol s'
  end.

(** What holds of the loop variables at the head of every round. *)
Definition scan_inv (s : scan_state) : Prop :=
  (6 <= st_col s)%nat /\
  ((st_col s <= 14)%nat \/ (77 <= st_col s)%nat) /\
  ((st_col s < 14)%nat -> String.length (code (st_code s)) = (st_col s - 6)%nat) /\
  code_shape (st_code s) /\
  all_chars (fun c => is_eol c = false) (desc (st_code s)) /\
  (ascii_eqb (st_hipaa s) "1" = false \/ (st_col s < 77)%nat ->
   desc (st_code s) = "") /\
  Forall code_shape (st_codes s) /\
  Forall desc_shape (st_codes s).

(** The loop variables after [col++] and [++i]. *)
Definition next_round (s : scan_state) : scan_state :=
  mkState (S (st_i s)) (S (st_col s)) (st_hipaa s) (st_code s) (st_codes s).

(** What holds between the column branches and the line-end branch. *)
Definition mid_inv (data : string) (s : scan_state) : Prop :=
  scan_inv (next_round s) /\
  (forall c, index data (st_i s) = Ok c -> is_eol c = true ->
             no_trailing_blank (desc (st_code s))).

(** The two line ends of a well-formed file. *)
Definition line_end (crlf : bool) : string :=
  if crlf then eol_crlf else eol_lf.

(** A line of the order file, by its fields: the six leading columns, the
    code, the flag of column 14, columns 15 to 76, the long description, the
    blanks after it and the kind of line end. *)
Record order_row : Type := mkRow {
  row_lead : string;
  row_code : string;
  row_flag : ascii;
  row_mid : string;
  row_desc : string;
  row_blanks : nat;
  row_crlf : bool
}.

(** The bytes of a line. *)
Definition render_row (r : order_row) : string :=
  row_lead r +:+ pad 8 (row_code r) +:+ String (row_flag r) "" +:+ row_mid r
  +:+ row_desc r +:+ spaces (row_blanks r) +:+ line_end (row_crlf r).

(** The bytes of a file. *)
Definition render_rows (rows : list order_row) : string :=
  foldr (fun r acc => render_row r +:+ acc) "" rows.

(** A line is kept when its flag is 1. *)
Definition kept (r : order_row) : bool := ascii_eqb (row_flag r) "1".

(** The record of a kept line. *)
Definition record_of (r : order_row) : ICDCode :=
  mkICDCode (row_code r) (decimal_form (row_code r)) (row_desc r).

(** The records of the kept lines of a file, in file order. *)
Definition records_of (rows : list order_row) : list ICDCode :=
  map record_of (List.filter kept rows).

(** The fields fit their columns: a code of at most eight characters without
    blank or line end, no line end at column 76 or in the description, and
    on a kept line a description that ends with a character other than a
    blank. *)
Definition well_formed_row (r : order_row) : Prop :=
  String.length (row_lead r) = 6%nat /\
  (String.length (row_code r) <= 8)%nat /\
  all_chars (fun c => ascii_eqb c SPACE = false /\ is_eol c = false)
            (row_code r) /\
  String.length (row_mid r) = 62%nat /\
  is_eol (char_at (row_mid r) 61) = false /\
  all_chars (fun c => is_eol c = false) (row_desc r) /\
  (kept r = true ->
   exists c, back (row_desc r) = Some c /\ ascii_eqb c SPACE = false).

(** Three lines out of order, the second not kept. *)
Definition sample_rows : list order_row :=
  [mkRow "00001 " "B000" "1" (" " +:+ pad 61 "Typhoid") "Typhoid fever" 2 true;
   mkRow "00002 " "A0" "0" (" " +:+ pad 61 "Header") "Not a code" 0 false;
   mkRow "00003 " "A0010000" "1" (" " +:+ pad 61 "Cholera") "Cholera" 0 false].

(** The loop variables with the records [old] in front of the vector. *)
Definition add_codes (old : list ICDCode) (s : scan_state) : scan_state :=
  mkState (st_i s) (st_col s) (st_hipaa s) (st_code s) (old ++ st_codes s).

(** Three lines in ascending order of their codes, the second not kept. *)
Definition sorted_rows : list order_row :=
  [mkRow "00001 " "A0010000" "1" (" " +:+ pad 61 "Cholera") "Cholera" 0 false;
   mkRow "00002 " "A0" "0" (" " +:+ pad 61 "Header") "Not a code" 0 false;
   mkRow "00003 " "B000" "1" (" " +:+ pad 61 "Typhoid") "Typhoid fever" 2 true].

(** X10. [comp_icdcode] is a strict weak ordering, as [std::sort] requires
    of its comparator: irreflexive, transitive, and two records are
    unordered either way exactly when their codes are equal. *)
Theorem comp_icdcode_strict_weak_order :
  (forall a, comp_icdcode a a = false) /\
  (forall a b c,
     comp_icdcode a b = true -> comp_icdcode b c = true ->
     comp_icdcode a c = true) /\
  (forall a b,
     comp_icdcode a b = false /\ comp_icdcode b a = false <->
     code a = code b).
Proof.
  assert (Hlt : forall a b, comp_icdcode a b = true <-> ~ code_le b a).
  { intros a b. rewrite <- comp_false_iff_le.
    destruct (comp_icdcode a b); split; congruence. }
  split; [|split].
  - intros a. apply comp_false_iff_le. unfold code_le. reflexivity.
  - intros a b c Hab%Hlt Hbc%Hlt. apply Hlt. intros Hca.
    destruct (total code_le a b) as [Hle|Hle]; [|done].
    apply Hbc. by etrans.
  - intros a b. rewrite !comp_false_iff_le. unfold code_le. split.
    + intros [H1 H2]. by apply (anti_symm String.le).
    + intros ->. split; reflexivity.
Qed.

Lemma all_chars_push_back (P : ascii -> Prop) (s : string) (c : ascii) :
  all_chars P s -> P c -> all_chars P (push_back s c).
Proof.
  unfold push_back. induction s as [|d s IH]; [by split|].
  intros [Hd Hs] Hc.
  change (all_chars P (String d (s +:+ String c EmptyString))).
  split; auto.
Qed.

Lemma all_chars_pop_back (P : ascii -> Prop) (s : string) :
  all_chars P s -> all_chars P (pop_back s).
Proof.
  induction s as [|d s IH]; [done|].
  intros [Hd Hs]. destruct s as [|e s]; [done|].
  change (pop_back (String d (String e s)))
    with (String d (pop_back (String e s))).
  split; auto.
Qed.

Lemma strip_loop_shape (P : ascii -> Prop) (fuel : nat) (d d' : string) :
  strip_loop fuel d = Ok d' -> all_chars P d ->
  all_chars P d' /\ exists c, back d' = Some c /\ ascii_eqb c SPACE = false.
Proof.
  revert d. induction fuel as [|fuel IH]; intros d; simpl;
    destruct (back d) as [c|] eqn:Hb; try discriminate;
    destruct (ascii_eqb c SPACE) eqn:Hc; try discriminate.
  - intros [= <-] HP. eauto.
  - intros H HP. apply (IH _ H). by apply all_chars_pop_back.
  - intros [= <-] HP. eauto.
Qed.

Lemma decimal_form_push_back (cd : string) (c : ascii) :
  decimal_form (push_back cd c) =
  if (String.length cd =? 3)%nat then push_back (push_back (decimal_form cd) ".") c
  else push_back (decimal_form cd) c.
Proof.
  destruct cd as [|c1 [|c2 [|c3 [|c4 cd]]]]; reflexivity.
Qed.

Ltac unfold_inv :=
  unfold mid_inv, scan_inv, next_round, code_shape in *;
  cbn [st_i st_col st_hipaa st_code st_codes code dec_code desc] in *.

Lemma loop_columns_inv (data : string) (s s1 : scan_state) :
  scan_inv s -> loop_columns data s = Ok s1 -> mid_inv data s1.
Proof.
  destruct s as [i col hipaa [cd dc ds] codes].
  unfold loop_columns. unfold_inv.
  intros (H6 & Hcol & Hlen & (Hlen8 & Hsp & Hdec) & Hne & Hds & Hc1 & Hc2).
  intros (c & Hc & H)%bind_Ok.
  destruct (Nat.leb_spec 6 col); [|lia].
  destruct (Nat.ltb_spec col 14); cbn [andb] in H.
  { (* the code columns *)
    specialize (Hlen ltac:(lia)). rewrite (Hds ltac:(right; lia)) in *.
    destruct (ascii_eqb c SPACE) eqn:Hcsp; injection H as <-; unfold_inv.
    - split; [|by left].
      repeat split; try done; try lia.
    - split; [|by left].
      rewrite length_push_back.
      repeat split; try done; try lia.
      + by apply all_chars_push_back.
      + rewrite decimal_form_push_back, Hdec.
        destruct (Nat.eqb_spec col 9), (Nat.eqb_spec (String.length cd) 3);
          try lia; done. }
  destruct (Nat.eqb_spec col 14) as [->|Hn14].
  { (* the flag column *)
    injection H as <-. unfold_inv.
    rewrite (Hds ltac:(right; lia)) in *.
    split; [|by left]. repeat split; try done; try lia. }
  destruct (ascii_eqb hipaa "1") eqn:Hh; cbn [andb] in H.
  - destruct (Nat.leb_spec 77 col); [|lia].
    destruct (is_eol c) eqn:Heol.
    + apply bind_Ok in H as (d & Hd & [= <-]). unfold_inv.
      destruct (strip_loop_shape _ _ _ _ Hd Hne) as [Hne2 Hb].
      split; [|by right].
      repeat split; try done; try lia. intros [?|?]; [congruence|lia].
    + injection H as <-. unfold_inv.
      split; [|intros c2 Hc2b; congruence].
      repeat split; try done; try lia.
      * by apply all_chars_push_back.
      * intros [?|?]; [congruence|lia].
  - injection H as <-. unfold_inv.
    rewrite (Hds ltac:(by left)) in *.
    split; [|by left]. repeat split; try done; try lia.
Qed.

Lemma loop_eol_inv (data : string) (s1 s2 : scan_state) :
  mid_inv data s1 -> loop_eol data s1 = Ok s2 -> scan_inv (next_round s2).
Proof.
  destruct s1 as [i col hipaa [cd dc ds] codes].
  unfold loop_eol. intros [Hinv Hblank] (c & Hc & H)%bind_Ok.
  destruct (is_eol c) eqn:Heol; [|by injection H as <-].
  apply bind_Ok in H as (i1 & _ & [= <-]).
  unfold ICDCode_empty. unfold_inv.
  destruct Hinv as (H6 & Hcol & Hlen & Hshape & Hne & Hds & Hc1 & Hc2).
  repeat split; try done; try (simpl; lia).
  - destruct (ascii_eqb hipaa "1"); [|done].
    apply Forall_app. split; [done|]. by apply Forall_singleton.
  - destruct (ascii_eqb hipaa "1"); [|done].
    apply Forall_app. split; [done|]. apply Forall_singleton.
    split; [done|]. by eapply Hblank.
Qed.

Lemma scan_loop_inv (fuel : nat) (data : string) (s : scan_state)
    (records : list ICDCode) :
  scan_inv s -> scan_loop fuel data s = Ok records ->
  Forall code_shape records /\ Forall desc_shape records.
Proof.
  revert s. induction fuel as [|fuel IH]; intros s Hinv; simpl;
    destruct (String.length data <=? st_i s)%nat;
    try discriminate; try (intros [= <-]; split; apply Hinv).
  intros (s2 & Hbody & H)%bind_Ok.
  unfold loop_body in Hbody. apply bind_Ok in Hbody as (s1 & H1 & H2).
  eapply (IH (next_round s2)); [|exact H].
  eapply loop_eol_inv; [|exact H2]. by eapply loop_columns_inv.
Qed.

(** *** A cursor into the blob *)

Lemma skip_empty (n : nat) : skip n "" = "".
Proof. by destruct n. Qed.

Lemma skip_add (i k : nat) (s : string) : skip (i + k) s = skip k (skip i s).
Proof.
  revert s. induction i as [|i IH]; intros s; [done|].
  destruct s as [|c s]; simpl; [by rewrite skip_empty|apply IH].
Qed.

Lemma get_skip (i k : nat) (s : string) :
  String.get (i + k) s = String.get k (skip i s).
Proof.
  revert s. induction i as [|i IH]; intros s; [done|].
  destruct s as [|c s]; simpl; [by destruct k|apply IH].
Qed.

Lemma skip_app_length (w rest : string) :
  skip (String.length w) (w +:+ rest) = rest.
Proof. induction w as [|c w IH]; [done|]. rewrite app_String. exact IH. Qed.

Lemma cursor_move (data : string) (i : nat) (w rest : string) :
  skip i data = w +:+ rest -> skip (i + String.length w) data = rest.
Proof. intros H. by rewrite skip_add, H, skip_app_length. Qed.

Lemma cursor_get (data : string) (i k : nat) (rest : string) :
  skip i data = rest -> String.get (i + k) data = String.get k rest.
Proof. intros <-. apply get_skip. Qed.

Lemma cursor_head (data : string) (i : nat) (c : ascii) (rest : string) :
  skip i data = String c rest -> String.get i data = Some c.
Proof. intros H. by rewrite <- (Nat.add_0_r i), (cursor_get _ _ _ _ H). Qed.

Lemma skip_nil_length (data : string) (p : nat) :
  skip p data = "" -> (String.length data <= p)%nat.
Proof.
  revert data. induction p as [|p IH]; intros [|c data]; simpl;
    try done; try lia.
  intros H%IH. lia.
Qed.

Lemma get_app_lt (k : nat) (w rest : string) :
  (k < String.length w)%nat -> String.get k (w +:+ rest) = String.get k w.
Proof.
  revert k. induction w as [|c w IH]; intros k Hk; simpl in Hk; [lia|].
  rewrite app_String. destruct k as [|k]; [done|]. simpl. apply IH. lia.
Qed.

Lemma get_lt_char_at (k : nat) (s : string) :
  (k < String.length s)%nat -> String.get k s = Some (char_at s k).
Proof.
  revert k. induction s as [|c s IH]; intros k Hk; simpl in Hk; [lia|].
  destruct k as [|k]; [done|]. unfold char_at. simpl.
  rewrite (IH k) by lia. done.
Qed.

Lemma index_get (data : string) (i : nat) (c : ascii) :
  String.get i data = Some c -> index data i = Ok c.
Proof. unfold index. by intros ->. Qed.

Lemma all_chars_app (P : ascii -> Prop) (s t : string) :
  all_chars P (s +:+ t) <-> all_chars P s /\ all_chars P t.
Proof.
  induction s as [|c s IH]; [simpl; tauto|].
  rewrite app_String. simpl. tauto.
Qed.

Lemma all_chars_spaces (P : ascii -> Prop) (n : nat) :
  P SPACE -> all_chars P (spaces n).
Proof. intros H. induction n; simpl; auto. Qed.

Lemma all_chars_impl (P Q : ascii -> Prop) (s : string) :
  (forall c, P c -> Q c) -> all_chars P s -> all_chars Q s.
Proof. intros H. induction s; simpl; [done|]. intros [??]. auto. Qed.

(** The same scan with other fuel gives the same records, or runs out. *)
Lemma scan_loop_agree (f1 f2 : nat) (data : string) (s : scan_state)
    (records : list ICDCode) :
  scan_loop f1 data s = Ok records ->
  scan_loop f2 data s = Ok records \/ scan_loop f2 data s = Fail out_of_fuel.
Proof.
  revert f2 s. induction f1 as [|f1 IH]; intros f2 s; simpl;
    destruct (String.length data <=? st_i s)%nat eqn:Hi.
  - intros [= <-]. left. apply scan_loop_end. by apply Nat.leb_le.
  - discriminate.
  - intros [= <-]. left. apply scan_loop_end. by apply Nat.leb_le.
  - intros (s2 & Hb & H)%bind_Ok.
    destruct f2 as [|f2]; simpl; rewrite Hi; [by right|].
    rewrite Hb. cbn [mbind result_bind]. by apply IH.
Qed.

Lemma scan_codes_of_loop (k : nat) (data : string) (codes records : list ICDCode) :
  scan_loop k data (mkState 6 6 NUL ICDCode_empty codes) = Ok records ->
  scan_codes data codes = Ok records.
Proof.
  intros H. unfold scan_codes.
  destruct (scan_loop_agree _ (String.length data) _ _ _ H) as [H2|H2];
    [done|].
  apply scan_loop_Fail in H2; [done|simpl; lia].
Qed.

(** *** The segments of a line *)

(** The characters of the code, copied one by one. *)
Lemma scan_code_chars (data : string) (w : string) :
  forall (fuel i : nat) (h : ascii) (cd : string) (codes : list ICDCode)
         (rest : string),
    skip i data = w +:+ rest ->
    (String.length cd + String.length w <= 8)%nat ->
    all_chars (fun c => ascii_eqb c SPACE = false /\ is_eol c = false) w ->
    scan_loop (String.length w + fuel) data
      (mkState i (6 + String.length cd) h
         (mkICDCode cd (decimal_form cd) "") codes) =
    scan_loop fuel data
      (mkState (i + String.length w) (6 + String.length (cd +:+ w)) h
         (mkICDCode (cd +:+ w) (decimal_form (cd +:+ w)) "") codes).
Proof.
  induction w as [|c w IH]; intros fuel i h cd codes rest Hcur Hlen Hch.
  - by rewrite app_empty_r, Nat.add_0_r.
  - destruct Hch as [[Hsp Heol] Hch]. simpl in Hlen.
    rewrite app_String in Hcur.
    pose proof (cursor_head _ _ _ _ Hcur) as Hget.
    change (String.length (String c w) + fuel)%nat
      with (S (String.length w + fuel)).
    rewrite (scan_loop_step _ _ _
      (mkState i (6 + String.length cd) h
         (mkICDCode (push_back cd c) (decimal_form (push_back cd c)) "")
         codes)).
    + cbn [st_i st_col st_hipaa st_code st_codes].
      replace (S (6 + String.length cd))
        with (6 + String.length (push_back cd c))%nat
        by (rewrite length_push_back; lia).
      rewrite (IH fuel (S i) h (push_back cd c) codes rest).
      * unfold push_back. rewrite app_assoc_string.
        change (String c "" +:+ w) with (String c w).
        do 2 f_equal. simpl. lia.
      * replace (S i) with (i + String.length (String c ""))%nat
          by (simpl; lia).
        by apply cursor_move.
      * rewrite length_push_back. lia.
      * done.
    + cbn [st_i]. by eapply get_Some_lt.
    + unfold loop_body, loop_columns, loop_eol.
      rewrite (index_get _ _ _ Hget). cbn [mbind result_bind].
      destruct (Nat.leb_spec 6 (6 + String.length cd)); [|lia].
      destruct (Nat.ltb_spec (6 + String.length cd) 14); [|lia].
      cbn [andb]. rewrite Hsp. cbn [mbind result_bind code dec_code desc].
      rewrite (index_get _ _ _ Hget). cbn [mbind result_bind]. rewrite Heol.
      rewrite decimal_form_push_back.
      destruct (Nat.eqb_spec (6 + String.length cd) 9),
               (Nat.eqb_spec (String.length cd) 3); try lia; done.
Qed.

(** The blank after a short code: the jump to column 13. *)
Lemma scan_pad (data : string) (fuel i m : nat) (h : ascii) (cd : ICDCode)
    (codes : list ICDCode) (col : nat) (rest : string) :
  skip i data = spaces m +:+ rest ->
  (0 < m)%nat -> (col + m = 14)%nat -> (6 <= col)%nat ->
  scan_loop (1 + fuel) data (mkState i col h cd codes) =
  scan_loop fuel data (mkState (i + m) 14 h cd codes).
Proof.
  intros Hcur Hm Hcol H6.
  assert (Hget : String.get i data = Some SPACE).
  { rewrite <- (Nat.add_0_r i), (cursor_get _ _ _ _ Hcur).
    by apply get_spaces_app_lt. }
  assert (Hget2 : String.get (i + (13 - col)) data = Some SPACE).
  { rewrite (cursor_get _ _ _ _ Hcur). apply get_spaces_app_lt. lia. }
  change (1 + fuel)%nat with (S fuel).
  rewrite (scan_loop_step _ _ _
    (mkState (i + (13 - col)) (col + (13 - col)) h cd codes)).
  - cbn [st_i st_col st_hipaa st_code st_codes]. do 2 f_equal; lia.
  - cbn [st_i]. by eapply get_Some_lt.
  - unfold loop_body, loop_columns, loop_eol.
    rewrite (index_get _ _ _ Hget). cbn [mbind result_bind].
    destruct (Nat.leb_spec 6 col); [|lia].
    destruct (Nat.ltb_spec col 14); [|lia].
    cbn [andb]. change (ascii_eqb SPACE SPACE) with true. cbn iota.
    cbn [mbind result_bind].
    rewrite (index_get _ _ _ Hget2). done.
Qed.

(** The flag column: the jump to column 76. *)
Lemma scan_flag (data : string) (fuel i : nat) (h f : ascii) (cd : ICDCode)
    (codes : list ICDCode) (mid rest : string) :
  skip i data = String f (mid +:+ rest) ->
  String.length mid = 62%nat ->
  is_eol (char_at mid 61) = false ->
  scan_loop (1 + fuel) data (mkState i 14 h cd codes) =
  scan_loop fuel data (mkState (i + 63) 77 f cd codes).
Proof.
  intros Hcur Hmid H76.
  pose proof (cursor_head _ _ _ _ Hcur) as Hget.
  assert (Hget2 : String.get (i + 62) data = Some (char_at mid 61)).
  { rewrite (cursor_get _ _ _ _ Hcur). cbn [String.get].
    rewrite get_app_lt by lia. apply get_lt_char_at. lia. }
  change (1 + fuel)%nat with (S fuel).
  rewrite (scan_loop_step _ _ _ (mkState (i + 62) (14 + 62) f cd codes)).
  - cbn [st_i st_col st_hipaa st_code st_codes]. do 2 f_equal; lia.
  - cbn [st_i]. by eapply get_Some_lt.
  - unfold loop_body, loop_columns, loop_eol.
    rewrite (index_get _ _ _ Hget). cbn [mbind result_bind].
    cbn [Nat.leb Nat.ltb Nat.eqb andb]. cbn [mbind result_bind].
    rewrite (index_get _ _ _ Hget2). cbn [mbind result_bind].
    by rewrite H76.
Qed.

(** The description of a kept line, copied one by one. *)
Lemma scan_desc (data : string) (w : string) :
  forall (fuel i col : nat) (cd dc ds : string) (codes : list ICDCode)
         (rest : string),
    skip i data = w +:+ rest ->
    (77 <= col)%nat ->
    all_chars (fun c => is_eol c = false) w ->
    scan_loop (String.length w + fuel) data
      (mkState i col "1" (mkICDCode cd dc ds) codes) =
    scan_loop fuel data
      (mkState (i + String.length w) (col + String.length w) "1"
         (mkICDCode cd dc (ds +:+ w)) codes).
Proof.
  induction w as [|c w IH]; intros fuel i col cd dc ds codes rest Hcur Hcol Hch.
  - by rewrite app_empty_r, !Nat.add_0_r.
  - destruct Hch as [Heol Hch]. rewrite app_String in Hcur.
    pose proof (cursor_head _ _ _ _ Hcur) as Hget.
    change (String.length (String c w) + fuel)%nat
      with (S (String.length w + fuel)).
    rewrite (scan_loop_step _ _ _
      (mkState i col "1" (mkICDCode cd dc (push_back ds c)) codes)).
    + cbn [st_i st_col st_hipaa st_code st_codes].
      rewrite (IH fuel (S i) (S col) cd dc (push_back ds c) codes rest).
      * unfold push_back. rewrite app_assoc_string.
        change (String c "" +:+ w) with (String c w).
        do 2 f_equal; simpl; lia.
      * replace (S i) with (i + String.length (String c ""))%nat
          by (simpl; lia).
        by apply cursor_move.
      * lia.
      * done.
    + cbn [st_i]. by eapply get_Some_lt.
    + unfold loop_body, loop_columns, loop_eol.
      rewrite (index_get _ _ _ Hget). cbn [mbind result_bind].
      destruct (Nat.leb_spec 6 col); [|lia].
      destruct (Nat.ltb_spec col 14); [lia|].
      destruct (Nat.eqb_spec col 14); [lia|].
      destruct (Nat.leb_spec 77 col); [|lia].
      cbn [andb]. change (ascii_eqb "1" "1") with true. cbn [andb].
      rewrite Heol. cbn [mbind result_bind code dec_code desc].
      rewrite (index_get _ _ _ Hget). cbn [mbind result_bind].
      by rewrite Heol.
Qed.

(** The description of a line that is not kept, passed over. *)
Lemma scan_passed_over (data : string) (w : string) :
  forall (fuel i col : nat) (h : ascii) (cd : ICDCode) (codes : list ICDCode)
         (rest : string),
    skip i data = w +:+ rest ->
    (77 <= col)%nat ->
    ascii_eqb h "1" = false ->
    all_chars (fun c => is_eol c = false) w ->
    scan_loop (String.length w + fuel) data (mkState i col h cd codes) =
    scan_loop fuel data
      (mkState (i + String.length w) (col + String.length w) h cd codes).
Proof.
  induction w as [|c w IH];
    intros fuel i col h cd codes rest Hcur Hcol Hh Hch.
  - by rewrite !Nat.add_0_r.
  - destruct Hch as [Heol Hch]. rewrite app_String in Hcur.
    pose proof (cursor_head _ _ _ _ Hcur) as Hget.
    change (String.length (String c w) + fuel)%nat
      with (S (String.length w + fuel)).
    rewrite (scan_loop_step _ _ _ (mkState i col h cd codes)).
    + cbn [st_i st_col st_hipaa st_code st_codes].
      rewrite (IH fuel (S i) (S col) h cd codes rest).
      * do 2 f_equal; simpl; lia.
      * replace (S i) with (i + String.length (String c ""))%nat
          by (simpl; lia).
        by apply cursor_move.
      * lia.
      * done.
      * done.
    + cbn [st_i]. by eapply get_Some_lt.
    + unfold loop_body, loop_columns, loop_eol.
      rewrite (index_get _ _ _ Hget). cbn [mbind result_bind].
      destruct (Nat.leb_spec 6 col); [|lia].
      destruct (Nat.ltb_spec col 14); [lia|].
      destruct (Nat.eqb_spec col 14); [lia|].
      cbn [andb]. rewrite Hh. cbn [andb mbind result_bind].
      rewrite (index_get _ _ _ Hget). cbn [mbind result_bind].
      by rewrite Heol.
Qed.

(** *** Well-formed order files *)

Lemma strip_trailing_blanks (d : string) (n : nat) (c : ascii) :
  back d = Some c -> ascii_eqb c SPACE = false ->
  strip_trailing (d +:+ spaces n) = Ok d.
Proof.
  intros Hb Hc. unfold strip_trailing.
  rewrite length_app_string, length_spaces, (Nat.add_comm _ n),
    strip_loop_spaces.
  destruct (String.length d); simpl; by rewrite Hb, Hc.
Qed.

(** The line end of a kept line: the record is pushed. *)
Lemma scan_line_end_kept (data : string) (fuel i col : nat)
    (cd dc ds d : string) (codes : list ICDCode) (crlf : bool) (rest : string) :
  skip i data = line_end crlf +:+ rest ->
  (77 <= col)%nat ->
  strip_trailing ds = Ok d ->
  scan_loop (1 + fuel) data (mkState i col "1" (mkICDCode cd dc ds) codes) =
  scan_loop fuel data
    (mkState (i + String.length (line_end crlf) + 6) 6 "1" ICDCode_empty
       (codes ++ [mkICDCode cd dc d])).
Proof.
  intros Hcur Hcol Hstrip. change (1 + fuel)%nat with (S fuel).
  destruct crlf; cbn [line_end eol_crlf eol_lf] in *; rewrite ?app_String, ?app_empty_l in Hcur;
    pose proof (cursor_head _ _ _ _ Hcur) as Hget.
  - assert (Hget2 : String.get (i + 1) data = Some LF)
      by (by rewrite (cursor_get _ _ _ _ Hcur)).
    rewrite (scan_loop_step _ _ _
      (mkState (i + 1 + 6) 5 "1" ICDCode_empty (codes ++ [mkICDCode cd dc d]))).
    + unfold eol_crlf, eol_lf.
      cbn [st_i st_col st_hipaa st_code st_codes String.length].
      do 2 f_equal; lia.
    + cbn [st_i]. by eapply get_Some_lt.
    + unfold loop_body, loop_columns, loop_eol.
      rewrite (index_get _ _ _ Hget). cbn [mbind result_bind].
      destruct (Nat.leb_spec 6 col); [|lia].
      destruct (Nat.ltb_spec col 14); [lia|].
      destruct (Nat.eqb_spec col 14); [lia|].
      destruct (Nat.leb_spec 77 col); [|lia].
      cbn [andb]. change (ascii_eqb "1" "1") with true.
      change (is_eol CR) with true. cbn [andb desc].
      rewrite Hstrip. cbn [mbind result_bind].
      rewrite (index_get _ _ _ Hget). cbn [mbind result_bind].
      change (is_eol CR) with true. change (ascii_eqb CR CR) with true.
      cbn iota. rewrite (index_get _ _ _ Hget2). cbn [mbind result_bind].
      change (ascii_eqb LF LF) with true. cbn iota.
      change (ascii_eqb "1" "1") with true. done.
  - rewrite (scan_loop_step _ _ _
      (mkState (i + 6) 5 "1" ICDCode_empty (codes ++ [mkICDCode cd dc d]))).
    + unfold eol_crlf, eol_lf.
      cbn [st_i st_col st_hipaa st_code st_codes String.length].
      do 2 f_equal; lia.
    + cbn [st_i]. by eapply get_Some_lt.
    + unfold loop_body, loop_columns, loop_eol.
      rewrite (index_get _ _ _ Hget). cbn [mbind result_bind].
      destruct (Nat.leb_spec 6 col); [|lia].
      destruct (Nat.ltb_spec col 14); [lia|].
      destruct (Nat.eqb_spec col 14); [lia|].
      destruct (Nat.leb_spec 77 col); [|lia].
      cbn [andb]. change (ascii_eqb "1" "1") with true.
      change (is_eol LF) with true. cbn [andb desc].
      rewrite Hstrip. cbn [mbind result_bind].
      rewrite (index_get _ _ _ Hget). cbn [mbind result_bind].
      change (is_eol LF) with true. change (ascii_eqb LF CR) with false.
      cbn iota. cbn [mbind result_bind].
      change (ascii_eqb "1" "1") with true. done.
Qed.

(** The line end of a line that is not kept: nothing is pushed. *)
Lemma scan_line_end_dropped (data : string) (fuel i col : nat) (h : ascii)
    (cd : ICDCode) (codes : list ICDCode) (crlf : bool) (rest : string) :
  skip i data = line_end crlf +:+ rest ->
  (77 <= col)%nat ->
  ascii_eqb h "1" = false ->
  scan_loop (1 + fuel) data (mkState i col h cd codes) =
  scan_loop fuel data
    (mkState (i + String.length (line_end crlf) + 6) 6 h ICDCode_empty codes).
Proof.
  intros Hcur Hcol Hh. change (1 + fuel)%nat with (S fuel).
  destruct crlf; cbn [line_end eol_crlf eol_lf] in *; rewrite ?app_String, ?app_empty_l in Hcur;
    pose proof (cursor_head _ _ _ _ Hcur) as Hget.
  - assert (Hget2 : String.get (i + 1) data = Some LF)
      by (by rewrite (cursor_get _ _ _ _ Hcur)).
    rewrite (scan_loop_step _ _ _ (mkState (i + 1 + 6) 5 h ICDCode_empty codes)).
    + unfold eol_crlf, eol_lf.
      cbn [st_i st_col st_hipaa st_code st_codes String.length].
      do 2 f_equal; lia.
    + cbn [st_i]. by eapply get_Some_lt.
    + unfold loop_body, loop_columns, loop_eol.
      rewrite (index_get _ _ _ Hget). cbn [mbind result_bind].
      destruct (Nat.leb_spec 6 col); [|lia].
      destruct (Nat.ltb_spec col 14); [lia|].
      destruct (Nat.eqb_spec col 14); [lia|].
      cbn [andb]. rewrite Hh. cbn [andb mbind result_bind].
      rewrite (index_get _ _ _ Hget). cbn [mbind result_bind].
      change (is_eol CR) with true. change (ascii_eqb CR CR) with true.
      cbn iota. rewrite (index_get _ _ _ Hget2). cbn [mbind result_bind].
      change (ascii_eqb LF LF) with true. cbn iota.
      by rewrite Hh.
  - rewrite (scan_loop_step _ _ _ (mkState (i + 6) 5 h ICDCode_empty codes)).
    + unfold eol_crlf, eol_lf.
      cbn [st_i st_col st_hipaa st_code st_codes String.length].
      do 2 f_equal; lia.
    + cbn [st_i]. by eapply get_Some_lt.
    + unfold loop_body, loop_columns, loop_eol.
      rewrite (index_get _ _ _ Hget). cbn [mbind result_bind].
      destruct (Nat.leb_spec 6 col); [|lia].
      destruct (Nat.ltb_spec col 14); [lia|].
      destruct (Nat.eqb_spec col 14); [lia|].
      cbn [andb]. rewrite Hh. cbn [andb mbind result_bind].
      rewrite (index_get _ _ _ Hget). cbn [mbind result_bind].
      change (is_eol LF) with true. change (ascii_eqb LF CR) with false.
      cbn iota. cbn [mbind result_bind].
      by rewrite Hh.
Qed.

(** The scan of one well-formed line. *)
Lemma scan_row (data : string) (p : nat) (h : ascii) (codes : list ICDCode)
    (r : order_row) (rest : string) :
  well_formed_row r ->
  skip p data = render_row r +:+ rest ->
  exists k q : nat,
    skip q data = rest /\
    forall fuel : nat,
      scan_loop (k + fuel) data (mkState (p + 6) 6 h ICDCode_empty codes) =
      scan_loop fuel data
        (mkState (q + 6) 6 (row_flag r) ICDCode_empty
           (codes ++ (if kept r then [record_of r] else []))).
Proof.
  destruct r as [lead cd flag mid ds n crlf].
  unfold well_formed_row, render_row, record_of, kept, pad.
  cbn [row_lead row_code row_flag row_mid row_desc row_blanks row_crlf].
  intros (Hlead & Hlen & Hcode & Hmid & H76 & Hdesc & Hback) Hcur.
  rewrite !app_assoc_string in Hcur.
  apply cursor_move in Hcur. rewrite Hlead in Hcur.
  pose proof (cursor_move _ _ _ _ Hcur) as Hcur1.
  (* the code columns, up to the flag column *)
  assert (Hflag : exists k,
    forall fuel, scan_loop (k + fuel) data
      (mkState (p + 6) 6 h ICDCode_empty codes) =
    scan_loop fuel data
      (mkState (p + 6 + 8) 14 h (mkICDCode cd (decimal_form cd) "") codes)).
  { destruct (8 - String.length cd)%nat as [|m] eqn:Hm.
    - exists (String.length cd). intros fuel.
      etrans;
        [exact (scan_code_chars data cd fuel (p + 6) h "" codes _ Hcur
                  ltac:(simpl; lia) Hcode)|].
      rewrite !app_empty_l. do 2 f_equal; lia.
    - exists (String.length cd + 1)%nat. intros fuel.
      rewrite <- Nat.add_assoc.
      etrans;
        [exact (scan_code_chars data cd (1 + fuel) (p + 6) h "" codes _ Hcur
                  ltac:(simpl; lia) Hcode)|].
      rewrite !app_empty_l.
      rewrite (scan_pad data fuel _ (S m) h _ codes _ _ Hcur1); [|lia..].
      do 2 f_equal; lia. }
  destruct Hflag as [k1 Hk1].
  assert (Hcur2 : skip (p + 6 + 8) data =
    String flag (mid +:+ ds +:+ spaces n +:+ line_end crlf +:+ rest)).
  { apply cursor_move in Hcur1. rewrite length_spaces in Hcur1.
    replace (p + 6 + 8)%nat
      with (p + 6 + String.length cd + (8 - String.length cd))%nat by lia.
    exact Hcur1. }
  assert (Hcur3 : skip (p + 6 + 8 + 63) data =
    (ds +:+ spaces n) +:+ line_end crlf +:+ rest).
  { rewrite app_assoc_string.
    change (String flag (mid +:+ ds +:+ spaces n +:+ line_end crlf +:+ rest))
      with (String flag mid +:+ ds +:+ spaces n +:+ line_end crlf +:+ rest)
      in Hcur2.
    apply cursor_move in Hcur2. rewrite <- Hcur2. f_equal. simpl. lia. }
  pose proof (cursor_move _ _ _ _ Hcur3) as Hcur4.
  assert (Hblank : all_chars (fun c => is_eol c = false) (ds +:+ spaces n)).
  { apply all_chars_app. split; [done|]. by apply all_chars_spaces. }
  exists (k1 + (1 + (String.length (ds +:+ spaces n) + 1)))%nat,
    (p + 6 + 8 + 63 + String.length (ds +:+ spaces n)
     + String.length (line_end crlf))%nat.
  split; [by apply cursor_move in Hcur4|].
  intros fuel. rewrite <- !Nat.add_assoc, Hk1.
  rewrite (scan_flag data _ _ h flag _ codes mid _ Hcur2 Hmid H76).
  destruct (ascii_eqb flag "1") eqn:Hkept.
  - apply Ascii.eqb_eq in Hkept as ->.
    destruct (Hback eq_refl) as (c & Hb & Hc).
    rewrite (scan_desc data _ (1 + fuel) _ 77 cd _ "" codes _ Hcur3);
      [|lia|done].
    rewrite app_empty_l.
    rewrite (scan_line_end_kept data fuel _ _ cd _ _ ds codes crlf _ Hcur4);
      [|lia|by eapply strip_trailing_blanks].
    do 2 f_equal; lia.
  - rewrite (scan_passed_over data _ (1 + fuel) _ 77 flag _ codes _ Hcur3);
      [|lia|done|done].
    rewrite (scan_line_end_dropped data fuel _ _ flag _ codes crlf _ Hcur4);
      [|lia|done].
    rewrite app_nil_r. do 2 f_equal; lia.
Qed.

Lemma scan_rows (data : string) (rows : list order_row) :
  forall (p : nat) (h : ascii) (codes : list ICDCode),
    Forall well_formed_row rows ->
    skip p data = render_rows rows ->
    exists k : nat,
      scan_loop k data (mkState (p + 6) 6 h ICDCode_empty codes) =
      Ok (codes ++ records_of rows)%list.
Proof.
  induction rows as [|r rows IH]; intros p h codes Hwf Hcur.
  - exists 0%nat. rewrite scan_loop_end.
    + unfold records_of. simpl. by rewrite app_nil_r.
    + apply skip_nil_length in Hcur. simpl. lia.
  - apply Forall_cons in Hwf as [Hr Hwf].
    cbn [render_rows foldr] in Hcur.
    destruct (scan_row data p h codes r _ Hr Hcur) as (k1 & q & Hq & Hk1).
    destruct (IH q (row_flag r)
                (codes ++ (if kept r then [record_of r] else []))%list Hwf Hq)
      as [k2 Hk2].
    exists (k1 + k2)%nat. rewrite Hk1, Hk2. f_equal.
    unfold records_of. cbn [List.filter].
    destruct (kept r); cbn [map]; by rewrite <- app_assoc.
Qed.

(** X11. The parser on a well-formed order file: every line holds six
    leading columns, a code of at most eight characters padded with blanks
    to column 13, a flag at column 14, 62 columns up to column 76, a long
    description, any number of blanks and a line end LF or CR LF. The scan
    appends to the vector, in file order, one record for every line whose
    flag is 1, and no other: the code, the code with a point after its
    third character, and the description without the blanks after it. The
    parser returns them sorted. *)
Theorem parse_codes_well_formed (sorter : StdSort) (rows : list order_row)
    (codes : list ICDCode) :
  Forall well_formed_row rows ->
  scan_codes (render_rows rows) codes = Ok (codes ++ records_of rows)%list /\
  parse_codes sorter (render_rows rows) codes =
    Ok (sort sorter (codes ++ records_of rows)%list).
Proof.
  intros Hwf.
  assert (H : scan_codes (render_rows rows) codes = Ok (codes ++ records_of rows)%list).
  { destruct (scan_rows (render_rows rows) rows 0 NUL codes Hwf eq_refl)
      as [k Hk].
    by eapply scan_codes_of_loop. }
  split; [exact H|]. unfold parse_codes. by rewrite H.
Qed.

Lemma parse_codes_well_formed_witness :
  scan_codes (render_rows sample_rows) [] = Ok ([] ++ records_of sample_rows)%list /\
  parse_codes std_sort_merge (render_rows sample_rows) [] =
    Ok (sort std_sort_merge ([] ++ records_of sample_rows)%list).
Proof.
  apply (parse_codes_well_formed std_sort_merge sample_rows []).
  repeat constructor; try (vm_compute; reflexivity); try discriminate.
  all: intros _; eexists; split; vm_compute; reflexivity.
Defined.

(** *** The vector passed in *)

Lemma loop_columns_prefix (old : list ICDCode) (data : string) (s : scan_state) :
  loop_columns data (add_codes old s) =
  (s1 ← loop_columns data s; Ok (add_codes old s1)).
Proof.
  destruct s as [i col hipaa cd codes]. unfold loop_columns, add_codes.
  cbn [st_i st_col st_hipaa st_code st_codes].
  destruct (index data i) as [c|f]; cbn [mbind result_bind]; [|done].
  repeat case_match; try done.
  by destruct (strip_trailing (desc cd)).
Qed.

Lemma loop_eol_prefix (old : list ICDCode) (data : string) (s : scan_state) :
  loop_eol data (add_codes old s) =
  (s1 ← loop_eol data s; Ok (add_codes old s1)).
Proof.
  destruct s as [i col hipaa cd codes]. unfold loop_eol, add_codes.
  cbn [st_i st_col st_hipaa st_code st_codes].
  destruct (index data i) as [c|f]; cbn [mbind result_bind]; [|done].
  destruct (is_eol c); [|done].
  destruct (ascii_eqb c CR); cbn [mbind result_bind].
  - destruct (index data (i + 1)) as [c1|f]; cbn [mbind result_bind]; [|done].
    cbn [st_i st_col st_hipaa st_code st_codes].
    destruct (ascii_eqb hipaa "1"); by rewrite ?app_assoc.
  - cbn [st_i st_col st_hipaa st_code st_codes].
    destruct (ascii_eqb hipaa "1"); by rewrite ?app_assoc.
Qed.

Lemma scan_loop_prefix (old : list ICDCode) (fuel : nat) (data : string)
    (s : scan_state) :
  scan_loop fuel data (add_codes old s) =
  (l ← scan_loop fuel data s; Ok (old ++ l)%list).
Proof.
  revert s. induction fuel as [|fuel IH]; intros s; simpl;
    destruct (String.length data <=? st_i s)%nat; try done.
  unfold loop_body. rewrite loop_columns_prefix.
  destruct (loop_columns data s) as [s1|f]; cbn [mbind result_bind]; [|done].
  rewrite loop_eol_prefix.
  destruct (loop_eol data s1) as [s2|f]; cbn [mbind result_bind]; [|done].
  apply (IH (mkState (S (st_i s2)) (S (st_col s2)) (st_hipaa s2) (st_code s2)
               (st_codes s2))).
Qed.

Lemma scan_codes_prefix (data : string) (codes : list ICDCode) :
  scan_codes data codes = (l ← scan_codes data []; Ok (codes ++ l)%list).
Proof.
  unfold scan_codes.
  rewrite <- (scan_loop_prefix codes _ data (mkState 6 6 NUL ICDCode_empty [])).
  unfold add_codes. cbn [st_i st_col st_hipaa st_code st_codes].
  by rewrite app_nil_r.
Qed.

(** X12. The parser appends: the records the vector holds before the call
    are kept, the records of the blob are those the scan of the blob gives
    on an empty vector, and the whole vector is sorted; the call is undefined
    exactly when the scan of the blob on an empty vector is. *)
Theorem parse_codes_appends (sorter : StdSort) (data : string)
    (codes : list ICDCode) :
  parse_codes sorter data codes =
  (scanned ← scan_codes data []; Ok (sort sorter (codes ++ scanned)%list)).
Proof.
  unfold parse_codes. rewrite scan_codes_prefix.
  by destruct (scan_codes data []).
Qed.

Lemma scan_inv_start : scan_inv (mkState 6 6 NUL ICDCode_empty []).
Proof.
  unfold scan_inv, code_shape, ICDCode_empty.
  cbn [st_i st_col st_hipaa st_code st_codes code dec_code desc].
  repeat split; try done; try (simpl; lia).
Qed.

Lemma parse_codes_shapes (sorter : StdSort) (data : string)
    (codes records : list ICDCode) (P : ICDCode -> Prop) :
  (forall l, scan_codes data [] = Ok l -> Forall P l) ->
  parse_codes sorter data codes = Ok records ->
  Forall P codes -> Forall P records.
Proof.
  intros Hnew Hparse Hold. unfold parse_codes in Hparse.
  rewrite scan_codes_prefix in Hparse.
  apply bind_Ok in Hparse as (l & (new & Hscan & [= <-])%bind_Ok & [= <-]).
  rewrite (sort_permutation sorter). apply Forall_app. auto.
Qed.

(** X13. Every record the parser returns beyond those the vector held has a
    code of at most eight characters without a blank, and its decimal code
    is the code with a point after the third character when a fourth
    follows, and the code itself otherwise. *)
Theorem parse_codes_code_shape (sorter : StdSort) (data : string)
    (codes records : list ICDCode) :
  parse_codes sorter data codes = Ok records ->
  Forall code_shape codes -> Forall code_shape records.
Proof.
  apply parse_codes_shapes. intros l Hl.
  by apply (scan_loop_inv _ _ _ _ scan_inv_start Hl).
Qed.

Lemma parse_codes_code_shape_witness :
  Forall code_shape
    [mkICDCode "A000" "A00.0" "Cholera due to Vibrio";
     mkICDCode ("B99" +:+ eol_lf) ("B99." +:+ eol_lf) ""].
Proof.
  apply (parse_codes_code_shape std_sort_merge blob_short_line []);
    [vm_compute; reflexivity|constructor].
Defined.

(** X14. The description of every record the parser returns beyond those the
    vector held holds no line end, and is empty or ends with a character
    other than a blank. *)
Theorem parse_codes_desc_shape (sorter : StdSort) (data : string)
    (codes records : list ICDCode) :
  parse_codes sorter data codes = Ok records ->
  Forall desc_shape codes -> Forall desc_shape records.
Proof.
  apply parse_codes_shapes. intros l Hl.
  by apply (scan_loop_inv _ _ _ _ scan_inv_start Hl).
Qed.

Lemma parse_codes_desc_shape_witness :
  Forall desc_shape
    [mkICDCode "A00" "A00" "Cholera";
     mkICDCode "B000" "B00.0" "Typhoid fever"].
Proof.
  apply (parse_codes_desc_shape std_sort_merge blob_unsorted []);
    [vm_compute; reflexivity|constructor].
Defined.

(** *** One record for a line end at most *)

Lemma count_eol_skip (k : nat) (s : string) :
  (count_eol (skip k s) <= count_eol s)%nat.
Proof.
  revert s. induction k as [|k IH]; intros [|c s]; simpl; try lia.
  specialize (IH s). lia.
Qed.

Lemma count_eol_skip_le (i j : nat) (data : string) :
  (i <= j)%nat -> (count_eol (skip j data) <= count_eol (skip i data))%nat.
Proof.
  intros Hij. replace j with (i + (j - i))%nat by lia.
  rewrite skip_add. apply count_eol_skip.
Qed.

Lemma count_eol_skip_get (i : nat) (data : string) (c : ascii) :
  String.get i data = Some c -> is_eol c = true ->
  count_eol (skip i data) = S (count_eol (skip (S i) data)).
Proof.
  revert i. induction data as [|d data IH]; intros i; [by destruct i|].
  destruct i as [|i].
  - simpl. intros [= <-] ->. done.
  - simpl. apply IH.
Qed.

Lemma count_eol_skip_eol (i : nat) (data : string) (c : ascii) :
  index data i = Ok c -> is_eol c = true ->
  count_eol (skip i data) = S (count_eol (skip (S i) data)).
Proof.
  unfold index. destruct (String.get i data) as [c1|] eqn:Hget.
  - intros [= <-]. by apply count_eol_skip_get.
  - destruct (i =? String.length data)%nat; [|discriminate].
    intros [= <-]. discriminate.
Qed.

Lemma loop_columns_codes (data : string) (s s1 : scan_state) :
  loop_columns data s = Ok s1 -> st_codes s1 = st_codes s.
Proof.
  destruct s as [i col hipaa cd codes]. unfold loop_columns.
  intros (c & _ & H)%bind_Ok.
  repeat case_match; simplify_eq/=; try done.
  by apply bind_Ok in H as (d & _ & [= <-]).
Qed.

Lemma loop_body_count (data : string) (s s2 : scan_state) :
  loop_body data s = Ok s2 ->
  (length (st_codes s2) + count_eol (skip (S (st_i s2)) data) <=
   length (st_codes s) + count_eol (skip (st_i s) data))%nat.
Proof.
  unfold loop_body. intros (s1 & H1 & H2)%bind_Ok.
  pose proof (loop_columns_i _ _ _ H1) as Hi.
  rewrite <- (loop_columns_codes _ _ _ H1).
  pose proof (count_eol_skip_le _ _ data Hi) as Hle.
  destruct s1 as [i1 col hipaa cd codes].
  pose proof (loop_eol_i _ _ _ H2) as Hi2. unfold loop_eol in H2.
  apply bind_Ok in H2 as (c & Hc & H2).
  cbn [st_i st_col st_hipaa st_code st_codes] in *.
  destruct (is_eol c) eqn:Heol.
  - rewrite (count_eol_skip_eol _ _ _ Hc Heol) in Hle.
    assert (Hs : (S i1 <= S (st_i s2))%nat) by lia.
    apply (count_eol_skip_le _ _ data) in Hs.
    apply bind_Ok in H2 as (i2 & _ & [= <-]).
    cbn [st_i st_col st_hipaa st_code st_codes] in *.
    destruct (ascii_eqb hipaa "1"); rewrite ?length_app; cbn [length]; lia.
  - injection H2 as <-. cbn [st_i st_col st_hipaa st_code st_codes] in *.
    assert (Hs : (i1 <= S i1)%nat) by lia.
    apply (count_eol_skip_le _ _ data) in Hs. lia.
Qed.

Lemma scan_loop_count (fuel : nat) (data : string) (s : scan_state)
    (records : list ICDCode) :
  scan_loop fuel data s = Ok records ->
  (length records <=
   length (st_codes s) + count_eol (skip (st_i s) data))%nat.
Proof.
  revert s. induction fuel as [|fuel IH]; intros s; simpl;
    destruct (String.length data <=? st_i s)%nat;
    try discriminate; try (intros [= <-]; lia).
  intros (s2 & Hb & H)%bind_Ok.
  apply IH in H. apply loop_body_count in Hb.
  cbn [st_i st_col st_hipaa st_code st_codes] in H. lia.
Qed.

(** X15. The parser adds at most one record for each line-end character
    (CR or LF) of the blob: a blob of [n] line-end characters adds at most
    [n] records, and a blob without a line end adds none. *)
Theorem parse_codes_one_record_per_line_end (sorter : StdSort) (data : string)
    (codes records : list ICDCode) :
  parse_codes sorter data codes = Ok records ->
  (length records <= length codes + count_eol data)%nat.
Proof.
  unfold parse_codes. intros (l & Hl & [= <-])%bind_Ok.
  rewrite (sort_permutation sorter).
  apply scan_loop_count in Hl. cbn [st_i st_codes] in Hl.
  pose proof (count_eol_skip 6 data). lia.
Qed.

Lemma parse_codes_one_record_per_line_end_witness :
  (length [mkICDCode "A00" "A00" "Cholera";
           mkICDCode "B000" "B00.0" "Typhoid fever"] <=
   length (@nil ICDCode) + count_eol blob_unsorted)%nat.
Proof.
  apply (parse_codes_one_record_per_line_end std_sort_merge blob_unsorted []).
  vm_compute. reflexivity.
Defined.

(** *** Distinct codes: the sort is determined *)

Lemma lookup_lt_StronglySorted {A : Type} (R : relation A) (l : list A) :
  (forall (i j : nat) a b,
     (i < j)%nat -> l !! i = Some a -> l !! j = Some b -> R a b) ->
  StronglySorted R l.
Proof.
  induction l as [|x l IH]; intros H; constructor.
  - apply IH. intros i j a b Hij Ha Hb. apply (H (S i) (S j)); auto with lia.
  - apply Forall_forall. intros y [j Hj]%list_elem_of_lookup_1.
    apply (H 0%nat (S j)); auto with lia.
Qed.

Lemma StronglySorted_weaken {A : Type} (R1 R2 : relation A) (l : list A) :
  (forall x y, R1 x y -> R2 x y) -> StronglySorted R1 l -> StronglySorted R2 l.
Proof.
  intros H. induction 1 as [|x l Hs IH Hall]; constructor; [done|].
  eapply Forall_impl; [exact Hall|]. auto.
Qed.

Lemma sort_StronglySorted (sorter : StdSort) (l : list ICDCode) :
  StronglySorted code_le (sort sorter l).
Proof.
  apply lookup_lt_StronglySorted. intros i j a b Hij Ha Hb.
  apply comp_false_iff_le. by apply (sort_sorted sorter l i j).
Qed.

Lemma NoDup_codes_inj (l : list ICDCode) (x y : ICDCode) :
  NoDup (code <$> l) -> x ∈ l -> y ∈ l -> code x = code y -> x = y.
Proof.
  induction l as [|a l IH]; intros Hnd Hx Hy Hxy.
  - by apply elem_of_nil in Hx.
  - rewrite fmap_cons in Hnd. apply NoDup_cons in Hnd as [Hna Hnd].
    apply elem_of_cons in Hx as [->|Hx]; apply elem_of_cons in Hy as [->|Hy].
    + done.
    + exfalso. apply Hna. rewrite Hxy. by apply list_elem_of_fmap_2.
    + exfalso. apply Hna. rewrite <- Hxy. by apply list_elem_of_fmap_2.
    + by apply IH.
Qed.

Lemma sorted_Permutation_unique (l1 l2 : list ICDCode) :
  l1 ≡ₚ l2 -> StronglySorted code_le l1 -> StronglySorted code_le l2 ->
  NoDup (code <$> l1) -> l1 = l2.
Proof.
  intros Hp H1 H2 Hnd.
  apply (StronglySorted_unique_strong code_le); [|done..].
  intros x1 x2 Hx1 Hx2 H12 H21.
  apply (NoDup_codes_inj l1); [done|done|by rewrite Hp|].
  by apply (anti_symm String.le).
Qed.

(** X16. When the codes of the records are pairwise distinct, the vector
    the parser returns does not depend on the sort: two sorts within the
    contract of [std::sort] return the same vector. *)
Theorem parse_codes_distinct_codes (sorter1 sorter2 : StdSort) (data : string)
    (codes records1 records2 : list ICDCode) :
  parse_codes sorter1 data codes = Ok records1 ->
  parse_codes sorter2 data codes = Ok records2 ->
  NoDup (code <$> records1) ->
  records1 = records2.
Proof.
  unfold parse_codes.
  intros (l & Hl & [= <-])%bind_Ok (l2 & Hl2 & [= <-])%bind_Ok Hnd.
  assert (l2 = l) as -> by congruence.
  apply sorted_Permutation_unique; [|apply sort_StronglySorted..|done].
  by rewrite !(sort_permutation _ l).
Qed.

Lemma parse_codes_distinct_codes_witness :
  [mkICDCode "A00" "A00" "Cholera"; mkICDCode "B000" "B00.0" "Typhoid fever"] =
  [mkICDCode "A00" "A00" "Cholera"; mkICDCode "B000" "B00.0" "Typhoid fever"].
Proof.
  apply (parse_codes_distinct_codes std_sort_merge std_sort_rev blob_unsorted []);
    [vm_compute; reflexivity|vm_compute; reflexivity|].
  repeat constructor; rewrite ?elem_of_cons, ?elem_of_nil; intros H;
    repeat destruct H as [H|H]; done.
Defined.

Lemma comp_icdcode_true (a b : ICDCode) :
  comp_icdcode a b = true -> code_le a b /\ code a <> code b.
Proof.
  intros Hab.
  assert (Hnle : ~ code_le b a).
  { intros Hle%comp_false_iff_le. congruence. }
  split.
  - by destruct (total code_le a b).
  - intros Heq. apply Hnle. unfold code_le. by rewrite Heq.
Qed.

Lemma ascending_NoDup (l : list ICDCode) :
  StronglySorted (fun a b => comp_icdcode a b = true) l ->
  NoDup (code <$> l).
Proof.
  induction 1 as [|a l Hs IH Hall]; [constructor|].
  rewrite fmap_cons. apply NoDup_cons. split; [|exact IH].
  intros (b & Hb & Hin)%list_elem_of_fmap.
  rewrite Forall_forall in Hall.
  by destruct (comp_icdcode_true a b (Hall b Hin)).
Qed.

(** X17. A well-formed order file whose kept lines are in ascending order of
    their codes, each code less than the next, is returned as it is read:
    the vector holds the records of the kept lines in file order, whatever
    the sort does with equal codes. *)
Theorem ascending_file_kept_in_order (sorter : StdSort) (rows : list order_row) :
  Forall well_formed_row rows ->
  StronglySorted (fun a b => comp_icdcode a b = true) (records_of rows) ->
  parse_codes sorter (render_rows rows) [] = Ok (records_of rows).
Proof.
  intros Hwf Hsorted.
  assert (Hscan : scan_codes (render_rows rows) [] = Ok (records_of rows)).
  { destruct (scan_rows (render_rows rows) rows 0 NUL [] Hwf eq_refl)
      as [k Hk].
    by eapply scan_codes_of_loop. }
  unfold parse_codes. rewrite Hscan. cbn [mbind result_bind]. f_equal.
  symmetry. apply sorted_Permutation_unique.
  - by rewrite (sort_permutation sorter).
  - eapply StronglySorted_weaken; [|exact Hsorted]. intros a b Hab.
    by apply comp_icdcode_true.
  - apply sort_StronglySorted.
  - by apply ascending_NoDup.
Qed.

Lemma ascending_file_kept_in_order_witness :
  parse_codes std_sort_rev (render_rows sorted_rows) [] =
  Ok (records_of sorted_rows).
Proof.
  apply (ascending_file_kept_in_order std_sort_rev sorted_rows).
  - repeat constructor; try (vm_compute; reflexivity); try discriminate.
    all: intros _; eexists; split; vm_compute; reflexivity.
  - repeat constructor.
Defined.

Section GeneratorMore.

Variable strftime : nat -> string -> tm -> string.

Lemma fold_record_lines_bit (b1 b2 : Z) (codes : list ICDCode) (outp : string) :
  has_bit b1 1 = has_bit b2 1 ->
  fold_left (record_lines b1) codes outp =
  fold_left (record_lines b2) codes outp.
Proof.
  intros Hb. revert outp. induction codes as [|it codes IH]; intros outp;
    [done|].
  cbn [fold_left]. rewrite IH. f_equal. unfold record_lines. by rewrite Hb.
Qed.

(** X18. The three files agree. With [N] the non-decimal lines of the
    records and [D] their decimal lines, the non-decimal file is the
    non-decimal header, [N] and two newlines; the decimal file is the
    decimal header, [D] and two newlines; and the combined file is the
    non-decimal header, [N], [D] and two newlines: the non-decimal file
    without its ending newlines, followed by the decimal file without its
    header. None of them depends on what the three buffers held before. *)
Theorem gen_files_three_outputs (codes : list ICDCode)
    (year dec ndec comb : string) (ltim : tm) (days : Z) :
  let dj := to_string (days - 7182) in
  let N := fold_left (record_lines 4) codes "" in
  let D := fold_left (record_lines 3) codes "" in
  let nl := String LF (String LF "") in
  gen_files strftime codes year dec ndec comb ltim days =
  (header strftime year ltim dj 7 +:+ D +:+ nl,
   header strftime year ltim dj 4 +:+ N +:+ nl,
   header strftime year ltim dj 4 +:+ N +:+ D +:+ nl).
Proof.
  intros dj N D nl. unfold gen_files, gen_go_file. fold dj.
  change (has_bit 6 4) with true. change (has_bit 6 2) with true.
  change (has_bit 7 4) with true. change (has_bit 7 2) with true.
  change (has_bit 4 4) with true. change (has_bit 4 2) with false.
  change (has_bit 3 4) with false. change (has_bit 3 2) with true.
  cbn iota.
  rewrite (fold_record_lines_app 6 codes (header _ _ _ _ _)),
    (fold_record_lines_app 7 codes (header _ _ _ _ _)),
    (fold_record_lines_app 4 codes (header _ _ _ _ _)).
  rewrite (fold_record_lines_bit 6 4), (fold_record_lines_bit 7 3)
    by reflexivity.
  fold N D nl.
  replace (header strftime year ltim dj 6)
    with (header strftime year ltim dj 4) by reflexivity.
  by rewrite !app_assoc_string.
Qed.

End GeneratorMore.

End ICD10More.

(** ** Facts on the address splitter *)

Module ParseUrlFacts.
Import ParseUrl.


Definition accepted (o : outcome (bool * string * string)) : Prop :=
  match o with
  | Returns (true, _, _) => True
  | _ => False
  end.






Section LibraryFacts.

Variable tolower : Z -> option Z.
Variable char_signed : bool.

Lemma url_loop_S (fuel : nat) (base url : string) (strlen i offs : nat) :
  url_loop tolower char_signed (S fuel) base url strlen i offs =
  if negb (i <? strlen)%nat then Returns (false, base, url)
  else
    if (2 + offs <? i)%nat then
      match find "/" base i with
      | Some base_end =>
        url' ← substr base base_end None;
        base' ← substr base 0 (Some base_end);
        Returns (true, base', url')
      | None => Returns (true, base, url)
      end
    else if (3 <? i)%nat then
      c ← elem_at base i;
      l ← call_tolower tolower (to_int char_signed c);
      e ← (if (i <? offs)%nat then Undefined
           else elem_at http_end (i - offs));
      if negb (l =? to_int char_signed e)%Z then Returns (false, base, url)
      else url_loop tolower char_signed fuel base url strlen (S i) offs
    else
      c ← elem_at base i;
      l ← call_tolower tolower (to_int char_signed c);
      e ← elem_at http_base i;
      if negb (l =? to_int char_signed e)%Z then Returns (false, base, url)
      else if (i =? 3)%nat then
        c4 ← elem_at base 4;
        t ← call_tolower tolower (if ascii_eqb c4 "s" then 1 else 0)%Z;
        if negb (t =? 0)%Z
        then url_loop tolower char_signed fuel base url strlen (S (S i)) (S offs)
        else url_loop tolower char_signed fuel base url strlen (S i) offs
      else url_loop tolower char_signed fuel base url strlen (S i) offs.
Proof. reflexivity. Qed.


End LibraryFacts.



Section Accepts.

Variable tolower : Z -> option Z.
Variable char_signed : bool.

(** [tolower] turns the character [c] into the character [l]. *)
Definition lowers_to (c l : ascii) : Prop :=
  tolower (to_int char_signed c) = Some (to_int char_signed l).

Definition no_slash (s : string) : Prop :=
  ICD10More.all_chars (fun c => ascii_eqb c "/" = false) s.

Lemma find_prefix (c : ascii) (pre s : string) :
  find c (pre +:+ s) (String.length pre) =
  (fun e => (String.length pre + e)%nat) <$> find c s 0.
Proof.
  induction pre as [|d pre IH].
  - rewrite app_empty_l. simpl. by destruct (find c s 0).
  - rewrite app_String. cbn [String.length find]. rewrite IH.
    by destruct (find c s 0).
Qed.

Lemma find_free (w path : string) :
  no_slash w ->
  find "/" (w +:+ path) 0 =
  (fun e => (String.length w + e)%nat) <$> find "/" path 0.
Proof.
  induction w as [|d w IH]; intros Hw.
  - rewrite app_empty_l. simpl. by destruct (find "/" path 0).
  - destruct Hw as [Hd Hw]. rewrite app_String. cbn [find String.length].
    rewrite Hd, (IH Hw). by destruct (find "/" path 0).
Qed.

Lemma substring_app_length (w rest : string) :
  substring 0 (String.length w) (w +:+ rest) = w.
Proof.
  induction w as [|c w IH]; [by destruct rest|].
  rewrite app_String. simpl. by rewrite IH.
Qed.

(** The cut at the first slash after the scheme. *)
Lemma cut_after_scheme (pre host path url : string) :
  no_slash host ->
  path = "" \/ (exists rest, path = String "/" rest) ->
  match find "/" (pre +:+ host +:+ path) (String.length pre) with
  | Some base_end =>
    url' ← substr (pre +:+ host +:+ path) base_end None;
    base' ← substr (pre +:+ host +:+ path) 0 (Some base_end);
    Returns (true, base', url')
  | None => Returns (true, pre +:+ host +:+ path, url)
  end =
  Returns (true, pre +:+ host,
           match path with "" => url | _ => path end).
Proof.
  intros Hhost Hpath. rewrite find_prefix, (find_free _ _ Hhost).
  destruct Hpath as [->|[rest ->]].
  - cbn. by rewrite !app_empty_r.
  - cbn [find]. change (ascii_eqb "/" "/") with true.
    cbn [fmap option_fmap option_map]. rewrite Nat.add_0_r.
    unfold substr.
    rewrite <- (app_assoc_string pre host), <- length_app_string.
    destruct (Nat.ltb_spec
                (String.length ((pre +:+ host) +:+ String "/" rest))
                (String.length (pre +:+ host))) as [Hlt|_].
    { rewrite length_app_string in Hlt. lia. }
    cbn [mbind outcome_bind Nat.ltb Nat.leb].
    by rewrite ICD10More.skip_app_length, substring_app_length.
Qed.

Lemma elem_at_prefix (pre rest : string) (i : nat) :
  (i < String.length pre)%nat ->
  elem_at (pre +:+ rest) i = Returns (char_at pre i).
Proof.
  intros Hi. unfold elem_at. rewrite length_app_string.
  destruct (Nat.leb_spec i (String.length pre + String.length rest)); [|lia].
  unfold char_at. by rewrite ICD10More.get_app_lt.
Qed.

Ltac url_round Hlen Hc :=
  rewrite url_loop_S;
  match goal with
  | |- context [(?i <? String.length ?b)%nat] =>
    replace (i <? String.length b)%nat with true
      by (symmetry; apply Nat.ltb_lt; rewrite Hlen; simpl; lia)
  end;
  cbn [negb Nat.add Nat.ltb Nat.leb Nat.eqb Nat.sub];
  rewrite !elem_at_prefix by (simpl; lia);
  unfold call_tolower, elem_at, http_base, http_end, char_at;
  cbn [String.get String.length Nat.leb mbind outcome_bind];
  rewrite Hc; cbn [mbind outcome_bind];
  rewrite Z.eqb_refl; cbn [negb].

(** X20. An address that begins with the four letters of http in any case,
    then an optional lower-case s, then a colon and two slashes, then a
    host without a slash and at least one character long, then nothing or a
    path that begins with a slash, is accepted: [base] is left as the scheme
    and the host, and [url] becomes the path, or stays as it was when there
    is no path. *)
Theorem parse_url_accepts (c0 c1 c2 c3 : ascii) (secure : bool)
    (host path url : string) :
  lowers_to c0 "h" -> lowers_to c1 "t" -> lowers_to c2 "t" ->
  lowers_to c3 "p" -> lowers_to ":" ":" -> lowers_to "/" "/" ->
  tolower 0 = Some 0%Z ->
  (exists t, tolower 1 = Some t /\ t <> 0%Z) ->
  no_slash host -> host <> "" ->
  path = "" \/ (exists rest, path = String "/" rest) ->
  parse_url tolower char_signed
    (String c0 (String c1 (String c2 (String c3
       (if secure then "s://" else "://"))))
     +:+ host +:+ path) url =
  Returns (true,
           String c0 (String c1 (String c2 (String c3
             (if secure then "s://" else "://")))) +:+ host,
           match path with "" => url | _ => path end).
Proof.
  unfold lowers_to.
  intros H0 H1 H2 H3 Hcolon Hslash Hnul (t & Ht & Ht0) Hhost Hne Hpath.
  assert (Hhl : (1 <= String.length host)%nat)
    by (destruct host; [done|simpl; lia]).
  unfold parse_url.
  set (pre := String c0 (String c1 (String c2 (String c3
                (if secure then "s://" else "://"))))).
  assert (Hlen : String.length (pre +:+ host +:+ path) =
    (String.length pre + (String.length host + String.length path))%nat)
    by (by rewrite !length_app_string).
  assert (Hfuel : exists fuel,
    String.length (pre +:+ host +:+ path) = (8 + fuel)%nat).
  { exists (String.length (pre +:+ host +:+ path) - 8)%nat.
    rewrite Hlen. unfold pre. destruct secure; simpl; lia. }
  destruct Hfuel as [fuel Hfuel]. rewrite Hfuel at 1.
  cbn [Nat.add].
  rewrite <- (cut_after_scheme pre host path url Hhost Hpath).
  unfold pre in *. clear pre. destruct secure.
  - url_round Hlen H0. url_round Hlen H1. url_round Hlen H2.
    url_round Hlen H3.
    change (ascii_eqb "s" "s") with true. cbn iota.
    rewrite Ht. cbn [mbind outcome_bind].
    destruct (Z.eqb_spec t 0); [done|]. cbn [negb].
    url_round Hlen Hcolon. url_round Hlen Hslash. url_round Hlen Hslash.
    rewrite url_loop_S.
    replace (8 <? String.length _)%nat with true
      by (symmetry; apply Nat.ltb_lt; rewrite Hlen; simpl; lia).
    reflexivity.
  - url_round Hlen H0. url_round Hlen H1. url_round Hlen H2.
    url_round Hlen H3.
    change (ascii_eqb ":" "s") with false. cbn iota.
    rewrite Hnul. cbn [mbind outcome_bind].
    cbn [Z.eqb negb].
    url_round Hlen Hcolon. url_round Hlen Hslash. url_round Hlen Hslash.
    rewrite url_loop_S.
    replace (7 <? String.length _)%nat with true
      by (symmetry; apply Nat.ltb_lt; rewrite Hlen; simpl; lia).
    reflexivity.
Qed.

(** X21. The fifth character decides between http and https, and it is
    compared with a lower-case s as it stands: when it is neither a
    lower-case s nor a character that [tolower] turns into a colon, the
    address is not accepted. An address that begins with HTTPS in capitals
    is therefore rejected, while HTTP in capitals is accepted. *)
Theorem parse_url_fifth_character (base url : string) (c4 : ascii) (l : Z) :
  String.get 4 base = Some c4 ->
  ascii_eqb c4 "s" = false ->
  tolower 0 = Some 0%Z ->
  tolower (to_int char_signed c4) = Some l ->
  l <> to_int char_signed ":" ->
  ~ accepted (parse_url tolower char_signed base url).
Proof.
  intros Hget Hs Hnul Hl Hcolon.
  destruct base as [|a0 [|a1 [|a2 [|a3 [|a4 rest]]]]]; try discriminate.
  injection Hget as ->. unfold parse_url.
  set (base := String a0 (String a1 (String a2 (String a3 (String c4 rest))))).
  change (String.length base) with (S (S (S (S (S (String.length rest)))))) at 1.
  assert (Hlen : String.length base = S (S (S (S (S (String.length rest))))))
    by reflexivity.
  do 4 (rewrite url_loop_S, Hlen;
        cbn [Nat.ltb Nat.leb negb Nat.add Nat.eqb Nat.sub]; rewrite <- Hlen;
        unfold call_tolower, elem_at, http_base, http_end, char_at;
        rewrite Hlen; cbn [base String.get String.length Nat.leb mbind outcome_bind];
        fold base; rewrite <- ?Hlen;
        match goal with
        | |- context [tolower (to_int char_signed ?a)] =>
          destruct (tolower (to_int char_signed a)); [|by intros []]
        end;
        cbn [mbind outcome_bind];
        match goal with
        | |- context [negb ?b] => destruct b; [|by intros []]
        end;
        cbn [negb]).
  rewrite Hs, Hnul. cbn [mbind outcome_bind Z.eqb negb].
  rewrite url_loop_S, Hlen.
  cbn [Nat.ltb Nat.leb negb Nat.add Nat.eqb Nat.sub]. rewrite <- Hlen.
  unfold call_tolower, elem_at, http_base, http_end, char_at.
  rewrite Hlen.
  cbn [base String.get String.length Nat.leb mbind outcome_bind].
  rewrite Hl. cbn [mbind outcome_bind].
  destruct (Z.eqb_spec l (to_int char_signed ":")); [done|].
  by intros [].
Qed.

End Accepts.

Lemma parse_url_accepts_witness :
  parse_url tolower_C true
    (String "H" (String "t" (String "T" (String "p"
       (if true then "s://" else "://"))))
     +:+ "www.cms.gov" +:+ "/medicare/coding/icd10") "" =
  Returns (true,
           String "H" (String "t" (String "T" (String "p"
             (if true then "s://" else "://")))) +:+ "www.cms.gov",
           "/medicare/coding/icd10").
Proof.
  apply (parse_url_accepts tolower_C true "H" "t" "T" "p" true "www.cms.gov"
           "/medicare/coding/icd10" "");
    try reflexivity.
  - exists 1%Z. split; [reflexivity|discriminate].
  - repeat split; reflexivity.
  - discriminate.
  - right. eexists. reflexivity.
Defined.

Lemma parse_url_fifth_character_witness :
  ~ accepted (parse_url tolower_C true "HTTPS://www.cms.gov/medicare" "").
Proof.
  apply (parse_url_fifth_character tolower_C true
           "HTTPS://www.cms.gov/medicare" "" "S" 115%Z);
    try reflexivity.
  discriminate.
Defined.

End ParseUrlFacts.
